(** * Mini ECS: the entity allocator, the component stores and the queries

    A shallow embedding of [mini_ecs.h] and of the registry part of
    [mecs_snake.c] (the [SnakeWorld] structure, [new_game],
    [clear_components] and [destroy_entity]).

    Conventions of the embedding.
    - [Entity] is C's [unsigned int]: a value of [N], with the wrap-around of
      [++] written out modulo [2^32].  [size_t] is taken as 64 bits wide.
    - A C array is a list.  Reading or writing outside it is undefined in C;
      here it yields [None], and every operation that touches an array
      lives in the [option] monad.
    - A pointer to a structure that the C code mutates becomes explicit state
      passing: the operation returns the new structure. *)

From Stdlib Require Import NArith ZArith Lia.
From stdpp Require Import base numbers option list sorting.

Local Open Scope N_scope.

(** ** mini_ecs.h *)

Definition MAX_ENTITIES : N := 1024.

Abbreviation Entity := N.

(** Number of values of [unsigned int] and of [size_t]. *)
Definition UINT_RANGE : N := 2 ^ 32.
Definition SIZE_RANGE : N := 2 ^ 64.

(** [a[i]] as an rvalue and [a[i] = v]; [None] outside the array. *)
Definition array_read {T : Type} (a : list T) (i : N) : option T :=
  a !! N.to_nat i.

Definition array_write {T : Type} (a : list T) (i : N) (v : T) : option (list T) :=
  if decide (N.to_nat i < length a)%nat
  then Some (<[N.to_nat i := v]> a)
  else None.

Record EntityManager : Type := mkEntityManager {
  next_entity : Entity;
  free_list : list Entity;
  free_count : N
}.

(** [mecs_entity_create]: the identifier returned and the manager afterwards. *)
Definition mecs_entity_create (em : EntityManager) : option (Entity * EntityManager) :=
  if 0 <? free_count em then
    let fc := (free_count em - 1) mod SIZE_RANGE in
    e ← array_read (free_list em) fc;
    Some (e, {| next_entity := next_entity em;
                free_list := free_list em;
                free_count := fc |})
  else
    Some (next_entity em,
          {| next_entity := (next_entity em + 1) mod UINT_RANGE;
             free_list := free_list em;
             free_count := free_count em |}).

(** [mecs_entity_destroy]. *)
Definition mecs_entity_destroy (em : EntityManager) (e : Entity) : option EntityManager :=
  if free_count em <? MAX_ENTITIES then
    fl ← array_write (free_list em) (free_count em) e;
    Some {| next_entity := next_entity em;
            free_list := fl;
            free_count := (free_count em + 1) mod SIZE_RANGE |}
  else
    Some em.

(** The loop of the [MECS_FOREACH_n] macros,
    [for (Entity e = 0; e < MAX_ENTITIES; ++e) if (cond) body],
    as the list of the identifiers at which the body runs.  [None] stands
    for no result: an access outside an array, or a loop still running when
    [fuel] iterations have been spent. *)
Fixpoint foreach_loop (fuel : nat) (cond : Entity → option bool) (e : Entity)
  : option (list Entity) :=
  match fuel with
  | O => None
  | S fuel' =>
      if e <? MAX_ENTITIES then
        b ← cond e;
        rest ← foreach_loop fuel' cond ((e + 1) mod UINT_RANGE);
        Some (if b : bool then e :: rest else rest)
      else Some []
  end.

(** [c1 && c2] of C: the right operand is read only when the left one is true. *)
Definition and_then (c1 c2 : option bool) : option bool :=
  b ← c1; if b : bool then c2 else Some false.

(** Fuel that lets the loop reach [e = MAX_ENTITIES] from [e = 0]. *)
Definition foreach_fuel : nat := S (N.to_nat MAX_ENTITIES).

(** ** mecs_snake.c: the components and the world *)

Inductive Collidable : Type := mkCollidable.
Inductive Consumer : Type := mkConsumer.
Inductive Interactable : Type := mkInteractable.
Inductive Direction : Type := UP | DOWN | LEFT | RIGHT.
Record Drawable : Type := mkDrawable { symbol : Z }.
Record Edible : Type := mkEdible { points : Z; grows : bool; resets : bool }.
Record Position : Type := mkPosition { x : Z; y : Z }.

(** The [Name] argument of the macros: the eight components that
    [SnakeWorld] declares with [MECS_DEFINE_COMPONENT]. *)
Inductive Name : Type :=
  | collidable | consumer | direction | drawable
  | edible | follower | interactable | position.

#[global] Instance Name_eq_dec : EqDecision Name.
Proof. solve_decision. Defined.

Definition CompType (n : Name) : Type :=
  match n with
  | collidable => Collidable
  | consumer => Consumer
  | direction => Direction
  | drawable => Drawable
  | edible => Edible
  | follower => Entity
  | interactable => Interactable
  | position => Position
  end.

(** [MECS_DEFINE_COMPONENT(CompType, Name)]: the array [Name] and the array
    [Name_flag], both of [MAX_ENTITIES] elements. *)
Record Component (T : Type) : Type := mkComponent {
  data : list T;
  flag : list bool
}.
Arguments mkComponent {T} _ _.
Arguments data {T} _.
Arguments flag {T} _.

Record SnakeWorld : Type := mkSnakeWorld {
  em : EntityManager;
  collidable_c : Component Collidable;
  consumer_c : Component Consumer;
  direction_c : Component Direction;
  drawable_c : Component Drawable;
  edible_c : Component Edible;
  follower_c : Component Entity;
  interactable_c : Component Interactable;
  position_c : Component Position;
  score : Z
}.

(** [(World)->Name] together with [(World)->Name_flag]. *)
Definition component (n : Name) (w : SnakeWorld) : Component (CompType n) :=
  match n with
  | collidable => collidable_c w
  | consumer => consumer_c w
  | direction => direction_c w
  | drawable => drawable_c w
  | edible => edible_c w
  | follower => follower_c w
  | interactable => interactable_c w
  | position => position_c w
  end.

Definition set_component (n : Name) (c : Component (CompType n)) (w : SnakeWorld)
  : SnakeWorld :=
  match n return Component (CompType n) → SnakeWorld with
  | collidable => λ c,
      mkSnakeWorld (em w) c (consumer_c w) (direction_c w) (drawable_c w)
        (edible_c w) (follower_c w) (interactable_c w) (position_c w) (score w)
  | consumer => λ c,
      mkSnakeWorld (em w) (collidable_c w) c (direction_c w) (drawable_c w)
        (edible_c w) (follower_c w) (interactable_c w) (position_c w) (score w)
  | direction => λ c,
      mkSnakeWorld (em w) (collidable_c w) (consumer_c w) c (drawable_c w)
        (edible_c w) (follower_c w) (interactable_c w) (position_c w) (score w)
  | drawable => λ c,
      mkSnakeWorld (em w) (collidable_c w) (consumer_c w) (direction_c w) c
        (edible_c w) (follower_c w) (interactable_c w) (position_c w) (score w)
  | edible => λ c,
      mkSnakeWorld (em w) (collidable_c w) (consumer_c w) (direction_c w)
        (drawable_c w) c (follower_c w) (interactable_c w) (position_c w) (score w)
  | follower => λ c,
      mkSnakeWorld (em w) (collidable_c w) (consumer_c w) (direction_c w)
        (drawable_c w) (edible_c w) c (interactable_c w) (position_c w) (score w)
  | interactable => λ c,
      mkSnakeWorld (em w) (collidable_c w) (consumer_c w) (direction_c w)
        (drawable_c w) (edible_c w) (follower_c w) c (position_c w) (score w)
  | position => λ c,
      mkSnakeWorld (em w) (collidable_c w) (consumer_c w) (direction_c w)
        (drawable_c w) (edible_c w) (follower_c w) (interactable_c w) c (score w)
  end c.

Definition set_em (m : EntityManager) (w : SnakeWorld) : SnakeWorld :=
  mkSnakeWorld m (collidable_c w) (consumer_c w) (direction_c w) (drawable_c w)
    (edible_c w) (follower_c w) (interactable_c w) (position_c w) (score w).

(** [(World)->Name[e] = v] and [(World)->Name_flag[e] = b]. *)
Definition write_data (n : Name) (e : Entity) (v : CompType n) (w : SnakeWorld)
  : option SnakeWorld :=
  d ← array_write (data (component n w)) e v;
  Some (set_component n (mkComponent d (flag (component n w))) w).

Definition write_flag (n : Name) (e : Entity) (b : bool) (w : SnakeWorld)
  : option SnakeWorld :=
  f ← array_write (flag (component n w)) e b;
  Some (set_component n (mkComponent (data (component n w)) f) w).

(** [(World)->Name[e]] as an rvalue: how the systems of the game read a
    component once its flag has been tested. *)
Definition read_data (w : SnakeWorld) (n : Name) (e : Entity) : option (CompType n) :=
  array_read (data (component n w)) e.

Definition MECS_HAS_COMPONENT (w : SnakeWorld) (n : Name) (e : Entity) : option bool :=
  array_read (flag (component n w)) e.

Definition MECS_SET_COMPONENT (w : SnakeWorld) (n : Name) (e : Entity) (v : CompType n)
  : option SnakeWorld :=
  w1 ← write_data n e v w;
  write_flag n e true w1.

Definition MECS_CLEAR_COMPONENT (w : SnakeWorld) (n : Name) (e : Entity)
  : option SnakeWorld :=
  write_flag n e false w.

Definition MECS_FOREACH_1 (w : SnakeWorld) (c1 : Name) : option (list Entity) :=
  foreach_loop foreach_fuel (λ e, MECS_HAS_COMPONENT w c1 e) 0.

Definition MECS_FOREACH_2 (w : SnakeWorld) (c1 c2 : Name) : option (list Entity) :=
  foreach_loop foreach_fuel
    (λ e, and_then (MECS_HAS_COMPONENT w c1 e) (MECS_HAS_COMPONENT w c2 e)) 0.

Definition MECS_FOREACH_3 (w : SnakeWorld) (c1 c2 c3 : Name) : option (list Entity) :=
  foreach_loop foreach_fuel
    (λ e, and_then (and_then (MECS_HAS_COMPONENT w c1 e) (MECS_HAS_COMPONENT w c2 e))
            (MECS_HAS_COMPONENT w c3 e)) 0.

Definition clear_components (game : SnakeWorld) (e : Entity) : option SnakeWorld :=
  g ← MECS_CLEAR_COMPONENT game collidable e;
  g ← MECS_CLEAR_COMPONENT g consumer e;
  g ← MECS_CLEAR_COMPONENT g direction e;
  g ← MECS_CLEAR_COMPONENT g drawable e;
  g ← MECS_CLEAR_COMPONENT g edible e;
  g ← MECS_CLEAR_COMPONENT g follower e;
  g ← MECS_CLEAR_COMPONENT g interactable e;
  MECS_CLEAR_COMPONENT g position e.

Definition destroy_entity (game : SnakeWorld) (e : Entity) : option SnakeWorld :=
  g ← clear_components game e;
  m ← mecs_entity_destroy (em g) e;
  Some (set_em m g).

(** [new_game]: [calloc] hands out a world whose bytes are all zero. *)
Definition zero_array {T : Type} (z : T) : list T := replicate (N.to_nat MAX_ENTITIES) z.

Definition zero_component {T : Type} (z : T) : Component T :=
  mkComponent (zero_array z) (zero_array false).

Definition zero_manager : EntityManager :=
  {| next_entity := 0; free_list := zero_array 0; free_count := 0 |}.

Definition new_game : SnakeWorld :=
  {| em := zero_manager;
     collidable_c := zero_component mkCollidable;
     consumer_c := zero_component mkConsumer;
     direction_c := zero_component UP;
     drawable_c := zero_component (mkDrawable 0);
     edible_c := zero_component (mkEdible 0 false false);
     follower_c := zero_component 0;
     interactable_c := zero_component mkInteractable;
     position_c := zero_component (mkPosition 0 0);
     score := 0 |}.

(** ** The shape the C declarations give to the objects *)

(** An array declared [T a[MAX_ENTITIES]]. *)
Definition array_decl {T : Type} (a : list T) : Prop :=
  length a = N.to_nat MAX_ENTITIES.

(** Every array of the world has the size of its declaration.  Nothing is
    asked of the scalar fields. *)
Definition component_wf {T : Type} (c : Component T) : Prop :=
  array_decl (data c) ∧ array_decl (flag c).

Definition world_wf (w : SnakeWorld) : Prop :=
  array_decl (free_list (em w)) ∧ ∀ n : Name, component_wf (component n w).

(** The manager as the two functions of [mini_ecs.h] keep it: [next_entity]
    is a value of [unsigned int] and [free_count] counts entries of
    [free_list]. *)
Definition manager_wf (m : EntityManager) : Prop :=
  array_decl (free_list m)
  ∧ next_entity m < UINT_RANGE
  ∧ free_count m ≤ MAX_ENTITIES.

(** The identifiers [0 .. n-1] in ascending order. *)
Definition ids_below (n : N) : list Entity := N.of_nat <$> seq 0 (N.to_nat n).

(** The presence flag of slot [e], for a slot inside the array. *)
Definition present (w : SnakeWorld) (n : Name) (e : Entity) : bool :=
  bool_decide (MECS_HAS_COMPONENT w n e = Some true).

(** ** Runs of the allocator

    A run is a sequence of calls of [mecs_entity_create] and
    [mecs_entity_destroy] on one manager, starting from the zeroed manager of
    [new_game].  Next to the manager the run records the live identifiers:
    those a creation returned and no destruction has retired since. *)

Inductive Call : Type :=
  | Create
  | Destroy (e : Entity).

Record Run : Type := mkRun {
  mgr : EntityManager;
  live : list Entity
}.

(** Retires one occurrence of [e]. *)
Fixpoint remove_one (e : Entity) (l : list Entity) : list Entity :=
  match l with
  | [] => []
  | i :: l' => if decide (i = e) then l' else i :: remove_one e l'
  end.

Definition call (r : Run) (c : Call) : option Run :=
  match c with
  | Create =>
      '(e, m) ← mecs_entity_create (mgr r);
      Some {| mgr := m; live := e :: live r |}
  | Destroy e =>
      m ← mecs_entity_destroy (mgr r) e;
      Some {| mgr := m; live := remove_one e (live r) |}
  end.

(** What the caller owes: an entity is destroyed only while it is live, and
    none is created while [MAX_ENTITIES] of them are live. *)
Definition allowed (r : Run) (c : Call) : Prop :=
  match c with
  | Create => (length (live r) < N.to_nat MAX_ENTITIES)%nat
  | Destroy e => e ∈ live r
  end.

Definition start : Run := {| mgr := zero_manager; live := [] |}.

Inductive reachable : Run → Prop :=
  | reachable_start : reachable start
  | reachable_call r c r' :
      reachable r → allowed r c → call r c = Some r' → reachable r'.

(** [n] creations in a row, the identifiers dropped. *)
Fixpoint create_n (n : nat) (m : EntityManager) : option EntityManager :=
  match n with
  | O => Some m
  | S n' => '(_, m') ← mecs_entity_create m; create_n n' m'
  end.

(** What the invariant of a run says of the manager and the live list. *)
Definition run_inv (r : Run) : Prop :=
  length (free_list (mgr r)) = N.to_nat MAX_ENTITIES
  ∧ free_count (mgr r) ≤ MAX_ENTITIES
  ∧ next_entity (mgr r) ≤ MAX_ENTITIES
  ∧ take (N.to_nat (free_count (mgr r))) (free_list (mgr r)) ++ live r
      ≡ₚ ids_below (next_entity (mgr r)).

(** ** mecs_snake.c: the entities the game starts with *)

Definition create_snake_head (game : SnakeWorld) (pos : Position) (dir : Direction)
  : option (Entity * SnakeWorld) :=
  '(head, m) ← mecs_entity_create (em game);
  g ← MECS_SET_COMPONENT (set_em m game) interactable head mkInteractable;
  g ← MECS_SET_COMPONENT g direction head dir;
  g ← MECS_SET_COMPONENT g consumer head mkConsumer;
  g ← MECS_SET_COMPONENT g drawable head (mkDrawable 79);
  g ← MECS_SET_COMPONENT g position head pos;
  g ← MECS_SET_COMPONENT g collidable head mkCollidable;
  Some (head, g).

Definition create_snake_segment (game : SnakeWorld) (pos : Position) (follows : Entity)
  : option (Entity * SnakeWorld) :=
  '(segment, m) ← mecs_entity_create (em game);
  g ← MECS_SET_COMPONENT (set_em m game) position segment pos;
  g ← MECS_SET_COMPONENT g follower segment follows;
  g ← MECS_SET_COMPONENT g drawable segment (mkDrawable 111);
  g ← MECS_SET_COMPONENT g collidable segment mkCollidable;
  Some (segment, g).

Definition init_apple (game : SnakeWorld) : option (Entity * SnakeWorld) :=
  '(apple, m) ← mecs_entity_create (em game);
  g ← MECS_SET_COMPONENT (set_em m game) drawable apple (mkDrawable 64);
  g ← MECS_SET_COMPONENT g edible apple (mkEdible 1 true true);
  g ← MECS_SET_COMPONENT g position apple (mkPosition 0 0);
  Some (apple, g).

(** The world [main] builds before its loop, the apple not yet placed:
    [init_snake(game, 3)] makes a head at (5, 5) and two segments that
    follow it, then [init_apple] makes the apple. *)
Definition opening_game : option SnakeWorld :=
  '(head, g) ← create_snake_head new_game (mkPosition 5 5) RIGHT;
  '(s1, g) ← create_snake_segment g (mkPosition 4 5) head;
  '(s2, g) ← create_snake_segment g (mkPosition 3 5) s1;
  '(_, g) ← init_apple g;
  Some g.

(** The manager with every identifier below [MAX_ENTITIES] issued and none
    returned. *)
Definition full_manager : EntityManager :=
  {| next_entity := MAX_ENTITIES; free_list := zero_array 0; free_count := 0 |}.

(** The manager with every identifier below [MAX_ENTITIES] issued and then
    returned, in increasing order: the free list is full. *)
Definition returned_manager : EntityManager :=
  {| next_entity := MAX_ENTITIES;
     free_list := ids_below MAX_ENTITIES;
     free_count := MAX_ENTITIES |}.

(** ** mecs_snake.c: the systems that only read the world *)

Definition WIDTH : Z := 20.
Definition HEIGHT : Z := 10.

(** [(Entity)-1]. *)
Definition INVALID_ENTITY : Entity := UINT_RANGE - 1.

(** The macro [positions_equal]. *)
Definition positions_equal (a b : Position) : bool :=
  (x a =? x b)%Z && (y a =? y b)%Z.

(** A [MECS_FOREACH_n] loop in a function that leaves it with [return true]
    and ends in [return false]: [body e] tells whether the body returns at
    [e].  The world is not changed while the loop runs. *)
Fixpoint foreach_any (fuel : nat) (cond : Entity → option bool)
    (body : Entity → option bool) (e : Entity) : option bool :=
  match fuel with
  | O => None
  | S fuel' =>
      if e <? MAX_ENTITIES then
        b ← cond e;
        r ← (if b : bool then body e else Some false);
        if r : bool then Some true
        else foreach_any fuel' cond body ((e + 1) mod UINT_RANGE)
      else Some false
  end.

Definition is_occupied (game : SnakeWorld) (pos : Position) : option bool :=
  foreach_any foreach_fuel
    (λ e, MECS_HAS_COMPONENT game position e)
    (λ e, p ← read_data game position e; Some (positions_equal p pos))
    0.

(** [ipos.x < 0 || ipos.x >= WIDTH || ipos.y < 0 || ipos.y >= HEIGHT]. *)
Definition hit_wall (ipos : Position) : bool :=
  (x ipos <? 0)%Z || (WIDTH <=? x ipos)%Z || (y ipos <? 0)%Z || (HEIGHT <=? y ipos)%Z.

Definition game_over (game : SnakeWorld) : option bool :=
  foreach_any foreach_fuel
    (λ i, and_then (MECS_HAS_COMPONENT game position i)
                   (MECS_HAS_COMPONENT game interactable i))
    (λ i,
       ipos ← read_data game position i;
       if hit_wall ipos then Some true
       else
         foreach_any foreach_fuel
           (λ c, and_then (MECS_HAS_COMPONENT game position c)
                          (MECS_HAS_COMPONENT game collidable c))
           (λ c,
              if i =? c then Some false
              else
                cpos ← read_data game position c;
                Some (positions_equal ipos cpos))
           0)
    0.

(** What [game->position[e]] holds, for a slot inside the array. *)
Definition position_at (w : SnakeWorld) (e : Entity) : Position :=
  default (mkPosition 0 0) (read_data w position e).

(** A cell of the board. *)
Definition on_board (p : Position) : Prop :=
  (0 ≤ x p < WIDTH)%Z ∧ (0 ≤ y p < HEIGHT)%Z.

(** ** mecs_snake.c: the systems that change the world *)

(** A [MECS_FOREACH_n] loop whose body changes the world: the flags are
    tested in the world as the iterations before have left it. *)
Fixpoint foreach_do {St : Type} (fuel : nat) (cond : St → Entity → option bool)
    (body : Entity → St → option St) (e : Entity) (s : St) : option St :=
  match fuel with
  | O => None
  | S fuel' =>
      if e <? MAX_ENTITIES then
        b ← cond s e;
        s' ← (if b : bool then body e s else Some s);
        foreach_do fuel' cond body ((e + 1) mod UINT_RANGE) s'
      else Some s
  end.

#[global] Instance Direction_eq_dec : EqDecision Direction.
Proof. solve_decision. Defined.

(** One of the four statements
    [if (dir == want && *current != against) *current = want;]
    of [handle_input], with [current = &game->direction[e]]. *)
Definition steer_if (dir want against : Direction) (e : Entity) (game : SnakeWorld)
  : option SnakeWorld :=
  if bool_decide (dir = want) then
    current ← read_data game direction e;
    if bool_decide (current ≠ against)
    then write_data direction e want game
    else Some game
  else Some game.

(** [handle_input], given the key that [get_key] returned (0 for no key).
    [dir] has no value until one of the four tests on the key gives it one. *)
Definition handle_input (key : Z) (game : SnakeWorld) : option SnakeWorld :=
  let st : bool * option Direction := (false, None) in
  let st := if (key =? 119)%Z then (true, Some UP) else st in
  let st := if (key =? 115)%Z then (true, Some DOWN) else st in
  let st := if (key =? 97)%Z then (true, Some LEFT) else st in
  let st := if (key =? 100)%Z then (true, Some RIGHT) else st in
  let '(direction_input, dir) := st in
  if negb direction_input then Some game
  else
    foreach_do foreach_fuel
      (λ g e, and_then (MECS_HAS_COMPONENT g interactable e)
                       (MECS_HAS_COMPONENT g direction e))
      (λ e g,
         dir ← dir;
         g ← steer_if dir UP DOWN e g;
         g ← steer_if dir DOWN UP e g;
         g ← steer_if dir RIGHT LEFT e g;
         steer_if dir LEFT RIGHT e g)
      0 game.

(** What [game->direction[e]] holds, for a slot inside the array. *)
Definition direction_at (w : SnakeWorld) (e : Entity) : Direction :=
  default UP (read_data w direction e).

Definition opposite (d : Direction) : Direction :=
  match d with UP => DOWN | DOWN => UP | LEFT => RIGHT | RIGHT => LEFT end.

(** The direction a key asks for: w, s, a, d. *)
Definition key_direction (key : Z) : option Direction :=
  if (key =? 100)%Z then Some RIGHT
  else if (key =? 97)%Z then Some LEFT
  else if (key =? 115)%Z then Some DOWN
  else if (key =? 119)%Z then Some UP
  else None.

(** The direction of slot [e] after the key: the one asked for, when [e] is
    interactable, has a direction, and is not heading the opposite way. *)
Definition steered (w : SnakeWorld) (key : Z) (e : Entity) : Direction :=
  match key_direction key with
  | Some d =>
      if present w interactable e && present w direction e
         && bool_decide (direction_at w e ≠ opposite d)
      then d else direction_at w e
  | None => direction_at w e
  end.

(** ** Calls on the allocator with nothing asked of the caller *)

(** One call on a manager, the identifier a creation returns dropped. *)
Definition manager_call (m : EntityManager) (c : Call) : option EntityManager :=
  match c with
  | Create => snd <$> mecs_entity_create m
  | Destroy e => mecs_entity_destroy m e
  end.

Fixpoint manager_calls (cs : list Call) (m : EntityManager) : option EntityManager :=
  match cs with
  | [] => Some m
  | c :: cs' => m' ← manager_call m c; manager_calls cs' m'
  end.

(** The entries of the free list that count: [free_list[0 .. free_count-1]]. *)
Definition free_ids (m : EntityManager) : list Entity :=
  take (N.to_nat (free_count m)) (free_list m).

(** The components [create_snake_segment] attaches. *)
Definition segment_components : list Name := [position; follower; drawable; collidable].

(** The world of [new_game] once [MAX_ENTITIES] entities have been created
    and none destroyed, the components left aside. *)
Definition crowded_game : SnakeWorld := set_em full_manager new_game.

(** ** mecs_snake.c: the chain of followers *)

(** The loop [while (current < MAX_ENTITIES && map[current] != INVALID_ENTITY)
    current = map[current];] of [last_follower].  Nothing bounds the number
    of its iterations: [fuel] does, and [None] also stands for a loop still
    running when the fuel is spent. *)
Fixpoint walk_chain (fuel : nat) (map : list Entity) (current : Entity)
  : option Entity :=
  match fuel with
  | O => None
  | S fuel' =>
      c ← and_then (Some (current <? MAX_ENTITIES))
                   (m ← array_read map current; Some (negb (m =? INVALID_ENTITY)));
      if c : bool then
        m ← array_read map current;
        walk_chain fuel' map m
      else Some current
  end.

(** [map] after [memset(map, 0xFF, sizeof(map))] and the loop that stores,
    for every entity with a position and a leader below [MAX_ENTITIES], the
    entity at the index of its leader. *)
Definition follower_map (game : SnakeWorld) : option (list Entity) :=
  foreach_do foreach_fuel
    (λ _ e, and_then (MECS_HAS_COMPONENT game position e)
                     (MECS_HAS_COMPONENT game follower e))
    (λ e map,
       l ← read_data game follower e;
       if l <? MAX_ENTITIES then array_write map l e else Some map)
    0 (replicate (N.to_nat MAX_ENTITIES) INVALID_ENTITY).

Definition last_follower (fuel : nat) (game : SnakeWorld) (lead : Entity)
  : option Entity :=
  map ← follower_map game;
  walk_chain fuel map lead.

(** [grow]: the position of the tail is read before the segment is made. *)
Definition grow (fuel : nat) (game : SnakeWorld) (lead : Entity) : option SnakeWorld :=
  tail ← last_follower fuel game lead;
  pos ← read_data game position tail;
  snd <$> create_snake_segment game pos tail.

(** [update_followers_of] calls itself for every follower of [leader]; the
    depth of the calls is bounded by [fuel] here and by nothing in C.
    [*leader_pos] is read when the follower is moved, after the call. *)
Fixpoint update_followers_of (fuel : nat) (game : SnakeWorld) (leader : Entity)
  : option SnakeWorld :=
  match fuel with
  | O => None
  | S fuel' =>
      foreach_do foreach_fuel
        (λ g e, and_then (MECS_HAS_COMPONENT g position e)
                         (MECS_HAS_COMPONENT g follower e))
        (λ e g,
           l ← read_data g follower e;
           if l =? leader then
             g ← update_followers_of fuel' g e;
             leader_pos ← read_data g position leader;
             write_data position e leader_pos g
           else Some g)
        0 game
  end.

(** What [game->follower[e]] holds, for a slot inside the array. *)
Definition follower_at (w : SnakeWorld) (e : Entity) : Entity :=
  default 0 (read_data w follower e).

(** [i] has a position and follows [l]. *)
Definition follows (w : SnakeWorld) (l i : Entity) : bool :=
  present w position i && present w follower i && (follower_at w i =? l).

(** The followers of [l], in ascending order. *)
Definition followers (w : SnakeWorld) (l : Entity) : list Entity :=
  filter (λ i, follows w l i) (ids_below MAX_ENTITIES).

(** [lead] and [body] make a snake: each entity has the next one as its
    only follower, and the last one has none. *)
Fixpoint snake (w : SnakeWorld) (lead : Entity) (body : list Entity) : Prop :=
  match body with
  | [] => followers w lead = []
  | e :: body' => followers w lead = [e] ∧ snake w e body'
  end.

(** A world with one segment that follows itself. *)
Definition looped_game : option SnakeWorld :=
  snd <$> create_snake_segment new_game (mkPosition 0 0) 0.

(** [w'] differs from [w] in the values of the position array at most. *)
Definition position_only (w w' : SnakeWorld) : Prop :=
  em w' = em w
  ∧ score w' = score w
  ∧ (∀ n, n ≠ position → component n w' = component n w)
  ∧ flag (component position w') = flag (component position w).

(** The positions after the followers along a snake have each taken the
    place of their leader. *)
Fixpoint shifted (w : SnakeWorld) (lead : Entity) (body : list Entity) (i : Entity)
  : Position :=
  match body with
  | [] => position_at w i
  | e :: body' => if decide (i = e) then position_at w lead else shifted w e body' i
  end.

(** ** mecs_snake.c: movement *)

(** The range of C's [int], taken as 32 bits wide.  Arithmetic on [int]
    that leaves it is undefined: it yields [None]. *)
Definition INT_MIN : Z := - 2 ^ 31.
Definition INT_MAX : Z := 2 ^ 31 - 1.

Definition int_result (z : Z) : option Z :=
  if ((INT_MIN <=? z) && (z <=? INT_MAX))%Z then Some z else None.

(** The [switch (d)] of [update_interactables], on [*p]. *)
Definition step_position (d : Direction) (p : Position) : option Position :=
  match d with
  | UP => y' ← int_result (y p - 1); Some (mkPosition (x p) y')
  | DOWN => y' ← int_result (y p + 1); Some (mkPosition (x p) y')
  | LEFT => x' ← int_result (x p - 1); Some (mkPosition x' (y p))
  | RIGHT => x' ← int_result (x p + 1); Some (mkPosition x' (y p))
  end.

(** [update_interactables]: [d] is read before the followers are moved, the
    position of [e] is changed after. *)
Definition update_interactables (fuel : nat) (game : SnakeWorld) : option SnakeWorld :=
  foreach_do foreach_fuel
    (λ g e, and_then (MECS_HAS_COMPONENT g position e)
                     (MECS_HAS_COMPONENT g direction e))
    (λ e g,
       d ← read_data g direction e;
       g ← update_followers_of fuel g e;
       p ← read_data g position e;
       p' ← step_position d p;
       write_data position e p' g)
    0 game.

(** The neighbouring cell in direction [d]. *)
Definition moved (d : Direction) (p : Position) : Position :=
  match d with
  | UP => mkPosition (x p) (y p - 1)
  | DOWN => mkPosition (x p) (y p + 1)
  | LEFT => mkPosition (x p - 1) (y p)
  | RIGHT => mkPosition (x p + 1) (y p)
  end.

(** Both coordinates strictly inside the range of [int]. *)
Definition inside_int (p : Position) : Prop :=
  (INT_MIN < x p < INT_MAX)%Z ∧ (INT_MIN < y p < INT_MAX)%Z.

(** ** mecs_snake.c: the grid that [render] prints *)

(** An [int] used as an index: a negative one is outside every array. *)
Definition index_of_int (z : Z) : option N :=
  if (z <? 0)%Z then None else Some (Z.to_N z).

(** [(unsigned)z] for an [int] [z]. *)
Definition to_unsigned (z : Z) : Z := (z mod 2 ^ 32)%Z.

(** [grid[py][px] = c] on [char grid[HEIGHT][WIDTH]]. *)
Definition grid_write (grid : list (list Z)) (px py : Z) (c : Z) : option (list (list Z)) :=
  iy ← index_of_int py;
  ix ← index_of_int px;
  row ← array_read grid iy;
  row' ← array_write row ix c;
  array_write grid iy row'.

(** [grid[py][px]]. *)
Definition grid_read (grid : list (list Z)) (px py : Z) : option Z :=
  iy ← index_of_int py;
  ix ← index_of_int px;
  row ← array_read grid iy;
  array_read row ix.

(** [render] up to its first [printf]: the grid filled with '.', then the
    symbol of every drawable entity stored at its position when the
    position is on the board. *)
Definition render_grid (game : SnakeWorld) : option (list (list Z)) :=
  foreach_do foreach_fuel
    (λ _ e, and_then (MECS_HAS_COMPONENT game drawable e)
                     (MECS_HAS_COMPONENT game position e))
    (λ e grid,
       p ← read_data game position e;
       if ((to_unsigned (x p) <? WIDTH) && (to_unsigned (y p) <? HEIGHT))%Z then
         d ← read_data game drawable e;
         grid_write grid (x p) (y p) (symbol d)
       else Some grid)
    0 (replicate (Z.to_nat HEIGHT) (replicate (Z.to_nat WIDTH) 46%Z)).

(** What [game->drawable[e]] holds, for a slot inside the array. *)
Definition drawable_at (w : SnakeWorld) (e : Entity) : Drawable :=
  default (mkDrawable 0) (read_data w drawable e).

(** [e] is drawable and its position is the cell ([px], [py]). *)
Definition drawn_at (w : SnakeWorld) (px py : Z) (e : Entity) : bool :=
  present w drawable e && present w position e
  && positions_equal (position_at w e) (mkPosition px py).

(** The character of a cell: the symbol of the drawable entity with the
    greatest identifier among those on the cell, '.' when there is none. *)
Definition cell_upto (w : SnakeWorld) (n : N) (px py : Z) : Z :=
  match last (filter (λ e, drawn_at w px py e) (ids_below n)) with
  | Some e => symbol (drawable_at w e)
  | None => 46%Z
  end.

(** The coordinates of every position are values of [int]. *)
Definition positions_are_ints (w : SnakeWorld) : Prop :=
  ∀ e, e < MAX_ENTITIES →
       (INT_MIN ≤ x (position_at w e) ≤ INT_MAX)%Z
       ∧ (INT_MIN ≤ y (position_at w e) ≤ INT_MAX)%Z.

(** [HEIGHT] rows of [WIDTH] characters. *)
Definition grid_shaped (grid : list (list Z)) : Prop :=
  length grid = Z.to_nat HEIGHT ∧ ∀ row, row ∈ grid → length row = Z.to_nat WIDTH.

(** ** mecs_snake.c: the apple *)

(** The loop [do { pos.x = rand() % WIDTH; pos.y = rand() % HEIGHT; }
    while (is_occupied(game, pos));] of [place_edible].  [rands] holds the
    values the successive calls of [rand] return; the loop yields the
    position it ends with and the values not yet used.  [None] also stands
    for a loop still running when [rands] is used up. *)
Fixpoint place_edible_draw (rands : list Z) (game : SnakeWorld)
  : option (Position * list Z) :=
  match rands with
  | rx :: ry :: rest =>
      let pos := mkPosition (Z.rem rx WIDTH) (Z.rem ry HEIGHT) in
      occupied ← is_occupied game pos;
      if occupied : bool then place_edible_draw rest game else Some (pos, rest)
  | _ => None
  end.

Definition place_edible (rands : list Z) (game : SnakeWorld) (edible : Entity)
  : option (SnakeWorld * list Z) :=
  '(pos, rest) ← place_edible_draw rands game;
  g ← MECS_SET_COMPONENT game position edible pos;
  Some (g, rest).

(** Some pair of draws, at an even offset, names a cell that is free. *)
Fixpoint finds_free_cell (rands : list Z) (w : SnakeWorld) : Prop :=
  match rands with
  | rx :: ry :: rest =>
      is_occupied w (mkPosition (Z.rem rx WIDTH) (Z.rem ry HEIGHT)) = Some false
      ∨ finds_free_cell rest w
  | _ => False
  end.

(** Every pair of draws, taken two by two from the start, names a cell that
    is occupied. *)
Fixpoint all_occupied (draws : list Z) (w : SnakeWorld) : Prop :=
  match draws with
  | [] => True
  | rx :: ry :: rest =>
      is_occupied w (mkPosition (Z.rem rx WIDTH) (Z.rem ry HEIGHT)) = Some true
      ∧ all_occupied rest w
  | _ => False
  end.

(** ** mecs_snake.c: eating *)

Definition set_score (s : Z) (w : SnakeWorld) : SnakeWorld :=
  mkSnakeWorld (em w) (collidable_c w) (consumer_c w) (direction_c w) (drawable_c w)
    (edible_c w) (follower_c w) (interactable_c w) (position_c w) s.

(** The state of the systems that draw random numbers: the world and the
    values [rand] has yet to return. *)
Definition Play : Type := SnakeWorld * list Z.

(** The body of the inner loop of [update_edibles].  [mouth_pos] and [ef]
    are pointers into the world: what they point to is read when it is
    used. *)
Definition eat (fuel : nat) (mouth food : Entity) (st : Play) : option Play :=
  let '(g, rands) := st in
  mouth_pos ← read_data g position mouth;
  food_pos ← read_data g position food;
  if positions_equal mouth_pos food_pos then
    ef ← read_data g edible food;
    s ← int_result (score g + points ef);
    let g := set_score s g in
    ef ← read_data g edible food;
    g ← (if grows ef then grow fuel g mouth else Some g);
    ef ← read_data g edible food;
    if resets ef then place_edible rands g food
    else g ← destroy_entity g food; Some (g, rands)
  else Some st.

Definition update_edibles (fuel : nat) (st : Play) : option Play :=
  foreach_do foreach_fuel
    (λ st mouth, and_then (MECS_HAS_COMPONENT (fst st) position mouth)
                          (MECS_HAS_COMPONENT (fst st) consumer mouth))
    (λ mouth st,
       foreach_do foreach_fuel
         (λ st food, and_then (MECS_HAS_COMPONENT (fst st) position food)
                              (MECS_HAS_COMPONENT (fst st) edible food))
         (λ food st, eat fuel mouth food st)
         0 st)
    0 st.

Definition update_state (fuel : nat) (st : Play) : option Play :=
  g ← update_interactables fuel (fst st);
  update_edibles fuel (g, snd st).

(** [mouth] can eat, [food] can be eaten, and both are on one cell. *)
Definition meal (w : SnakeWorld) (mouth food : Entity) : bool :=
  (present w position mouth && present w consumer mouth)
  && (present w position food && present w edible food)
  && positions_equal (position_at w mouth) (position_at w food).

(** What [game->edible[e]] holds, for a slot inside the array. *)
Definition edible_at (w : SnakeWorld) (e : Entity) : Edible :=
  default (mkEdible 0 false false) (read_data w edible e).

(** The opening world with the apple moved under the head. *)
Definition meal_game : option SnakeWorld :=
  w ← opening_game;
  MECS_SET_COMPONENT w position 3 (mkPosition 5 5).

(** ** mecs_snake.c: [init_snake] *)

(** The loop of [init_snake].  The array [snake] starts with indeterminate
    entries ([None]); reading one is undefined. *)
Fixpoint init_snake_loop (fuel : nat) (length i : Z) (game : SnakeWorld)
    (snake : list (option Entity)) : option SnakeWorld :=
  match fuel with
  | O => None
  | S fuel' =>
      if (i <? length)%Z then
        px ← int_result (5 - i);
        let pos := mkPosition px 5 in
        '(e, g) ← (if (i =? 0)%Z then create_snake_head game pos RIGHT
                   else
                     idx ← index_of_int (i - 1);
                     entry ← array_read snake idx;
                     follows ← entry;
                     create_snake_segment game pos follows);
        idx ← index_of_int i;
        snake' ← array_write snake idx (Some e);
        i' ← int_result (i + 1);
        init_snake_loop fuel' length i' g snake'
      else Some game
  end.

(** [init_snake].  [Entity snake[length]] is a variable length array: its
    size has to be greater than zero. *)
Definition init_snake (game : SnakeWorld) (length : Z) : option SnakeWorld :=
  if (length <=? 0)%Z then None
  else
    init_snake_loop (S (Z.to_nat length)) length 0 game
      (replicate (Z.to_nat length) None).

(** The world of [new_game] after [i] turns of the loop of [init_snake]:
    the entities [0 .. i-1], at (5, 5), (4, 5), ..., each one after the
    first following the one before, the first one heading right and being
    the only one that has a direction or eats. *)
Definition snake_built (i : nat) (g : SnakeWorld) : Prop :=
  world_wf g
  ∧ em g = {| next_entity := N.of_nat i; free_list := zero_array 0; free_count := 0 |}
  ∧ (∀ k, k < MAX_ENTITIES →
          present g position k = bool_decide (k < N.of_nat i)
          ∧ present g follower k = bool_decide (0 < k < N.of_nat i)
          ∧ present g direction k = bool_decide (k = 0 ∧ (0 < i)%nat)
          ∧ present g consumer k = bool_decide (k = 0 ∧ (0 < i)%nat)
          ∧ present g edible k = false)
  ∧ (∀ k, k < N.of_nat i → position_at g k = mkPosition (5 - Z.of_N k) 5)
  ∧ (∀ k, 0 < k < N.of_nat i → follower_at g k = k - 1)
  ∧ ((0 < i)%nat → direction_at g 0 = RIGHT).

(** ** mecs_snake.c: [sleep_ms] *)

Record timespec : Type := mkTimespec { tv_sec : Z; tv_nsec : Z }.

(** Arithmetic on [long], taken as 32 bits wide, the least that C allows. *)
Definition long_result (z : Z) : option Z :=
  if ((- 2 ^ 31 <=? z) && (z <=? 2 ^ 31 - 1))%Z then Some z else None.

(** [sleep_ms], up to the call of [nanosleep]: the [timespec] that the call
    is given.  [/] and [%] of C truncate towards zero. *)
Definition sleep_ms (milliseconds : Z) : option timespec :=
  sec ← int_result (Z.quot milliseconds 1000);
  rest ← int_result (Z.rem milliseconds 1000);
  nsec ← long_result (rest * 1000000);
  Some (mkTimespec sec nsec).

(** * Properties *)

(** ** Numbers and arrays *)

Lemma MAX_ENTITIES_range : 0 < MAX_ENTITIES ∧ MAX_ENTITIES < UINT_RANGE.
Proof. split; reflexivity. Qed.

Lemma UINT_RANGE_below_SIZE_RANGE : UINT_RANGE < SIZE_RANGE.
Proof. reflexivity. Qed.

Lemma UINT_RANGE_pos : 0 < UINT_RANGE.
Proof. reflexivity. Qed.

Global Opaque MAX_ENTITIES UINT_RANGE SIZE_RANGE.

(** Facts about the three constants, put in the context for [lia]. *)
Ltac ranges :=
  pose proof MAX_ENTITIES_range;
  pose proof UINT_RANGE_below_SIZE_RANGE;
  pose proof UINT_RANGE_pos.

Lemma uint_wrap_small (n : N) : n < UINT_RANGE → n mod UINT_RANGE = n.
Proof. apply N.mod_small. Qed.

Lemma size_wrap_small (n : N) : n < SIZE_RANGE → n mod SIZE_RANGE = n.
Proof. apply N.mod_small. Qed.

Lemma uint_succ_wrap_neq (n : N) : n < UINT_RANGE → (n + 1) mod UINT_RANGE ≠ n.
Proof.
  intros Hn. ranges.
  destruct (decide (n + 1 < UINT_RANGE)) as [Hlt|Hge].
  - rewrite uint_wrap_small by done. lia.
  - assert (n + 1 = UINT_RANGE) as -> by lia.
    rewrite N.Div0.mod_same. lia.
Qed.

Section arrays.
Context {T : Type}.
Implicit Types (a : list T) (i j : N) (v : T).

Lemma array_write_inside a i v :
  (N.to_nat i < length a)%nat →
  array_write a i v = Some (<[N.to_nat i := v]> a).
Proof. intros Hi. unfold array_write. by rewrite decide_True. Qed.

Lemma array_write_outside a i v :
  (length a ≤ N.to_nat i)%nat → array_write a i v = None.
Proof. intros Hi. unfold array_write. rewrite decide_False; [done | lia]. Qed.

Lemma array_write_Some a i v a' :
  array_write a i v = Some a' →
  (N.to_nat i < length a)%nat ∧ a' = <[N.to_nat i := v]> a.
Proof. unfold array_write. case_decide; naive_solver. Qed.

Lemma array_read_inside a i :
  (N.to_nat i < length a)%nat → is_Some (array_read a i).
Proof. apply lookup_lt_is_Some_2. Qed.

Lemma array_read_insert a i v :
  (N.to_nat i < length a)%nat →
  array_read (<[N.to_nat i := v]> a) i = Some v.
Proof. intros Hi. unfold array_read. by apply list_lookup_insert_eq. Qed.

Lemma array_read_insert_ne a i j v :
  i ≠ j → array_read (<[N.to_nat i := v]> a) j = array_read a j.
Proof. intros Hij. unfold array_read. apply list_lookup_insert_ne. lia. Qed.
End arrays.

(** ** The entity allocator *)

Lemma zero_array_decl {T : Type} (z : T) : array_decl (zero_array z).
Proof. apply length_replicate. Qed.

Lemma zero_manager_wf : manager_wf zero_manager.
Proof.
  ranges. split; [apply zero_array_decl|]. simpl. lia.
Qed.

(** With [free_count = 0] the creation takes the [else] branch, whatever
    [next_entity] is. *)
Lemma create_fresh (m : EntityManager) :
  free_count m = 0 →
  mecs_entity_create m =
    Some (next_entity m,
          {| next_entity := (next_entity m + 1) mod UINT_RANGE;
             free_list := free_list m;
             free_count := 0 |}).
Proof. intros Hfc. unfold mecs_entity_create. by rewrite Hfc. Qed.

(** With [0 < free_count <= MAX_ENTITIES] it pops the top of the free list. *)
Lemma create_reuse (m : EntityManager) :
  array_decl (free_list m) → 0 < free_count m → free_count m ≤ MAX_ENTITIES →
  ∃ e, array_read (free_list m) (free_count m - 1) = Some e
       ∧ mecs_entity_create m =
           Some (e, {| next_entity := next_entity m;
                       free_list := free_list m;
                       free_count := free_count m - 1 |}).
Proof.
  unfold array_decl. intros Hlen Hpos Hfc. ranges.
  destruct (array_read_inside (free_list m) (free_count m - 1)) as [e He]; [lia|].
  exists e. split; [done|].
  unfold mecs_entity_create.
  replace (0 <? free_count m) with true by (symmetry; apply N.ltb_lt; done).
  rewrite size_wrap_small by lia. by rewrite He.
Qed.

Lemma destroy_push (m : EntityManager) (e : Entity) :
  array_decl (free_list m) → free_count m < MAX_ENTITIES →
  mecs_entity_destroy m e =
    Some {| next_entity := next_entity m;
            free_list := <[N.to_nat (free_count m) := e]> (free_list m);
            free_count := free_count m + 1 |}.
Proof.
  unfold array_decl. intros Hlen Hfc. ranges.
  unfold mecs_entity_destroy.
  replace (free_count m <? MAX_ENTITIES) with true by (symmetry; apply N.ltb_lt; done).
  rewrite array_write_inside by lia. simpl.
  by rewrite size_wrap_small by lia.
Qed.

Lemma destroy_full (m : EntityManager) (e : Entity) :
  MAX_ENTITIES ≤ free_count m → mecs_entity_destroy m e = Some m.
Proof.
  intros Hfc. unfold mecs_entity_destroy.
  by replace (free_count m <? MAX_ENTITIES) with false by (symmetry; apply N.ltb_ge; done).
Qed.

Lemma create_wf (m m' : EntityManager) (e : Entity) :
  manager_wf m → mecs_entity_create m = Some (e, m') → manager_wf m'.
Proof.
  intros Hwf Hc. pose proof Hwf as (Hlen & Hnext & Hfc). ranges.
  destruct (decide (free_count m = 0)) as [Hz|Hnz].
  - rewrite create_fresh in Hc by done. simplify_eq. unfold manager_wf; simpl.
    repeat split; [done | | lia]. apply N.mod_lt. lia.
  - destruct (create_reuse m Hlen) as (e' & _ & Hc'); [lia | done |].
    rewrite Hc' in Hc. simplify_eq. unfold manager_wf; simpl.
    repeat split; [done | done | lia].
Qed.

Lemma destroy_wf (m m' : EntityManager) (e : Entity) :
  manager_wf m → mecs_entity_destroy m e = Some m' → manager_wf m'.
Proof.
  intros Hwf Hd. pose proof Hwf as (Hlen & Hnext & Hfc).
  destruct (decide (free_count m < MAX_ENTITIES)) as [Hlt|Hge].
  - rewrite destroy_push in Hd by done. simplify_eq.
    unfold manager_wf, array_decl in *; simpl.
    rewrite length_insert. repeat split; [done | done | lia].
  - rewrite destroy_full in Hd by lia. by simplify_eq.
Qed.

(** C5 (mecs_entity_create, below capacity): on a well-formed manager, a
    non-empty free list makes the creation return the entry on top of it,
    [free_list[free_count - 1]], with [free_count] decremented and
    [next_entity] and the array unchanged, whatever [next_entity] is; an
    empty free list with [next_entity < MAX_ENTITIES] makes it return
    [next_entity] and store [next_entity + 1], with the free list
    unchanged. *)
Theorem create_algorithm (m : EntityManager) :
  manager_wf m →
  (0 < free_count m →
     ∃ e, array_read (free_list m) (free_count m - 1) = Some e
          ∧ mecs_entity_create m =
              Some (e, {| next_entity := next_entity m;
                          free_list := free_list m;
                          free_count := free_count m - 1 |}))
  ∧ (free_count m = 0 → next_entity m < MAX_ENTITIES →
     mecs_entity_create m =
       Some (next_entity m,
             {| next_entity := next_entity m + 1;
                free_list := free_list m;
                free_count := 0 |})).
Proof.
  intros (Hlen & _ & Hfc). split.
  - intros Hpos. by apply create_reuse.
  - intros Hz Hnext. rewrite create_fresh by done. ranges.
    by rewrite uint_wrap_small by lia.
Qed.

(** Both branches: the first creation of all returns 0 and stores 1; after
    [MAX_ENTITIES] creations and the destruction of 5, with [next_entity]
    at [MAX_ENTITIES], the creation returns 5 and leaves [next_entity]. *)
Lemma create_algorithm_witness :
  mecs_entity_create zero_manager =
    Some (0, {| next_entity := 1; free_list := free_list zero_manager; free_count := 0 |})
  ∧ ∃ m m', mecs_entity_destroy full_manager 5 = Some m
            ∧ next_entity m = MAX_ENTITIES
            ∧ free_count m = 1
            ∧ mecs_entity_create m = Some (5, m')
            ∧ next_entity m' = MAX_ENTITIES
            ∧ free_count m' = 0.
Proof.
  split.
  - destruct (create_algorithm zero_manager) as [_ Hfresh].
    + repeat split; vm_compute; done.
    + apply Hfresh; [reflexivity | vm_compute; reflexivity].
  - eexists.
    match goal with
    | |- ∃ m', mecs_entity_destroy full_manager 5 = Some ?m0 ∧ _ =>
        set (m := m0);
        assert (mecs_entity_destroy full_manager 5 = Some m) as Hd
          by (vm_compute; reflexivity);
        assert (manager_wf m) as Hwf by (repeat split; vm_compute; done);
        destruct (create_algorithm m Hwf) as [Hpop _]
    end.
    destruct Hpop as (e & Hread & Hc); [reflexivity|].
    vm_compute in Hread. injection Hread as <-.
    eexists. split; [exact Hd|]. split; [reflexivity|]. split; [reflexivity|].
    split; [exact Hc|]. split; reflexivity.
Defined.

(** The manager with the full free list is what the return of every
    identifier, in increasing order, leaves of the full manager. *)
Lemma returned_manager_reached :
  manager_calls (Destroy <$> ids_below MAX_ENTITIES) full_manager = Some returned_manager.
Proof. vm_compute. reflexivity. Qed.




(** A destruction that finds room followed by a creation: the creation
    pops what the destruction pushed. *)
Lemma destroy_then_create_aux (m : EntityManager) (e : Entity) :
  array_decl (free_list m) → free_count m < MAX_ENTITIES →
  ∃ m1, mecs_entity_destroy m e = Some m1
        ∧ mecs_entity_create m1 =
            Some (e, {| next_entity := next_entity m;
                        free_list := <[N.to_nat (free_count m) := e]> (free_list m);
                        free_count := free_count m |}).
Proof.
  intros Hlen Hlt.
  eexists. split; [by apply destroy_push|].
  match goal with |- mecs_entity_create ?m1 = _ => set (m' := m1) end.
  destruct (create_reuse m') as (e' & Hread & Hc).
  { unfold array_decl in *. simpl. by rewrite length_insert. }
  { simpl. lia. }
  { simpl. lia. }
  rewrite Hc. simpl in *.
  replace (free_count m + 1 - 1) with (free_count m) in * by lia.
  unfold array_decl in Hlen.
  rewrite array_read_insert in Hread by lia. by simplify_eq.
Qed.

(** C9 (reuse is last in, first out): for every manager whose [free_list]
    has its declared size and with [free_count < MAX_ENTITIES], destroying
    [e] and creating right after returns [e] itself; the manager this
    leaves differs from the first one only in the slot
    [free_list[free_count]], which now holds [e]. *)
Theorem destroy_then_create (m : EntityManager) (e : Entity) :
  array_decl (free_list m) → free_count m < MAX_ENTITIES →
  ∃ m1 m2, mecs_entity_destroy m e = Some m1
           ∧ mecs_entity_create m1 = Some (e, m2)
           ∧ next_entity m2 = next_entity m
           ∧ free_count m2 = free_count m
           ∧ free_list m2 = <[N.to_nat (free_count m) := e]> (free_list m).
Proof.
  intros Hlen Hlt.
  destruct (destroy_then_create_aux m e Hlen Hlt) as (m1 & Hd & Hc).
  exists m1. eexists. split; [exact Hd|]. split; [exact Hc|]. done.
Qed.

Lemma destroy_then_create_witness :
  ∃ m1, mecs_entity_destroy zero_manager 7 = Some m1
        ∧ fst <$> mecs_entity_create m1 = Some 7.
Proof.
  destruct (destroy_then_create zero_manager 7) as (m1 & m2 & Hd & Hc & _).
  - vm_compute. reflexivity.
  - reflexivity.
  - exists m1. split; [exact Hd|]. rewrite Hc. reflexivity.
Defined.

(** The full manager is what [MAX_ENTITIES] creations leave of the zeroed one. *)
Lemma full_manager_reached :
  create_n (N.to_nat MAX_ENTITIES) zero_manager = Some full_manager.
Proof. vm_compute. reflexivity. Qed.

Lemma full_manager_wf : manager_wf full_manager.
Proof.
  ranges. split; [apply zero_array_decl|]. simpl. lia.
Qed.

(** C4, as stated, fails: at capacity, with [MAX_ENTITIES] identifiers issued
    and the free list empty, the creation returns [MAX_ENTITIES] like any
    other identifier and the manager it leaves is not the one it was given. *)
Lemma create_at_capacity_changes_state :
  free_count full_manager = 0
  ∧ next_entity full_manager = MAX_ENTITIES
  ∧ ∃ m', mecs_entity_create full_manager = Some (MAX_ENTITIES, m')
          ∧ next_entity m' = MAX_ENTITIES + 1
          ∧ m' ≠ full_manager.
Proof.
  split; [reflexivity|]. split; [reflexivity|].
  eexists. split; [vm_compute; reflexivity|].
  split; [vm_compute; reflexivity|].
  intros Heq. apply (f_equal next_entity) in Heq. vm_compute in Heq. discriminate.
Qed.

(** C4, amended (mecs_entity_create has no capacity check): with the free
    list empty and [next_entity] at or above [MAX_ENTITIES], the creation
    reports nothing; it returns [next_entity] and stores [next_entity + 1]
    modulo [2^32], so the manager changes, while [free_list] and
    [free_count] stay as they were. *)
Theorem create_unchecked (m : EntityManager) :
  next_entity m < UINT_RANGE → free_count m = 0 → MAX_ENTITIES ≤ next_entity m →
  ∃ m', mecs_entity_create m = Some (next_entity m, m')
        ∧ next_entity m' = (next_entity m + 1) mod UINT_RANGE
        ∧ free_list m' = free_list m
        ∧ free_count m' = free_count m
        ∧ m' ≠ m.
Proof.
  intros Hnext Hfc _.
  eexists. split; [by apply create_fresh|]. simpl. split_and!; try done.
  intros Heq. apply (f_equal next_entity) in Heq. simpl in Heq.
  by apply uint_succ_wrap_neq in Heq.
Qed.

Lemma create_unchecked_witness :
  ∃ m', mecs_entity_create full_manager = Some (MAX_ENTITIES, m')
        ∧ next_entity m' = MAX_ENTITIES + 1
        ∧ m' ≠ full_manager.
Proof.
  destruct (create_unchecked full_manager) as (m' & Hc & Hn & _ & _ & Hne).
  - reflexivity.
  - reflexivity.
  - vm_compute. discriminate.
  - exists m'. split; [exact Hc|]. split; [|exact Hne].
    rewrite Hn. vm_compute. reflexivity.
Defined.

(** ** Runs of the allocator: live identifiers are pairwise distinct *)

Lemma ids_below_succ (n : N) : ids_below (n + 1) = ids_below n ++ [n].
Proof.
  unfold ids_below.
  replace (N.to_nat (n + 1)) with (S (N.to_nat n)) by lia.
  rewrite seq_S, fmap_app. simpl. by rewrite N2Nat.id.
Qed.

Lemma NoDup_ids_below (n : N) : NoDup (ids_below n).
Proof. apply (NoDup_fmap_2 N.of_nat), NoDup_seq. Qed.

Lemma length_ids_below (n : N) : length (ids_below n) = N.to_nat n.
Proof. unfold ids_below. by rewrite length_fmap, length_seq. Qed.

Lemma elem_of_ids_below (n e : N) : e ∈ ids_below n ↔ e < n.
Proof.
  unfold ids_below. rewrite list_elem_of_fmap. split.
  - intros (k & -> & Hk). apply elem_of_seq in Hk. lia.
  - intros He. exists (N.to_nat e). split; [by rewrite N2Nat.id|].
    apply elem_of_seq. lia.
Qed.

Lemma remove_one_perm (e : Entity) (l : list Entity) :
  e ∈ l → l ≡ₚ e :: remove_one e l.
Proof.
  induction l as [|i l IH]; intros He; [by apply elem_of_nil in He|].
  simpl. case_decide as Hi; [by subst|].
  apply elem_of_cons in He as [->|He]; [done|].
  rewrite (IH He) at 1. apply Permutation_swap.
Qed.

Lemma run_inv_start : run_inv start.
Proof.
  ranges. unfold run_inv, start, zero_manager, zero_array; simpl.
  rewrite length_replicate. split_and!; try lia. done.
Qed.

Lemma run_inv_wf (r : Run) : run_inv r → manager_wf (mgr r).
Proof. intros (Hlen & Hfc & Hnext & _). ranges. repeat split; [done | lia | done]. Qed.

(** The free entries and the live identifiers together number [next_entity]. *)
Lemma run_inv_count (r : Run) :
  run_inv r →
  (N.to_nat (free_count (mgr r)) + length (live r))%nat = N.to_nat (next_entity (mgr r)).
Proof.
  intros (Hlen & Hfc & Hnext & Hperm).
  apply Permutation_length in Hperm.
  rewrite length_app, length_ids_below, length_take_le in Hperm by lia. done.
Qed.

Lemma run_inv_create (r r' : Run) :
  run_inv r → allowed r Create → call r Create = Some r' → run_inv r'.
Proof.
  intros Hinv Hpre Hcall. pose proof (run_inv_count r Hinv) as Hcount.
  pose proof (run_inv_wf r Hinv) as Hwf.
  destruct Hinv as (Hlen & Hfc & Hnext & Hperm). ranges.
  simpl in Hpre, Hcall.
  destruct (decide (free_count (mgr r) = 0)) as [Hz|Hnz].
  - rewrite create_fresh in Hcall by done. simpl in Hcall. simplify_eq.
    rewrite Hz in *. simpl in *.
    unfold run_inv; simpl.
    rewrite uint_wrap_small by lia.
    split_and!; [done | lia | lia |].
    rewrite ids_below_succ, <- Hperm. apply Permutation_cons_append.
  - destruct (create_reuse (mgr r)) as (e & Hread & Hc); [done | lia | done |].
    rewrite Hc in Hcall. simpl in Hcall. simplify_eq.
    unfold run_inv; simpl.
    split_and!; [done | lia | lia |].
    rewrite <- Hperm. unfold array_read in Hread.
    replace (N.to_nat (free_count (mgr r)))
      with (S (N.to_nat (free_count (mgr r) - 1))) by lia.
    rewrite (take_S_r _ _ e) by done.
    rewrite <- app_assoc. done.
Qed.

Lemma run_inv_destroy (r r' : Run) (e : Entity) :
  run_inv r → allowed r (Destroy e) → call r (Destroy e) = Some r' → run_inv r'.
Proof.
  intros Hinv Hpre Hcall. pose proof (run_inv_count r Hinv) as Hcount.
  pose proof (run_inv_wf r Hinv) as Hwf.
  destruct Hinv as (Hlen & Hfc & Hnext & Hperm). ranges.
  simpl in Hpre, Hcall.
  assert (0 < length (live r))%nat as Hlive.
  { destruct (live r); [by apply elem_of_nil in Hpre | simpl; lia]. }
  rewrite destroy_push in Hcall by (done || lia). simpl in Hcall. simplify_eq.
  unfold run_inv; simpl. rewrite length_insert.
  split_and!; [done | lia | done |].
  rewrite <- Hperm.
  replace (N.to_nat (free_count (mgr r) + 1))
    with (S (N.to_nat (free_count (mgr r)))) by lia.
  rewrite (take_S_r _ _ e) by (apply list_lookup_insert_eq; lia).
  rewrite take_insert_ge by lia.
  rewrite <- app_assoc. simpl.
  by rewrite <- remove_one_perm.
Qed.

Lemma reachable_inv (r : Run) : reachable r → run_inv r.
Proof.
  induction 1 as [|r c r' _ IH Hpre Hcall]; [apply run_inv_start|].
  destruct c; [by eapply run_inv_create | by eapply run_inv_destroy].
Qed.

(** Under the caller's obligations no call of a run leaves the arrays. *)
Lemma reachable_progress (r : Run) (c : Call) :
  reachable r → allowed r c → is_Some (call r c).
Proof.
  intros Hr Hpre. apply reachable_inv in Hr.
  pose proof (run_inv_wf r Hr) as Hwf.
  destruct c as [|e]; simpl.
  - destruct (decide (free_count (mgr r) = 0)) as [Hz|Hnz].
    + rewrite create_fresh by done. by eexists.
    + destruct Hwf as (Hlen & _ & Hfc).
      destruct (create_reuse (mgr r)) as (e & _ & ->); [done | lia | done |].
      by eexists.
  - destruct (decide (free_count (mgr r) < MAX_ENTITIES)).
    + rewrite destroy_push by (done || apply Hwf). by eexists.
    + rewrite destroy_full by lia. by eexists.
Qed.

(** C3 (no identifier is live twice): in every run from the zeroed manager
    in which each destruction names a live identifier and each creation
    happens with fewer than [MAX_ENTITIES] entities live, the identifiers
    that were returned by a creation and not destroyed since are pairwise
    distinct. *)
Theorem live_identifiers_distinct (r : Run) :
  reachable r → NoDup (live r).
Proof.
  intros Hr. apply reachable_inv in Hr as (_ & _ & _ & Hperm).
  pose proof (NoDup_ids_below (next_entity (mgr r))) as Hnd.
  rewrite <- Hperm in Hnd. by apply NoDup_app in Hnd as (_ & _ & ?).
Qed.

(** The run create, create, destroy 0, create: identifier 0 is issued again
    while 1 is still live. *)
Lemma live_identifiers_distinct_witness :
  ∃ r, reachable r ∧ live r = [0; 1] ∧ NoDup (live r).
Proof.
  assert (∃ r, reachable r ∧ live r = [0; 1]) as (r & Hr & Hlive).
  { eexists. split.
    - eapply (reachable_call _ Create).
      + eapply (reachable_call _ (Destroy 0)).
        * eapply (reachable_call _ Create).
          -- eapply (reachable_call _ Create).
             ++ apply reachable_start.
             ++ apply Nat.ltb_lt. vm_compute. reflexivity.
             ++ vm_compute. reflexivity.
          -- apply Nat.ltb_lt. vm_compute. reflexivity.
          -- vm_compute. reflexivity.
        * simpl. apply elem_of_cons. right. apply elem_of_cons. by left.
        * vm_compute. reflexivity.
      + apply Nat.ltb_lt. vm_compute. reflexivity.
      + vm_compute. reflexivity.
    - reflexivity. }
  exists r. split; [exact Hr|]. split; [exact Hlive|].
  exact (live_identifiers_distinct r Hr).
Defined.

(** ** The component stores *)

Lemma component_set_component (n : Name) (c : Component (CompType n)) (w : SnakeWorld) :
  component n (set_component n c w) = c.
Proof. by destruct n. Qed.

Lemma component_set_component_ne (n m : Name) (c : Component (CompType n)) (w : SnakeWorld) :
  m ≠ n → component m (set_component n c w) = component m w.
Proof. intros Hne. by destruct n, m. Qed.

Lemma em_set_component (n : Name) (c : Component (CompType n)) (w : SnakeWorld) :
  em (set_component n c w) = em w.
Proof. by destruct n. Qed.

Lemma score_set_component (n : Name) (c : Component (CompType n)) (w : SnakeWorld) :
  score (set_component n c w) = score w.
Proof. by destruct n. Qed.

Lemma set_component_same (n : Name) (w : SnakeWorld) :
  set_component n (mkComponent (data (component n w)) (flag (component n w))) w = w.
Proof. destruct w as [? [] [] [] [] [] [] [] [] ?]. by destruct n. Qed.

Lemma set_component_twice (n : Name) (c c' : Component (CompType n)) (w : SnakeWorld) :
  set_component n c' (set_component n c w) = set_component n c' w.
Proof. by destruct n. Qed.

Lemma component_set_em (n : Name) (m : EntityManager) (w : SnakeWorld) :
  component n (set_em m w) = component n w.
Proof. by destruct n. Qed.

Lemma set_component_wf (n : Name) (c : Component (CompType n)) (w : SnakeWorld) :
  world_wf w → component_wf c → world_wf (set_component n c w).
Proof.
  intros [Hm Hc] Hwf. split; [by rewrite em_set_component|].
  intros m. destruct (decide (m = n)) as [->|Hne].
  - by rewrite component_set_component.
  - by rewrite component_set_component_ne.
Qed.

Lemma new_game_wf : world_wf new_game.
Proof.
  split; [apply zero_array_decl|].
  intros []; split; apply zero_array_decl.
Qed.

Lemma slot_inside (w : SnakeWorld) (n : Name) (e : Entity) :
  world_wf w → e < MAX_ENTITIES →
  (N.to_nat e < length (data (component n w)))%nat
  ∧ (N.to_nat e < length (flag (component n w)))%nat.
Proof. intros [_ Hc] He. destruct (Hc n) as [-> ->]. lia. Qed.

Lemma write_flag_inside (w : SnakeWorld) (n : Name) (e : Entity) (b : bool) :
  world_wf w → e < MAX_ENTITIES →
  write_flag n e b w =
    Some (set_component n
            (mkComponent (data (component n w))
                         (<[N.to_nat e := b]> (flag (component n w)))) w).
Proof.
  intros Hwf He. destruct (slot_inside w n e Hwf He) as [_ Hf].
  unfold write_flag. by rewrite array_write_inside.
Qed.

Lemma write_data_inside (w : SnakeWorld) (n : Name) (e : Entity) (v : CompType n) :
  world_wf w → e < MAX_ENTITIES →
  write_data n e v w =
    Some (set_component n
            (mkComponent (<[N.to_nat e := v]> (data (component n w)))
                         (flag (component n w))) w).
Proof.
  intros Hwf He. destruct (slot_inside w n e Hwf He) as [Hd _].
  unfold write_data. by rewrite array_write_inside.
Qed.

Lemma write_flag_wf (w w' : SnakeWorld) (n : Name) (e : Entity) (b : bool) :
  world_wf w → write_flag n e b w = Some w' → world_wf w'.
Proof.
  intros Hwf Hw. unfold write_flag in Hw.
  destruct (array_write _ e b) as [f|] eqn:Hf; simplify_eq/=.
  apply array_write_Some in Hf as [_ ->].
  apply set_component_wf; [done|].
  destruct Hwf as [_ Hc]. destruct (Hc n) as [Hd Hfl].
  split; unfold array_decl; simpl; [done | by rewrite length_insert].
Qed.

Lemma write_data_wf (w w' : SnakeWorld) (n : Name) (e : Entity) (v : CompType n) :
  world_wf w → write_data n e v w = Some w' → world_wf w'.
Proof.
  intros Hwf Hw. unfold write_data in Hw.
  destruct (array_write _ e v) as [d|] eqn:Hd; simplify_eq/=.
  apply array_write_Some in Hd as [_ ->].
  apply set_component_wf; [done|].
  destruct Hwf as [_ Hc]. destruct (Hc n) as [Hdl Hfl].
  split; unfold array_decl; simpl; [by rewrite length_insert | done].
Qed.

(** What [MECS_SET_COMPONENT] and [MECS_CLEAR_COMPONENT] leave, in closed form. *)
Lemma set_component_inside (w : SnakeWorld) (n : Name) (e : Entity) (v : CompType n) :
  world_wf w → e < MAX_ENTITIES →
  MECS_SET_COMPONENT w n e v =
    Some (set_component n
            (mkComponent (<[N.to_nat e := v]> (data (component n w)))
                         (<[N.to_nat e := true]> (flag (component n w)))) w).
Proof.
  intros Hwf He. unfold MECS_SET_COMPONENT.
  rewrite write_data_inside by done. simpl.
  rewrite write_flag_inside; [|by eapply write_data_wf, write_data_inside|done].
  by rewrite component_set_component, set_component_twice.
Qed.

Lemma clear_component_inside (w : SnakeWorld) (n : Name) (e : Entity) :
  world_wf w → e < MAX_ENTITIES →
  MECS_CLEAR_COMPONENT w n e =
    Some (set_component n
            (mkComponent (data (component n w))
                         (<[N.to_nat e := false]> (flag (component n w)))) w).
Proof. apply write_flag_inside. Qed.

(** C6 (set, then read): for a slot [e < MAX_ENTITIES] of a well-formed
    world, [MECS_SET_COMPONENT] stores [v] at index [e] of the array of the
    component and [true] at index [e] of its flags, whatever was there;
    right after, [MECS_HAS_COMPONENT] is true and the array holds [v] at [e]. *)
Theorem set_then_get (w : SnakeWorld) (n : Name) (e : Entity) (v : CompType n) :
  world_wf w → e < MAX_ENTITIES →
  ∃ w', MECS_SET_COMPONENT w n e v = Some w'
        ∧ data (component n w') = <[N.to_nat e := v]> (data (component n w))
        ∧ flag (component n w') = <[N.to_nat e := true]> (flag (component n w))
        ∧ MECS_HAS_COMPONENT w' n e = Some true
        ∧ read_data w' n e = Some v.
Proof.
  intros Hwf He. destruct (slot_inside w n e Hwf He) as [Hd Hf].
  eexists. split; [by apply set_component_inside|].
  unfold MECS_HAS_COMPONENT, read_data.
  rewrite component_set_component. simpl.
  split_and!; [done | done | by apply array_read_insert | by apply array_read_insert].
Qed.

Lemma set_then_get_witness :
  ∃ w', MECS_SET_COMPONENT new_game position 3 (mkPosition 5 (-2)) = Some w'
        ∧ MECS_HAS_COMPONENT w' position 3 = Some true
        ∧ read_data w' position 3 = Some (mkPosition 5 (-2)).
Proof.
  destruct (set_then_get new_game position 3 (mkPosition 5 (-2)))
    as (w' & Hset & _ & _ & Hhas & Hread).
  - split; [repeat split; vm_compute; done | intros []; split; vm_compute; done].
  - reflexivity.
  - exists w'. split; [exact Hset|]. split; [exact Hhas | exact Hread].
Defined.

(** C7 (clear): for a slot [e < MAX_ENTITIES] of a well-formed world, after
    [MECS_CLEAR_COMPONENT] the flag of [e] is false; clearing a second time
    gives the world the first clearing gave; and clearing a component whose
    flag is already false gives back the world unchanged.  In each case the
    operation yields a world. *)
Theorem clear_idempotent (w : SnakeWorld) (n : Name) (e : Entity) :
  world_wf w → e < MAX_ENTITIES →
  ∃ w', MECS_CLEAR_COMPONENT w n e = Some w'
        ∧ MECS_HAS_COMPONENT w' n e = Some false
        ∧ MECS_CLEAR_COMPONENT w' n e = Some w'
        ∧ (MECS_HAS_COMPONENT w n e = Some false → w' = w).
Proof.
  intros Hwf He. destruct (slot_inside w n e Hwf He) as [Hd Hf].
  eexists. split; [by apply clear_component_inside|].
  assert (∀ w0, world_wf w0 → MECS_HAS_COMPONENT w0 n e = Some false →
                MECS_CLEAR_COMPONENT w0 n e = Some w0) as Hnoop.
  { intros w0 Hwf0 Habsent. rewrite clear_component_inside by done.
    unfold MECS_HAS_COMPONENT, array_read in Habsent.
    by rewrite list_insert_id, set_component_same. }
  assert (MECS_HAS_COMPONENT
            (set_component n
               (mkComponent (data (component n w))
                            (<[N.to_nat e := false]> (flag (component n w)))) w) n e
          = Some false) as Habsent.
  { unfold MECS_HAS_COMPONENT. rewrite component_set_component. simpl.
    by apply array_read_insert. }
  split_and!.
  - done.
  - apply Hnoop; [|done].
    eapply write_flag_wf; [done|]. by apply write_flag_inside.
  - intros Hw. specialize (Hnoop w Hwf Hw).
    rewrite clear_component_inside in Hnoop by done. by simplify_eq.
Qed.

Lemma clear_idempotent_witness :
  MECS_CLEAR_COMPONENT new_game edible 0 = Some new_game.
Proof.
  destruct (clear_idempotent new_game edible 0) as (w' & Hclear & _ & _ & Hsame).
  - split; [repeat split; vm_compute; done | intros []; split; vm_compute; done].
  - reflexivity.
  - rewrite Hclear. f_equal. apply Hsame. reflexivity.
Defined.

(** [world_wf] is kept by the mutations of the world. *)
Lemma set_component_macro_wf (w w' : SnakeWorld) (n : Name) (e : Entity) (v : CompType n) :
  world_wf w → MECS_SET_COMPONENT w n e v = Some w' → world_wf w'.
Proof.
  intros Hwf Hset. unfold MECS_SET_COMPONENT in Hset.
  destruct (write_data n e v w) as [w1|] eqn:Hw1; simplify_eq/=.
  eapply write_flag_wf; [|done]. by eapply write_data_wf.
Qed.

Lemma destroy_entity_wf (w w' : SnakeWorld) (e : Entity) :
  world_wf w → destroy_entity w e = Some w' → world_wf w'.
Proof.
  intros Hwf Hd. unfold destroy_entity, clear_components, MECS_CLEAR_COMPONENT in Hd.
  repeat match type of Hd with
  | context [write_flag ?n e false ?g] =>
      let H := fresh "Hstep" in
      destruct (write_flag n e false g) eqn:H; simpl in Hd; [|discriminate];
      apply write_flag_wf in H; [|done]
  end.
  destruct (mecs_entity_destroy _ e) as [m|] eqn:Hm; simplify_eq/=.
  match goal with H : world_wf ?g |- world_wf (set_em m ?g) => destruct H as [Hfl Hc] end.
  split.
  - simpl. unfold mecs_entity_destroy in Hm.
    destruct (free_count _ <? MAX_ENTITIES); [|by simplify_eq].
    destruct (array_write _ _ e) as [fl|] eqn:Hfl'; simplify_eq/=.
    apply array_write_Some in Hfl' as [_ ->].
    unfold array_decl in *. by rewrite length_insert.
  - intros n. rewrite component_set_em. apply Hc.
Qed.

(** ** [clear_components] and [destroy_entity] *)

(** [clear_components] on a slot inside the arrays: every flag array has
    [false] at [e], nothing else differs. *)
Lemma clear_components_inside (w : SnakeWorld) (e : Entity) :
  world_wf w → e < MAX_ENTITIES →
  ∃ g, clear_components w e = Some g
       ∧ world_wf g
       ∧ em g = em w
       ∧ score g = score w
       ∧ ∀ n, data (component n g) = data (component n w)
              ∧ flag (component n g) = <[N.to_nat e := false]> (flag (component n w)).
Proof.
  intros [Hm Hc] He.
  pose proof (Hc collidable) as [? ?]. pose proof (Hc consumer) as [? ?].
  pose proof (Hc direction) as [? ?]. pose proof (Hc drawable) as [? ?].
  pose proof (Hc edible) as [? ?]. pose proof (Hc follower) as [? ?].
  pose proof (Hc interactable) as [? ?]. pose proof (Hc position) as [? ?].
  destruct w as [m c1 c2 c3 c4 c5 c6 c7 c8 s]; unfold array_decl in *; simpl in *.
  unfold clear_components, MECS_CLEAR_COMPONENT, write_flag; simpl.
  repeat (rewrite array_write_inside by lia; simpl).
  eexists. split; [reflexivity|]. split_and!; try done.
  - split; [done|].
    intros []; split; unfold array_decl; simpl; rewrite ?length_insert; done.
  - by intros [].
Qed.

(** [destroy_entity] is total on a slot inside the arrays: it is
    [clear_components] followed by [mecs_entity_destroy]. *)
Lemma destroy_entity_inside (w : SnakeWorld) (e : Entity) :
  world_wf w → e < MAX_ENTITIES →
  ∃ g m, clear_components w e = Some g
         ∧ mecs_entity_destroy (em w) e = Some m
         ∧ destroy_entity w e = Some (set_em m g).
Proof.
  intros Hwf He.
  destruct (clear_components_inside w e Hwf He) as (g & Hg & _ & Hem & _).
  assert (is_Some (mecs_entity_destroy (em w) e)) as [m Hd].
  { destruct (decide (free_count (em w) < MAX_ENTITIES)).
    - rewrite destroy_push by (done || apply Hwf). by eexists.
    - rewrite destroy_full by lia. by eexists. }
  exists g, m. split; [done|]. split; [done|].
  unfold destroy_entity. rewrite Hg. simpl. rewrite Hem, Hd. done.
Qed.

(** C10 (each mutation touches its own slot only): for a slot
    [e < MAX_ENTITIES] of a well-formed world,
    - [MECS_SET_COMPONENT] yields a world in which the value and the flag of
      that component at every other index, every other component, the
      manager and the score are as before;
    - [MECS_CLEAR_COMPONENT] yields a world in which the values of that
      component, its flags at every other index, every other component, the
      manager and the score are as before;
    - [destroy_entity] yields a world in which the value and the flag of
      every component at every other index are as before. *)
Theorem mutation_frame (w : SnakeWorld) (n : Name) (e : Entity) (v : CompType n) :
  world_wf w → e < MAX_ENTITIES →
  (∃ w', MECS_SET_COMPONENT w n e v = Some w'
         ∧ (∀ e', e' ≠ e →
              read_data w' n e' = read_data w n e'
              ∧ MECS_HAS_COMPONENT w' n e' = MECS_HAS_COMPONENT w n e')
         ∧ (∀ m, m ≠ n → component m w' = component m w)
         ∧ em w' = em w ∧ score w' = score w)
  ∧ (∃ w', MECS_CLEAR_COMPONENT w n e = Some w'
           ∧ data (component n w') = data (component n w)
           ∧ (∀ e', e' ≠ e → MECS_HAS_COMPONENT w' n e' = MECS_HAS_COMPONENT w n e')
           ∧ (∀ m, m ≠ n → component m w' = component m w)
           ∧ em w' = em w ∧ score w' = score w)
  ∧ (∃ w', destroy_entity w e = Some w'
           ∧ ∀ m e', e' ≠ e →
               read_data w' m e' = read_data w m e'
               ∧ MECS_HAS_COMPONENT w' m e' = MECS_HAS_COMPONENT w m e').
Proof.
  intros Hwf He. split_and!.
  - eexists. split; [by apply set_component_inside|].
    rewrite em_set_component, score_set_component.
    split_and!; [| |done|done].
    + intros e' Hne. unfold read_data, MECS_HAS_COMPONENT.
      rewrite component_set_component. simpl.
      by rewrite !array_read_insert_ne.
    + intros m Hne. by apply component_set_component_ne.
  - eexists. split; [by apply clear_component_inside|].
    rewrite em_set_component, score_set_component, component_set_component.
    split_and!; [done| | |done|done].
    + intros e' Hne. unfold MECS_HAS_COMPONENT.
      rewrite component_set_component. simpl.
      by rewrite array_read_insert_ne.
    + intros m Hne. by apply component_set_component_ne.
  - destruct (destroy_entity_inside w e Hwf He) as (g & m0 & Hg & _ & Hd).
    destruct (clear_components_inside w e Hwf He) as (g' & Hg' & _ & _ & _ & Hcomp).
    rewrite Hg in Hg'. simplify_eq.
    eexists. split; [done|].
    intros m e' Hne. unfold read_data, MECS_HAS_COMPONENT.
    rewrite component_set_em. destruct (Hcomp m) as [-> ->].
    by rewrite array_read_insert_ne.
Qed.

Lemma mutation_frame_witness :
  ∃ w', MECS_SET_COMPONENT new_game follower 1 0 = Some w'
        ∧ MECS_HAS_COMPONENT w' follower 2 = Some false
        ∧ component position w' = component position new_game.
Proof.
  destruct (mutation_frame new_game follower 1 0)
    as ((w' & Hset & Hslots & Hothers & _) & _ & _).
  - split; [repeat split; vm_compute; done | intros []; split; vm_compute; done].
  - reflexivity.
  - exists w'. split; [exact Hset|]. split.
    + destruct (Hslots 2) as [_ ->]; [discriminate | reflexivity].
    + apply Hothers. discriminate.
Defined.

(** C2 (destroy_entity clears before it releases): for a slot
    [e < MAX_ENTITIES] of a well-formed world, [destroy_entity] yields a
    world [w'] in which [MECS_HAS_COMPONENT] is false at [e] for each of
    the eight components.  It gets there through the world [g] that
    [clear_components] yields, which already has all those flags false
    while its manager is still the one of [w]; the manager of [w'] is what
    [mecs_entity_destroy] makes of that one.  When the free list had room,
    the next creation returns [e], and [e] still has no component. *)
Theorem destroy_entity_clears (w : SnakeWorld) (e : Entity) :
  world_wf w → e < MAX_ENTITIES →
  ∃ g m w',
    clear_components w e = Some g
    ∧ em g = em w
    ∧ (∀ n, MECS_HAS_COMPONENT g n e = Some false)
    ∧ mecs_entity_destroy (em g) e = Some m
    ∧ w' = set_em m g
    ∧ destroy_entity w e = Some w'
    ∧ (∀ n, MECS_HAS_COMPONENT w' n e = Some false)
    ∧ (free_count (em w) < MAX_ENTITIES →
         ∃ m', mecs_entity_create (em w') = Some (e, m')
               ∧ ∀ n, MECS_HAS_COMPONENT (set_em m' w') n e = Some false).
Proof.
  intros Hwf He.
  destruct (destroy_entity_inside w e Hwf He) as (g & m & Hg & Hm & Hd).
  destruct (clear_components_inside w e Hwf He) as (g' & Hg' & _ & Hem & _ & Hcomp).
  rewrite Hg in Hg'. simplify_eq.
  assert (∀ n, MECS_HAS_COMPONENT g' n e = Some false) as Habsent.
  { intros n. unfold MECS_HAS_COMPONENT. destruct (Hcomp n) as [_ ->].
    apply array_read_insert. by apply slot_inside. }
  exists g', m, (set_em m g').
  rewrite Hem. split_and!; [done | done | exact Habsent | done | done | done | |].
  - intros n. unfold MECS_HAS_COMPONENT. rewrite component_set_em. apply Habsent.
  - intros Hroom. destruct Hwf as [Hmwf _].
    rewrite destroy_push in Hm by done. simplify_eq.
    destruct (destroy_then_create_aux (em w) e Hmwf Hroom) as (m1 & Hd1 & Hc1).
    rewrite destroy_push in Hd1 by done. simplify_eq.
    eexists. split; [exact Hc1|].
    intros n. unfold MECS_HAS_COMPONENT. rewrite !component_set_em. apply Habsent.
Qed.

(** In the opening world entity 1 is a segment of the snake; destroying it
    leaves none of its flags set. *)
Lemma destroy_entity_clears_witness :
  ∃ w, opening_game = Some w
       ∧ MECS_HAS_COMPONENT w position 1 = Some true
       ∧ ∃ w', destroy_entity w 1 = Some w'
               ∧ ∀ n, MECS_HAS_COMPONENT w' n 1 = Some false.
Proof.
  eexists. split; [vm_compute; reflexivity|].
  split; [vm_compute; reflexivity|].
  match goal with
  | |- ∃ w', destroy_entity ?w _ = _ ∧ _ =>
      assert (world_wf w) as Hwf
        by (split; [repeat split; vm_compute; done | intros []; split; vm_compute; done])
  end.
  destruct (destroy_entity_clears _ 1 Hwf) as (g & m & w' & _ & _ & _ & _ & _ & Hd & Hw' & _).
  - reflexivity.
  - exists w'. split; [exact Hd | exact Hw'].
Defined.

(** ** Queries *)

Section foreach.
Variable cond : Entity → option bool.
Variable p : Entity → bool.
Hypothesis cond_inside : ∀ e, e < MAX_ENTITIES → cond e = Some (p e).

(** From [e] on, with fuel for the slots left and the final test, the loop
    yields the slots that satisfy [p] among [e .. MAX_ENTITIES - 1]. *)
Lemma foreach_loop_from (fuel : nat) (e : Entity) :
  e ≤ MAX_ENTITIES →
  (N.to_nat (MAX_ENTITIES - e) < fuel)%nat →
  foreach_loop fuel cond e =
    Some (filter (λ i, p i) (N.of_nat <$> seq (N.to_nat e) (N.to_nat (MAX_ENTITIES - e)))).
Proof.
  revert e. induction fuel as [|fuel IH]; intros e He Hfuel; [lia|].
  ranges. simpl.
  destruct (e <? MAX_ENTITIES) eqn:Hlt.
  - apply N.ltb_lt in Hlt.
    rewrite cond_inside by done. simpl.
    rewrite uint_wrap_small by lia.
    rewrite IH by lia. simpl.
    replace (N.to_nat (MAX_ENTITIES - e))
      with (S (N.to_nat (MAX_ENTITIES - (e + 1)))) by lia.
    simpl. rewrite N2Nat.id.
    replace (N.to_nat (e + 1)) with (S (N.to_nat e)) by lia.
    rewrite filter_cons. by destruct (p e).
  - apply N.ltb_ge in Hlt.
    by replace (N.to_nat (MAX_ENTITIES - e)) with 0%nat by lia.
Qed.

Lemma foreach_loop_all :
  foreach_loop foreach_fuel cond 0 = Some (filter (λ i, p i) (ids_below MAX_ENTITIES)).
Proof.
  unfold foreach_fuel, ids_below.
  rewrite foreach_loop_from by lia.
  by rewrite N.sub_0_r.
Qed.
End foreach.

Lemma filter_ids_sorted (p : Entity → bool) (k s : nat) :
  StronglySorted N.lt (filter (λ i, p i) (N.of_nat <$> seq s k)).
Proof.
  revert s. induction k as [|k IH]; intros s; simpl; [constructor|].
  assert (Forall (N.lt (N.of_nat s)) (filter (λ i, p i) (N.of_nat <$> seq (S s) k))) as Hall.
  { apply Forall_forall. intros i Hi.
    apply list_elem_of_filter in Hi as [_ Hi].
    apply list_elem_of_fmap in Hi as (j & -> & Hj).
    apply elem_of_seq in Hj. lia. }
  rewrite filter_cons. case_decide; [by constructor | apply IH].
Qed.

Lemma has_component_inside (w : SnakeWorld) (n : Name) (e : Entity) :
  world_wf w → e < MAX_ENTITIES →
  MECS_HAS_COMPONENT w n e = Some (present w n e).
Proof.
  intros Hwf He. unfold present.
  destruct (array_read_inside (flag (component n w)) e) as [b Hb];
    [by apply slot_inside|].
  unfold MECS_HAS_COMPONENT. rewrite Hb.
  destruct b; [by rewrite bool_decide_eq_true_2 | by rewrite bool_decide_eq_false_2].
Qed.

Lemma present_true (w : SnakeWorld) (n : Name) (e : Entity) :
  present w n e = true ↔ MECS_HAS_COMPONENT w n e = Some true.
Proof. unfold present. apply bool_decide_eq_true. Qed.

(** The two queries as filters of the slots in ascending order. *)
Lemma foreach_2_filter (w : SnakeWorld) (a b : Name) :
  world_wf w →
  MECS_FOREACH_2 w a b =
    Some (filter (λ e, present w a e && present w b e) (ids_below MAX_ENTITIES)).
Proof.
  intros Hwf. unfold MECS_FOREACH_2.
  apply (foreach_loop_all _ (λ e, present w a e && present w b e)).
  intros e He. rewrite !has_component_inside by done.
  by destruct (present w a e).
Qed.

Lemma foreach_3_filter (w : SnakeWorld) (a b c : Name) :
  world_wf w →
  MECS_FOREACH_3 w a b c =
    Some (filter (λ e, present w a e && present w b e && present w c e)
            (ids_below MAX_ENTITIES)).
Proof.
  intros Hwf. unfold MECS_FOREACH_3.
  apply (foreach_loop_all _ (λ e, present w a e && present w b e && present w c e)).
  intros e He. rewrite !has_component_inside by done.
  by destruct (present w a e), (present w b e).
Qed.

(** C1 (queries): in a well-formed world, [MECS_FOREACH_2] over [a] and [b]
    runs its body at a strictly ascending sequence of identifiers, whose
    members are the slots [e < MAX_ENTITIES] with the flag of [a] and the
    flag of [b] both true; [MECS_FOREACH_3] does the same with three flags.
    The sequence is a function of the flag arrays named in the query: a
    world with the same arrays, whatever else differs, gives the same
    sequence. *)
Theorem query_exact (w : SnakeWorld) (a b c : Name) :
  world_wf w →
  (∃ l, MECS_FOREACH_2 w a b = Some l
        ∧ StronglySorted N.lt l
        ∧ ∀ e, e ∈ l ↔
               e < MAX_ENTITIES
               ∧ MECS_HAS_COMPONENT w a e = Some true
               ∧ MECS_HAS_COMPONENT w b e = Some true)
  ∧ (∃ l, MECS_FOREACH_3 w a b c = Some l
          ∧ StronglySorted N.lt l
          ∧ ∀ e, e ∈ l ↔
                 e < MAX_ENTITIES
                 ∧ MECS_HAS_COMPONENT w a e = Some true
                 ∧ MECS_HAS_COMPONENT w b e = Some true
                 ∧ MECS_HAS_COMPONENT w c e = Some true)
  ∧ (∀ w', flag (component a w') = flag (component a w) →
           flag (component b w') = flag (component b w) →
           MECS_FOREACH_2 w' a b = MECS_FOREACH_2 w a b)
  ∧ (∀ w', flag (component a w') = flag (component a w) →
           flag (component b w') = flag (component b w) →
           flag (component c w') = flag (component c w) →
           MECS_FOREACH_3 w' a b c = MECS_FOREACH_3 w a b c).
Proof.
  intros Hwf. split_and!.
  - eexists. split; [by apply foreach_2_filter|].
    split; [apply filter_ids_sorted|].
    intros e. rewrite list_elem_of_filter, elem_of_ids_below.
    rewrite andb_True, !Is_true_true, !present_true. tauto.
  - eexists. split; [by apply foreach_3_filter|].
    split; [apply filter_ids_sorted|].
    intros e. rewrite list_elem_of_filter, elem_of_ids_below.
    rewrite !andb_True, !Is_true_true, !present_true. tauto.
  - intros w' Ha Hb. unfold MECS_FOREACH_2, MECS_HAS_COMPONENT. by rewrite Ha, Hb.
  - intros w' Ha Hb Hc. unfold MECS_FOREACH_3, MECS_HAS_COMPONENT. by rewrite Ha, Hb, Hc.
Qed.

(** In the opening world the entities with a position and a leader to follow
    are the two segments, in ascending order. *)
Lemma query_exact_witness :
  ∃ w, opening_game = Some w
       ∧ world_wf w
       ∧ ∃ l, MECS_FOREACH_2 w position follower = Some l
              ∧ l = [1; 2]
              ∧ StronglySorted N.lt l.
Proof.
  eexists. split; [vm_compute; reflexivity|].
  match goal with
  | |- world_wf ?w ∧ _ =>
      assert (world_wf w) as Hwf
        by (split; [repeat split; vm_compute; done | intros []; split; vm_compute; done])
  end.
  split; [exact Hwf|].
  destruct (query_exact _ position follower drawable Hwf) as ((l & Hl & Hs & _) & _).
  exists l. split; [exact Hl|]. split; [|exact Hs].
  vm_compute in Hl. injection Hl as <-. reflexivity.
Defined.

(** * Beyond the allocator and the stores: the systems of the game *)

(** ** Loops that return early *)

Section foreach_any.
Variable cond : Entity → option bool.
Variable body : Entity → option bool.
Variable c t : Entity → bool.
Hypothesis cond_inside : ∀ e, e < MAX_ENTITIES → cond e = Some (c e).
Hypothesis body_inside : ∀ e, e < MAX_ENTITIES → c e = true → body e = Some (t e).

Lemma foreach_any_from (fuel : nat) (e : Entity) :
  e ≤ MAX_ENTITIES →
  (N.to_nat (MAX_ENTITIES - e) < fuel)%nat →
  foreach_any fuel cond body e =
    Some (existsb (λ i, c i && t i)
            (N.of_nat <$> seq (N.to_nat e) (N.to_nat (MAX_ENTITIES - e)))).
Proof.
  revert e. induction fuel as [|fuel IH]; intros e He Hfuel; [lia|].
  ranges. simpl.
  destruct (e <? MAX_ENTITIES) eqn:Hlt.
  - apply N.ltb_lt in Hlt.
    rewrite cond_inside by done. simpl.
    replace (N.to_nat (MAX_ENTITIES - e))
      with (S (N.to_nat (MAX_ENTITIES - (e + 1)))) by lia.
    simpl. rewrite N2Nat.id.
    destruct (c e) eqn:Hc; simpl.
    + rewrite body_inside by done. simpl.
      destruct (t e); [done|].
      rewrite uint_wrap_small by lia. rewrite IH by lia.
      by replace (N.to_nat (e + 1)) with (S (N.to_nat e)) by lia.
    + rewrite uint_wrap_small by lia. rewrite IH by lia.
      by replace (N.to_nat (e + 1)) with (S (N.to_nat e)) by lia.
  - apply N.ltb_ge in Hlt.
    by replace (N.to_nat (MAX_ENTITIES - e)) with 0%nat by lia.
Qed.

Lemma foreach_any_all :
  foreach_any foreach_fuel cond body 0 =
    Some (existsb (λ i, c i && t i) (ids_below MAX_ENTITIES)).
Proof.
  unfold foreach_fuel, ids_below.
  rewrite foreach_any_from by lia.
  by rewrite N.sub_0_r.
Qed.
End foreach_any.

Lemma existsb_ids_below (q : Entity → bool) (n : N) :
  existsb q (ids_below n) = true ↔ ∃ e, e < n ∧ q e = true.
Proof.
  rewrite existsb_exists. split.
  - intros (e & He & Hq). exists e. split; [|done].
    apply elem_of_ids_below. by apply list_elem_of_In.
  - intros (e & He & Hq). exists e. split; [|done].
    apply list_elem_of_In. by apply elem_of_ids_below.
Qed.

Lemma read_data_inside (w : SnakeWorld) (n : Name) (e : Entity) :
  world_wf w → e < MAX_ENTITIES → is_Some (read_data w n e).
Proof. intros Hwf He. apply array_read_inside. by apply slot_inside. Qed.

Lemma positions_equal_eq (a b : Position) : positions_equal a b = true ↔ a = b.
Proof.
  unfold positions_equal. rewrite andb_true_iff, !Z.eqb_eq.
  destruct a, b; simpl. split; [by intros [-> ->] | by intros [= -> ->]].
Qed.

Lemma read_position_at (w : SnakeWorld) (e : Entity) :
  world_wf w → e < MAX_ENTITIES →
  read_data w position e = Some (position_at w e).
Proof.
  intros Hwf He. unfold position_at.
  by destruct (read_data_inside w position e Hwf He) as [p ->].
Qed.

Lemma hit_wall_spec (p : Position) : hit_wall p = true ↔ ¬ on_board p.
Proof.
  unfold hit_wall, on_board.
  rewrite !orb_true_iff, !Z.ltb_lt, !Z.leb_le. lia.
Qed.

(** ** Queries over one component, [is_occupied] and [game_over] *)

(** X1 (MECS_FOREACH_1): in a well-formed world the one-component loop runs
    its body at a strictly ascending sequence of identifiers, whose members
    are the slots below [MAX_ENTITIES] with the flag of the component true. *)
Theorem foreach_1_exact (w : SnakeWorld) (a : Name) :
  world_wf w →
  ∃ l, MECS_FOREACH_1 w a = Some l
       ∧ StronglySorted N.lt l
       ∧ ∀ e, e ∈ l ↔ e < MAX_ENTITIES ∧ MECS_HAS_COMPONENT w a e = Some true.
Proof.
  intros Hwf. exists (filter (λ e, present w a e) (ids_below MAX_ENTITIES)).
  split_and!.
  - unfold MECS_FOREACH_1. apply (foreach_loop_all _ (λ e, present w a e)).
    intros e He. by apply has_component_inside.
  - apply filter_ids_sorted.
  - intros e. rewrite list_elem_of_filter, elem_of_ids_below.
    rewrite Is_true_true, present_true. tauto.
Qed.

(** X2 (is_occupied): in a well-formed world [is_occupied] answers, and it
    answers true exactly when some slot below [MAX_ENTITIES] has a position
    component whose value is [pos]. *)
Theorem is_occupied_spec (w : SnakeWorld) (pos : Position) :
  world_wf w →
  ∃ b, is_occupied w pos = Some b
       ∧ (b = true ↔
          ∃ e, e < MAX_ENTITIES
               ∧ MECS_HAS_COMPONENT w position e = Some true
               ∧ read_data w position e = Some pos).
Proof.
  intros Hwf. unfold is_occupied.
  rewrite (foreach_any_all _ _ (present w position)
             (λ e, positions_equal (position_at w e) pos)).
  - eexists. split; [done|].
    rewrite existsb_ids_below. split.
    + intros (e & He & Hq). apply andb_true_iff in Hq as [Hp Heq].
      exists e. split; [done|]. split; [by apply present_true|].
      rewrite read_position_at by done. f_equal. by apply positions_equal_eq.
    + intros (e & He & Hp & Hr). exists e. split; [done|].
      apply andb_true_iff. split; [by apply present_true|].
      rewrite read_position_at in Hr by done. simplify_eq.
      by apply positions_equal_eq.
  - intros e He. by apply has_component_inside.
  - intros e He _. by rewrite read_position_at.
Qed.

(** The inner loop of [game_over], for an interactable [i] at [ipos]. *)
Lemma game_over_inner (w : SnakeWorld) (i : Entity) (ipos : Position) :
  world_wf w →
  foreach_any foreach_fuel
    (λ c, and_then (MECS_HAS_COMPONENT w position c)
                   (MECS_HAS_COMPONENT w collidable c))
    (λ c, if i =? c then Some false
          else cpos ← read_data w position c; Some (positions_equal ipos cpos))
    0
  = Some (existsb
            (λ c, (present w position c && present w collidable c)
                  && (negb (i =? c) && positions_equal ipos (position_at w c)))
            (ids_below MAX_ENTITIES)).
Proof.
  intros Hwf. apply foreach_any_all.
  - intros c Hc. rewrite !has_component_inside by done.
    by destruct (present w position c).
  - intros c Hc _. destruct (i =? c); [done|].
    by rewrite read_position_at.
Qed.

(** X3 (game_over): in a well-formed world [game_over] answers, and it
    answers true exactly when some entity with a position and the
    interactable tag is off the board, or shares its position with another
    entity that has a position and the collidable tag. *)
Theorem game_over_spec (w : SnakeWorld) :
  world_wf w →
  ∃ b, game_over w = Some b
       ∧ (b = true ↔
          ∃ i, i < MAX_ENTITIES
               ∧ MECS_HAS_COMPONENT w position i = Some true
               ∧ MECS_HAS_COMPONENT w interactable i = Some true
               ∧ (¬ on_board (position_at w i)
                  ∨ ∃ c, c < MAX_ENTITIES ∧ c ≠ i
                         ∧ MECS_HAS_COMPONENT w position c = Some true
                         ∧ MECS_HAS_COMPONENT w collidable c = Some true
                         ∧ position_at w c = position_at w i)).
Proof.
  intros Hwf. unfold game_over.
  rewrite (foreach_any_all _ _
             (λ i, present w position i && present w interactable i)
             (λ i, hit_wall (position_at w i)
                   || existsb
                        (λ c, (present w position c && present w collidable c)
                              && (negb (i =? c)
                                  && positions_equal (position_at w i) (position_at w c)))
                        (ids_below MAX_ENTITIES))).
  - eexists. split; [done|].
    rewrite existsb_ids_below. split.
    + intros (i & Hi & Hq).
      apply andb_true_iff in Hq as [Hflags Hq].
      apply andb_true_iff in Hflags as [Hp Hi'].
      exists i. split_and!; [done | by apply present_true | by apply present_true |].
      apply orb_true_iff in Hq as [Hwall|Hhit].
      * left. by apply hit_wall_spec.
      * right. apply existsb_ids_below in Hhit as (c & Hc & Hq).
        apply andb_true_iff in Hq as [Hflags Hq].
        apply andb_true_iff in Hflags as [Hcp Hcc].
        apply andb_true_iff in Hq as [Hne Heq].
        apply negb_true_iff, N.eqb_neq in Hne.
        apply positions_equal_eq in Heq.
        exists c. split_and!; [done | done | by apply present_true
                               | by apply present_true | done].
    + intros (i & Hi & Hp & Hi' & Hcase). exists i. split; [done|].
      apply andb_true_iff. split.
      { apply andb_true_iff. split; by apply present_true. }
      apply orb_true_iff.
      destruct Hcase as [Hwall|(c & Hc & Hne & Hcp & Hcc & Heq)].
      * left. by apply hit_wall_spec.
      * right. apply existsb_ids_below. exists c. split; [done|].
        apply andb_true_iff. split.
        { apply andb_true_iff. split; by apply present_true. }
        apply andb_true_iff. split.
        { apply negb_true_iff, N.eqb_neq. done. }
        apply positions_equal_eq. done.
  - intros i Hi. rewrite !has_component_inside by done.
    by destruct (present w position i).
  - intros i Hi _. rewrite read_position_at by done. cbn [mbind option_bind].
    destruct (hit_wall (position_at w i)); [done|].
    by rewrite game_over_inner.
Qed.

(** ** Loops whose body changes the world *)

(** The loop rule: an invariant [I e s], of the slot about to be visited and
    the state, that every iteration carries from [e] to [e + 1], holds with
    [MAX_ENTITIES] when the loop ends; and the loop does end. *)
Lemma foreach_do_invariant {St : Type} (cond : St → Entity → option bool)
    (body : Entity → St → option St) (I : Entity → St → Prop) :
  (∀ e s, e < MAX_ENTITIES → I e s →
     ∃ b, cond s e = Some b
          ∧ if b : bool then ∃ s', body e s = Some s' ∧ I (e + 1) s'
            else I (e + 1) s) →
  ∀ s, I 0 s →
  ∃ s', foreach_do foreach_fuel cond body 0 s = Some s' ∧ I MAX_ENTITIES s'.
Proof.
  intros Hstep.
  assert (∀ fuel e s, e ≤ MAX_ENTITIES → (N.to_nat (MAX_ENTITIES - e) < fuel)%nat →
            I e s → ∃ s', foreach_do fuel cond body e s = Some s' ∧ I MAX_ENTITIES s')
    as Hloop.
  { induction fuel as [|fuel IH]; intros e s He Hfuel HI; [lia|].
    ranges. simpl. destruct (e <? MAX_ENTITIES) eqn:Hlt.
    - apply N.ltb_lt in Hlt.
      destruct (Hstep e s Hlt HI) as (b & -> & Hb). simpl.
      rewrite uint_wrap_small by lia.
      destruct b.
      + destruct Hb as (s' & -> & HI'). simpl. apply IH; [lia | lia | done].
      + simpl. apply IH; [lia | lia | done].
    - apply N.ltb_ge in Hlt. assert (e = MAX_ENTITIES) as -> by lia. eauto. }
  intros s HI. apply Hloop; [lia | unfold foreach_fuel; lia | done].
Qed.

(** ** [handle_input] *)

Lemma read_direction_at (w : SnakeWorld) (e : Entity) :
  world_wf w → e < MAX_ENTITIES →
  read_data w direction e = Some (direction_at w e).
Proof.
  intros Hwf He. unfold direction_at.
  by destruct (read_data_inside w direction e Hwf He) as [d ->].
Qed.

(** The world with [game->direction[e] = d] done. *)
Lemma write_direction_at (w : SnakeWorld) (e i : Entity) (d : Direction) :
  world_wf w → e < MAX_ENTITIES →
  ∃ w', write_data direction e d w = Some w'
        ∧ world_wf w'
        ∧ em w' = em w ∧ score w' = score w
        ∧ (∀ n, n ≠ direction → component n w' = component n w)
        ∧ flag (component direction w') = flag (component direction w)
        ∧ direction_at w' e = d
        ∧ (i ≠ e → direction_at w' i = direction_at w i).
Proof.
  intros Hwf He. destruct (slot_inside w direction e Hwf He) as [Hd _].
  eexists. split; [by apply (write_data_inside w direction e d)|].
  split_and!.
  - eapply write_data_wf; [done|]. by apply (write_data_inside w direction e d).
  - done.
  - done.
  - intros n Hn. by apply (component_set_component_ne direction).
  - done.
  - unfold direction_at, read_data. simpl. by rewrite array_read_insert.
  - intros Hi. unfold direction_at, read_data. simpl.
    by rewrite array_read_insert_ne.
Qed.

(** The four statements of the body, together: the direction of [e] becomes
    [d] unless it is the opposite of [d]. *)
Lemma steer_body (w : SnakeWorld) (d : Direction) (e : Entity) :
  world_wf w → e < MAX_ENTITIES →
  (g ← steer_if d UP DOWN e w;
   g ← steer_if d DOWN UP e g;
   g ← steer_if d RIGHT LEFT e g;
   steer_if d LEFT RIGHT e g)
  = if bool_decide (direction_at w e ≠ opposite d)
    then write_data direction e d w
    else Some w.
Proof.
  intros Hwf He.
  destruct (write_direction_at w e e d Hwf He) as (w' & Hw' & _).
  destruct d; unfold steer_if; simpl;
    rewrite read_direction_at by done; simpl;
    destruct (direction_at w e); simpl; try done; by rewrite Hw'.
Qed.

Lemma present_same_flags (w g : SnakeWorld) (n : Name) (e : Entity) :
  flag (component n g) = flag (component n w) → present g n e = present w n e.
Proof. intros Hf. unfold present, MECS_HAS_COMPONENT. by rewrite Hf. Qed.

(** What [handle_input] does, in full. *)
Lemma handle_input_steers (w : SnakeWorld) (key : Z) :
  world_wf w →
  ∃ w', handle_input key w = Some w'
        ∧ world_wf w'
        ∧ em w' = em w ∧ score w' = score w
        ∧ (∀ n, n ≠ direction → component n w' = component n w)
        ∧ flag (component direction w') = flag (component direction w)
        ∧ ∀ e, e < MAX_ENTITIES → direction_at w' e = steered w key e.
Proof.
  intros Hwf.
  assert (∀ d, key_direction key = Some d →
            ∃ w', foreach_do foreach_fuel
                    (λ g e, and_then (MECS_HAS_COMPONENT g interactable e)
                                     (MECS_HAS_COMPONENT g direction e))
                    (λ e g,
                       dir ← Some d;
                       g ← steer_if dir UP DOWN e g;
                       g ← steer_if dir DOWN UP e g;
                       g ← steer_if dir RIGHT LEFT e g;
                       steer_if dir LEFT RIGHT e g)
                    0 w = Some w'
                  ∧ world_wf w'
                  ∧ em w' = em w ∧ score w' = score w
                  ∧ (∀ n, n ≠ direction → component n w' = component n w)
                  ∧ flag (component direction w') = flag (component direction w)
                  ∧ ∀ e, e < MAX_ENTITIES → direction_at w' e = steered w key e)
    as Hloop.
  { intros d Hkey.
    pose (I := λ (e : Entity) (g : SnakeWorld),
            world_wf g
            ∧ em g = em w ∧ score g = score w
            ∧ (∀ n, n ≠ direction → component n g = component n w)
            ∧ flag (component direction g) = flag (component direction w)
            ∧ ∀ i, i < MAX_ENTITIES →
                   direction_at g i
                   = if i <? e then steered w key i else direction_at w i).
    destruct (foreach_do_invariant
                (λ g e, and_then (MECS_HAS_COMPONENT g interactable e)
                                 (MECS_HAS_COMPONENT g direction e))
                (λ e g,
                   dir ← Some d;
                   g ← steer_if dir UP DOWN e g;
                   g ← steer_if dir DOWN UP e g;
                   g ← steer_if dir RIGHT LEFT e g;
                   steer_if dir LEFT RIGHT e g) I) with (s := w)
      as (w' & Hw' & Hwf' & Hem & Hscore & Hothers & Hflags & Hdirs).
    - intros e g He (Hgwf & Hgem & Hgscore & Hgothers & Hgflags & Hgdirs).
      exists (present w interactable e && present w direction e).
      split.
      { rewrite !has_component_inside by done.
        rewrite (present_same_flags w g interactable)
          by (rewrite Hgothers; done).
        rewrite (present_same_flags w g direction) by done.
        by destruct (present w interactable e). }
      assert (direction_at g e = direction_at w e) as Hcur.
      { rewrite Hgdirs by done.
        by replace (e <? e) with false by (symmetry; apply N.ltb_ge; lia). }
      assert (∀ i, i < MAX_ENTITIES → i ≠ e →
                (if i <? e + 1 then steered w key i else direction_at w i)
                = direction_at g i) as Hrest.
      { intros i Hi Hne. rewrite Hgdirs by done.
        destruct (i <? e) eqn:Hlt.
        - apply N.ltb_lt in Hlt.
          by replace (i <? e + 1) with true by (symmetry; apply N.ltb_lt; lia).
        - apply N.ltb_ge in Hlt.
          by replace (i <? e + 1) with false by (symmetry; apply N.ltb_ge; lia). }
      assert ((e <? e + 1) = true) as Hvisited by (apply N.ltb_lt; lia).
      destruct (present w interactable e && present w direction e) eqn:Hb.
      + cbn [mbind option_bind]. rewrite steer_body by done.
        rewrite Hcur. case_bool_decide as Hturn.
        * destruct (write_direction_at g e e d Hgwf He)
            as (g' & Hg' & Hgwf' & Hgem' & Hgscore' & Hgothers' & Hgflags' & Hd' & _).
          exists g'. split; [done|]. unfold I. split_and!; try congruence.
          -- intros n Hn. rewrite Hgothers' by done. by apply Hgothers.
          -- intros i Hi. destruct (decide (i = e)) as [->|Hne].
             ++ rewrite Hvisited, Hd'. unfold steered. rewrite Hkey, Hb. simpl.
                by rewrite bool_decide_eq_true_2.
             ++ rewrite Hrest by done.
                destruct (write_direction_at g e i d Hgwf He)
                  as (g'' & Hg'' & _ & _ & _ & _ & _ & _ & Hi').
                rewrite Hg' in Hg''. simplify_eq. by apply Hi'.
        * exists g. split; [done|]. unfold I. split_and!; try done.
          intros i Hi. destruct (decide (i = e)) as [->|Hne].
          -- rewrite Hvisited, Hcur. unfold steered. rewrite Hkey, Hb. simpl.
             by rewrite bool_decide_eq_false_2 by (intros Hn; by apply Hn).
          -- by rewrite Hrest.
      + unfold I. split_and!; try done.
        intros i Hi. destruct (decide (i = e)) as [->|Hne].
        * rewrite Hvisited, Hcur. unfold steered. by rewrite Hkey, Hb.
        * by rewrite Hrest.
    - unfold I. split_and!; try done.
      intros i Hi. by replace (i <? 0) with false by (symmetry; apply N.ltb_ge; lia).
    - exists w'. split; [done|]. split_and!; try done.
      intros e He. rewrite Hdirs by done.
      by replace (e <? MAX_ENTITIES) with true by (symmetry; apply N.ltb_lt; done). }
  unfold handle_input.
  destruct (key =? 100)%Z eqn:Hd.
  { apply (Hloop RIGHT). unfold key_direction. by rewrite Hd. }
  destruct (key =? 97)%Z eqn:Ha.
  { apply (Hloop LEFT). unfold key_direction. by rewrite Hd, Ha. }
  destruct (key =? 115)%Z eqn:Hs.
  { destruct (key =? 119)%Z; apply (Hloop DOWN); unfold key_direction;
      by rewrite Hd, Ha, Hs. }
  destruct (key =? 119)%Z eqn:Hw.
  { apply (Hloop UP). unfold key_direction. by rewrite Hd, Ha, Hs, Hw. }
  simpl. exists w. split; [done|]. split_and!; try done.
  intros e He. unfold steered, key_direction. by rewrite Hd, Ha, Hs, Hw.
Qed.

Lemma opposite_involutive (d : Direction) : opposite (opposite d) = d.
Proof. by destruct d. Qed.

Lemma opposite_neq (d : Direction) : d ≠ opposite d.
Proof. by destruct d. Qed.

(** Closes [world_wf] of a world given in full, by evaluation. *)
Ltac eval_world_wf :=
  split; [vm_compute; done | intros []; split; vm_compute; done].

(** X4 (handle_input steers): in a well-formed world and for every key,
    [handle_input] yields a world that differs from the one it was given in
    the directions only: manager, score, every other component and the
    direction flags are as before.  The direction of a slot becomes the one
    the key asks for when the slot is interactable, has a direction, and
    that direction is not the opposite one; it stays as it was otherwise,
    and for every key other than w, s, a, d. *)
Theorem handle_input_spec (w : SnakeWorld) (key : Z) :
  world_wf w →
  ∃ w', handle_input key w = Some w'
        ∧ em w' = em w ∧ score w' = score w
        ∧ (∀ n, n ≠ direction → component n w' = component n w)
        ∧ flag (component direction w') = flag (component direction w)
        ∧ ∀ e, e < MAX_ENTITIES → direction_at w' e = steered w key e.
Proof.
  intros Hwf.
  destruct (handle_input_steers w key Hwf) as (w' & Hw' & _ & Hrest).
  by exists w'.
Qed.

(** In the opening world the head (entity 0) heads right; the key w turns
    it up. *)
Lemma handle_input_spec_witness :
  ∃ w w', opening_game = Some w
          ∧ handle_input 119 w = Some w'
          ∧ direction_at w 0 = RIGHT
          ∧ direction_at w' 0 = UP.
Proof.
  eexists. 
  match goal with
  | |- ∃ w', opening_game = Some ?w0 ∧ _ =>
      set (w := w0);
      assert (opening_game = Some w) as Hw by (vm_compute; reflexivity);
      assert (world_wf w) as Hwf by eval_world_wf
  end.
  destruct (handle_input_spec _ 119 Hwf) as (w' & Hw' & _ & _ & _ & _ & Hdir).
  exists w'. split; [exact Hw|]. split; [exact Hw'|].
  split; [vm_compute; reflexivity|].
  rewrite (Hdir 0) by reflexivity. vm_compute. reflexivity.
Defined.

(** X5 (handle_input never reverses): in a well-formed world, whatever the
    key, no slot ends up heading opposite to the way it headed before. *)
Theorem handle_input_never_reverses (w : SnakeWorld) (key : Z) :
  world_wf w →
  ∃ w', handle_input key w = Some w'
        ∧ ∀ e, e < MAX_ENTITIES →
               direction_at w' e ≠ opposite (direction_at w e).
Proof.
  intros Hwf.
  destruct (handle_input_steers w key Hwf) as (w' & Hw' & _ & _ & _ & _ & _ & Hdir).
  exists w'. split; [done|].
  intros e He. rewrite Hdir by done. unfold steered.
  destruct (key_direction key) as [d|]; [|apply opposite_neq].
  destruct (present w interactable e && present w direction e); simpl;
    [|apply opposite_neq].
  case_bool_decide as Hturn; [|apply opposite_neq].
  intros Heq. apply Hturn. by rewrite Heq, opposite_involutive.
Qed.

(** In the opening world the head heads right; the key a (left) does not
    turn it. *)
Lemma handle_input_never_reverses_witness :
  ∃ w w', opening_game = Some w
          ∧ handle_input 97 w = Some w'
          ∧ direction_at w 0 = RIGHT
          ∧ direction_at w' 0 ≠ LEFT.
Proof.
  eexists.
  match goal with
  | |- ∃ w', opening_game = Some ?w0 ∧ _ =>
      set (w := w0);
      assert (opening_game = Some w) as Hw by (vm_compute; reflexivity);
      assert (world_wf w) as Hwf by eval_world_wf
  end.
  destruct (handle_input_never_reverses _ 97 Hwf) as (w' & Hw' & Hdir).
  exists w'. split; [exact Hw|]. split; [exact Hw'|].
  split; [vm_compute; reflexivity|].
  exact (Hdir 0 eq_refl).
Defined.

Lemma foreach_1_exact_witness :
  ∃ w l, opening_game = Some w
         ∧ MECS_FOREACH_1 w follower = Some l
         ∧ l = [1; 2].
Proof.
  eexists.
  match goal with
  | |- ∃ l, opening_game = Some ?w0 ∧ _ =>
      set (w := w0);
      assert (opening_game = Some w) as Hw by (vm_compute; reflexivity);
      assert (world_wf w) as Hwf by eval_world_wf
  end.
  destruct (foreach_1_exact _ follower Hwf) as (l & Hl & _).
  exists l. split; [exact Hw|]. split; [exact Hl|].
  vm_compute in Hl. injection Hl as <-. reflexivity.
Defined.

(** In the opening world the cell (4, 5) holds a segment of the snake. *)
Lemma is_occupied_spec_witness :
  ∃ w, opening_game = Some w ∧ is_occupied w (mkPosition 4 5) = Some true.
Proof.
  eexists.
  match goal with
  | |- opening_game = Some ?w0 ∧ _ =>
      set (w := w0);
      assert (opening_game = Some w) as Hw by (vm_compute; reflexivity);
      assert (world_wf w) as Hwf by eval_world_wf
  end.
  split; [exact Hw|].
  destruct (is_occupied_spec _ (mkPosition 4 5) Hwf) as (b & Hb & Hiff).
  rewrite Hb. f_equal. apply Hiff.
  exists 1. split; [reflexivity|]. split; vm_compute; reflexivity.
Defined.

(** The opening world is not a lost game. *)
Lemma game_over_spec_witness :
  ∃ w, opening_game = Some w ∧ game_over w = Some false.
Proof.
  eexists.
  match goal with
  | |- opening_game = Some ?w0 ∧ _ =>
      set (w := w0);
      assert (opening_game = Some w) as Hw by (vm_compute; reflexivity);
      assert (world_wf w) as Hwf by eval_world_wf
  end.
  split; [exact Hw|].
  destruct (game_over_spec _ Hwf) as (b & Hb & _).
  rewrite Hb. vm_compute in Hb. injection Hb as <-. reflexivity.
Defined.

(** ** More on the allocator *)

Lemma create_defined (m : EntityManager) :
  manager_wf m → ∃ e m', mecs_entity_create m = Some (e, m') ∧ manager_wf m'.
Proof.
  intros Hwf. pose proof Hwf as (Hlen & Hnext & Hfc).
  assert (is_Some (mecs_entity_create m)) as [[e m'] Hc].
  { destruct (decide (free_count m = 0)) as [Hz|Hnz].
    - rewrite create_fresh by done. by eexists.
    - destruct (create_reuse m Hlen) as (e & _ & ->); [lia | done |]. by eexists. }
  exists e, m'. split; [done|]. by eapply create_wf.
Qed.

Lemma destroy_defined (m : EntityManager) (e : Entity) :
  manager_wf m → ∃ m', mecs_entity_destroy m e = Some m' ∧ manager_wf m'.
Proof.
  intros Hwf. pose proof Hwf as (Hlen & _ & _).
  assert (is_Some (mecs_entity_destroy m e)) as [m' Hd].
  { destruct (decide (free_count m < MAX_ENTITIES)).
    - rewrite destroy_push by done. by eexists.
    - rewrite destroy_full by lia. by eexists. }
  exists m'. split; [done|]. by eapply destroy_wf.
Qed.

(** X6 (the allocator stays inside its array, whatever the caller does):
    from a manager with [free_count <= MAX_ENTITIES], every sequence of
    creations and destructions, with no condition on the identifiers
    destroyed nor on the number of creations, runs without an access
    outside [free_list] and leaves [free_count <= MAX_ENTITIES]. *)
Theorem manager_calls_safe (cs : list Call) (m : EntityManager) :
  manager_wf m →
  ∃ m', manager_calls cs m = Some m' ∧ manager_wf m'.
Proof.
  revert m. induction cs as [|c cs IH]; intros m Hwf; simpl.
  - by exists m.
  - destruct c as [|e]; simpl.
    + destruct (create_defined m Hwf) as (e & m1 & -> & Hwf1). simpl. by apply IH.
    + destruct (destroy_defined m e Hwf) as (m1 & -> & Hwf1). simpl. by apply IH.
Qed.

(** A double destruction and an unmatched one, then three creations. *)
Lemma manager_calls_safe_witness :
  is_Some (manager_calls [Create; Destroy 0; Destroy 0; Destroy 9; Create; Create; Create]
             zero_manager).
Proof.
  destruct (manager_calls_safe
              [Create; Destroy 0; Destroy 0; Destroy 9; Create; Create; Create]
              zero_manager) as (m' & Hm' & _).
  - repeat split; vm_compute; done.
  - rewrite Hm'. by eexists.
Defined.

(** X7 (a double destruction hands the identifier out twice):
    [mecs_entity_destroy] keeps no record of which identifiers are live, so
    with room for two entries, destroying [e] twice makes the next two
    creations both return [e]. *)
Theorem double_destroy_aliases (m : EntityManager) (e : Entity) :
  array_decl (free_list m) → free_count m + 1 < MAX_ENTITIES →
  ∃ m1 m2 m3 m4,
    mecs_entity_destroy m e = Some m1
    ∧ mecs_entity_destroy m1 e = Some m2
    ∧ mecs_entity_create m2 = Some (e, m3)
    ∧ mecs_entity_create m3 = Some (e, m4).
Proof.
  intros Hlen Hfc. unfold array_decl in Hlen.
  eexists _, _, _, _. split; [apply destroy_push; [done | lia]|].
  split.
  { apply destroy_push; [|simpl; lia].
    unfold array_decl. simpl. by rewrite length_insert. }
  simpl.
  match goal with |- mecs_entity_create ?m2 = _ ∧ _ => set (m2' := m2) end.
  destruct (create_reuse m2') as (e2 & Hread2 & Hc2).
  { unfold array_decl. simpl. by rewrite !length_insert. }
  { simpl. lia. }
  { simpl. lia. }
  simpl in Hread2, Hc2.
  replace (free_count m + 1 + 1 - 1) with (free_count m + 1) in * by lia.
  rewrite array_read_insert in Hread2 by (rewrite length_insert; lia).
  simplify_eq. split; [exact Hc2|].
  match goal with |- mecs_entity_create ?m3 = _ => set (m3' := m3) end.
  destruct (create_reuse m3') as (e3 & Hread3 & Hc3).
  { unfold array_decl. simpl. by rewrite !length_insert. }
  { simpl. lia. }
  { simpl. lia. }
  simpl in Hread3, Hc3.
  replace (free_count m + 1 - 1) with (free_count m) in * by lia.
  rewrite array_read_insert_ne in Hread3 by lia.
  rewrite array_read_insert in Hread3 by lia.
  simplify_eq. exact Hc3.
Qed.

Lemma double_destroy_aliases_witness :
  ∃ m1 m2 m3 m4,
    mecs_entity_destroy zero_manager 5 = Some m1
    ∧ mecs_entity_destroy m1 5 = Some m2
    ∧ mecs_entity_create m2 = Some (5, m3)
    ∧ mecs_entity_create m3 = Some (5, m4).
Proof.
  apply (double_destroy_aliases zero_manager 5).
  - vm_compute. reflexivity.
  - reflexivity.
Defined.

(** Builds the run create, create, destroy 0, create from [start]. *)
Ltac reach_sample_run :=
  eapply (reachable_call _ Create);
    [ eapply (reachable_call _ (Destroy 0));
      [ eapply (reachable_call _ Create);
        [ eapply (reachable_call _ Create);
          [ apply reachable_start
          | apply Nat.ltb_lt; vm_compute; reflexivity
          | vm_compute; reflexivity ]
        | apply Nat.ltb_lt; vm_compute; reflexivity
        | vm_compute; reflexivity ]
      | simpl; apply elem_of_cons; right; apply elem_of_cons; left; reflexivity
      | vm_compute; reflexivity ]
    | apply Nat.ltb_lt; vm_compute; reflexivity
    | vm_compute; reflexivity ].

(** X8 (live identifiers index the arrays): in every run in which each
    destruction names a live identifier and each creation happens with
    fewer than [MAX_ENTITIES] entities live, every live identifier is below
    [MAX_ENTITIES], [next_entity] never passes [MAX_ENTITIES], and no
    destruction finds the free list full. *)
Theorem live_identifiers_in_range (r : Run) :
  reachable r →
  (∀ e, e ∈ live r → e < MAX_ENTITIES)
  ∧ next_entity (mgr r) ≤ MAX_ENTITIES
  ∧ (live r ≠ [] → free_count (mgr r) < MAX_ENTITIES).
Proof.
  intros Hr. apply reachable_inv in Hr.
  pose proof (run_inv_count r Hr) as Hcount.
  destruct Hr as (_ & _ & Hnext & Hperm). split_and!.
  - intros e He.
    assert (e ∈ ids_below (next_entity (mgr r))) as Hin.
    { rewrite <- Hperm. apply elem_of_app. by right. }
    apply elem_of_ids_below in Hin. lia.
  - done.
  - intros Hlive. destruct (live r); [done|]. simpl in Hcount. lia.
Qed.

Lemma live_identifiers_in_range_witness :
  ∃ r, reachable r ∧ live r = [0; 1] ∧ ∀ e, e ∈ live r → e < MAX_ENTITIES.
Proof.
  assert (∃ r, reachable r ∧ live r = [0; 1]) as (r & Hr & Hlive).
  { eexists. split; [reach_sample_run | reflexivity]. }
  exists r. split; [exact Hr|]. split; [exact Hlive|].
  exact (proj1 (live_identifiers_in_range r Hr)).
Defined.

(** X9 (what the free list holds): in such a run the entries
    [free_list[0 .. free_count-1]] are pairwise distinct, each is below
    [next_entity] and none is live; and every identifier below
    [next_entity] is either live or one of them, so that [next_entity] is
    the number of live entities plus [free_count]. *)
Theorem free_list_invariant (r : Run) :
  reachable r →
  NoDup (free_ids (mgr r))
  ∧ (∀ e, e ∈ free_ids (mgr r) → e < next_entity (mgr r) ∧ e ∉ live r)
  ∧ (∀ e, e < next_entity (mgr r) → e ∈ free_ids (mgr r) ∨ e ∈ live r)
  ∧ (N.to_nat (free_count (mgr r)) + length (live r))%nat
    = N.to_nat (next_entity (mgr r)).
Proof.
  intros Hr. apply reachable_inv in Hr.
  pose proof (run_inv_count r Hr) as Hcount.
  destruct Hr as (_ & _ & _ & Hperm). unfold free_ids.
  pose proof (NoDup_ids_below (next_entity (mgr r))) as Hnd.
  rewrite <- Hperm in Hnd. apply NoDup_app in Hnd as (Hfree & Hdisj & _).
  split_and!; [done | | | done].
  - intros e He. split; [|by apply Hdisj].
    apply elem_of_ids_below. rewrite <- Hperm. apply elem_of_app. by left.
  - intros e He. apply elem_of_ids_below in He.
    rewrite <- Hperm in He. by apply elem_of_app in He.
Qed.

Lemma free_list_invariant_witness :
  ∃ r, reachable r ∧ live r = [0; 1] ∧ NoDup (free_ids (mgr r)).
Proof.
  assert (∃ r, reachable r ∧ live r = [0; 1]) as (r & Hr & Hlive).
  { eexists. split; [reach_sample_run | reflexivity]. }
  exists r. split; [exact Hr|]. split; [exact Hlive|].
  exact (proj1 (free_list_invariant r Hr)).
Defined.

(** ** The entities of the game: head, segment, apple *)

Lemma create_free_list (m m' : EntityManager) (e : Entity) :
  mecs_entity_create m = Some (e, m') → free_list m' = free_list m.
Proof.
  unfold mecs_entity_create. destruct (0 <? free_count m).
  - destruct (array_read _ _); simpl; [|done]. by intros [= <- <-].
  - by intros [= <- <-].
Qed.

(** Unfolds a chain of [MECS_SET_COMPONENT] on slots inside the arrays. *)
Ltac run_sets :=
  unfold MECS_SET_COMPONENT, write_data, write_flag; simpl;
  repeat (rewrite array_write_inside by (rewrite ?length_insert; lia); simpl).

Ltac world_lengths Hc :=
  pose proof (Hc collidable) as [? ?]; pose proof (Hc consumer) as [? ?];
  pose proof (Hc direction) as [? ?]; pose proof (Hc drawable) as [? ?];
  pose proof (Hc edible) as [? ?]; pose proof (Hc follower) as [? ?];
  pose proof (Hc interactable) as [? ?]; pose proof (Hc position) as [? ?].

Lemma create_snake_segment_inside (w : SnakeWorld) (pos : Position)
    (follows e : Entity) (m : EntityManager) :
  world_wf w → mecs_entity_create (em w) = Some (e, m) → e < MAX_ENTITIES →
  ∃ g, create_snake_segment w pos follows = Some (e, g)
       ∧ world_wf g
       ∧ em g = m ∧ score g = score w
       ∧ component position g =
           mkComponent (<[N.to_nat e := pos]> (data (component position w)))
                       (<[N.to_nat e := true]> (flag (component position w)))
       ∧ component follower g =
           mkComponent (<[N.to_nat e := follows]> (data (component follower w)))
                       (<[N.to_nat e := true]> (flag (component follower w)))
       ∧ component drawable g =
           mkComponent (<[N.to_nat e := mkDrawable 111]> (data (component drawable w)))
                       (<[N.to_nat e := true]> (flag (component drawable w)))
       ∧ component collidable g =
           mkComponent (<[N.to_nat e := mkCollidable]> (data (component collidable w)))
                       (<[N.to_nat e := true]> (flag (component collidable w)))
       ∧ component consumer g = component consumer w
       ∧ component direction g = component direction w
       ∧ component edible g = component edible w
       ∧ component interactable g = component interactable w.
Proof.
  intros [Hm Hc] Hcreate He. world_lengths Hc.
  pose proof (create_free_list _ _ _ Hcreate) as Hfl.
  unfold create_snake_segment. rewrite Hcreate.
  destruct w as [m0 c1 c2 c3 c4 c5 c6 c7 c8 s]; unfold array_decl in *; simpl in *.
  run_sets.
  eexists. split; [reflexivity|]. split_and!; try done.
  split; [by rewrite <- Hfl in Hm|].
  intros []; split; unfold array_decl; simpl; rewrite ?length_insert; done.
Qed.

Lemma create_snake_head_inside (w : SnakeWorld) (pos : Position) (dir : Direction)
    (e : Entity) (m : EntityManager) :
  world_wf w → mecs_entity_create (em w) = Some (e, m) → e < MAX_ENTITIES →
  ∃ g, create_snake_head w pos dir = Some (e, g)
       ∧ world_wf g
       ∧ em g = m ∧ score g = score w
       ∧ component interactable g =
           mkComponent (<[N.to_nat e := mkInteractable]> (data (component interactable w)))
                       (<[N.to_nat e := true]> (flag (component interactable w)))
       ∧ component direction g =
           mkComponent (<[N.to_nat e := dir]> (data (component direction w)))
                       (<[N.to_nat e := true]> (flag (component direction w)))
       ∧ component consumer g =
           mkComponent (<[N.to_nat e := mkConsumer]> (data (component consumer w)))
                       (<[N.to_nat e := true]> (flag (component consumer w)))
       ∧ component drawable g =
           mkComponent (<[N.to_nat e := mkDrawable 79]> (data (component drawable w)))
                       (<[N.to_nat e := true]> (flag (component drawable w)))
       ∧ component position g =
           mkComponent (<[N.to_nat e := pos]> (data (component position w)))
                       (<[N.to_nat e := true]> (flag (component position w)))
       ∧ component collidable g =
           mkComponent (<[N.to_nat e := mkCollidable]> (data (component collidable w)))
                       (<[N.to_nat e := true]> (flag (component collidable w)))
       ∧ component edible g = component edible w
       ∧ component follower g = component follower w.
Proof.
  intros [Hm Hc] Hcreate He. world_lengths Hc.
  pose proof (create_free_list _ _ _ Hcreate) as Hfl.
  unfold create_snake_head. rewrite Hcreate.
  destruct w as [m0 c1 c2 c3 c4 c5 c6 c7 c8 s]; unfold array_decl in *; simpl in *.
  run_sets.
  eexists. split; [reflexivity|]. split_and!; try done.
  split; [by rewrite <- Hfl in Hm|].
  intros []; split; unfold array_decl; simpl; rewrite ?length_insert; done.
Qed.

Lemma init_apple_inside (w : SnakeWorld) (e : Entity) (m : EntityManager) :
  world_wf w → mecs_entity_create (em w) = Some (e, m) → e < MAX_ENTITIES →
  ∃ g, init_apple w = Some (e, g)
       ∧ world_wf g
       ∧ em g = m ∧ score g = score w
       ∧ component drawable g =
           mkComponent (<[N.to_nat e := mkDrawable 64]> (data (component drawable w)))
                       (<[N.to_nat e := true]> (flag (component drawable w)))
       ∧ component edible g =
           mkComponent (<[N.to_nat e := mkEdible 1 true true]> (data (component edible w)))
                       (<[N.to_nat e := true]> (flag (component edible w)))
       ∧ component position g =
           mkComponent (<[N.to_nat e := mkPosition 0 0]> (data (component position w)))
                       (<[N.to_nat e := true]> (flag (component position w)))
       ∧ component collidable g = component collidable w
       ∧ component consumer g = component consumer w
       ∧ component direction g = component direction w
       ∧ component follower g = component follower w
       ∧ component interactable g = component interactable w.
Proof.
  intros [Hm Hc] Hcreate He. world_lengths Hc.
  pose proof (create_free_list _ _ _ Hcreate) as Hfl.
  unfold init_apple. rewrite Hcreate.
  destruct w as [m0 c1 c2 c3 c4 c5 c6 c7 c8 s]; unfold array_decl in *; simpl in *.
  run_sets.
  eexists. split; [reflexivity|]. split_and!; try done.
  split; [by rewrite <- Hfl in Hm|].
  intros []; split; unfold array_decl; simpl; rewrite ?length_insert; done.
Qed.

(** X10 (no room left): when the free list is empty and [next_entity] has
    reached [MAX_ENTITIES], the identifier [mecs_entity_create] returns lies
    outside every component array, and the first [MECS_SET_COMPONENT] of
    [create_snake_head], [create_snake_segment] and [init_apple] writes
    outside its array: none of the three yields a world. *)
Theorem constructors_without_room (w : SnakeWorld) (pos : Position)
    (dir : Direction) (follows : Entity) :
  world_wf w → free_count (em w) = 0 → MAX_ENTITIES ≤ next_entity (em w) →
  create_snake_head w pos dir = None
  ∧ create_snake_segment w pos follows = None
  ∧ init_apple w = None.
Proof.
  intros [_ Hc] Hfc Hnext. world_lengths Hc.
  unfold create_snake_head, create_snake_segment, init_apple.
  rewrite create_fresh by done.
  destruct w as [m0 c1 c2 c3 c4 c5 c6 c7 c8 s]; unfold array_decl in *; simpl in *.
  unfold MECS_SET_COMPONENT, write_data; simpl.
  rewrite !array_write_outside by lia. done.
Qed.

Lemma constructors_without_room_witness :
  init_apple crowded_game = None.
Proof.
  destruct (constructors_without_room crowded_game (mkPosition 0 0) UP 0)
    as (_ & _ & Happle).
  - eval_world_wf.
  - reflexivity.
  - vm_compute. discriminate.
  - exact Happle.
Defined.

(** X11 (a reused identifier starts clean): in a well-formed world with
    room in the free list, [destroy_entity] of a slot [e < MAX_ENTITIES]
    followed by [create_snake_segment] gives the new segment the
    identifier [e], and [e] then has the four components of a segment and
    no other, whatever it had before; position and leader are the ones
    asked for. *)
Theorem reuse_is_clean (w : SnakeWorld) (e : Entity) (pos : Position) (follows : Entity) :
  world_wf w → e < MAX_ENTITIES → free_count (em w) < MAX_ENTITIES →
  ∃ w1 g, destroy_entity w e = Some w1
          ∧ create_snake_segment w1 pos follows = Some (e, g)
          ∧ (∀ n, MECS_HAS_COMPONENT g n e
                  = Some (bool_decide (n ∈ segment_components)))
          ∧ read_data g position e = Some pos
          ∧ read_data g follower e = Some follows.
Proof.
  intros Hwf He Hroom.
  destruct (destroy_entity_inside w e Hwf He) as (g0 & m & Hg0 & Hm & Hd).
  destruct (clear_components_inside w e Hwf He)
    as (g0' & Hg0' & Hwf0 & Hem0 & _ & Hcomp).
  rewrite Hg0 in Hg0'. simplify_eq.
  destruct (destroy_then_create_aux (em w) e (proj1 Hwf) Hroom) as (m1 & Hd1 & Hc1).
  rewrite Hm in Hd1. simplify_eq.
  assert (world_wf (set_em m1 g0')) as Hwf1 by exact (destroy_entity_wf w _ e Hwf Hd).
  destruct (create_snake_segment_inside (set_em m1 g0') pos follows e _ Hwf1 Hc1 He)
    as (g & Hg & _ & _ & _ & Hpos & Hfol & Hdraw & Hcol & Hcons & Hdir & Hed & Hint).
  exists (set_em m1 g0'), g. split; [done|]. split; [done|].
  assert (∀ n, (N.to_nat e < length (flag (component n g0')))%nat) as Hin.
  { intros n. by apply slot_inside. }
  split_and!.
  - intros n. unfold MECS_HAS_COMPONENT.
    set (b := bool_decide (n ∈ segment_components)).
    destruct n; vm_compute in b; subst b;
      first [ rewrite Hpos | rewrite Hfol | rewrite Hdraw | rewrite Hcol
            | rewrite Hcons | rewrite Hdir | rewrite Hed | rewrite Hint ];
      cbn [flag]; rewrite ?component_set_em;
      first [ by apply array_read_insert
            | match goal with
              | |- array_read (flag (component ?n _)) _ = _ =>
                  destruct (Hcomp n) as [_ ->]; apply array_read_insert;
                  by apply slot_inside
              end ].
  - unfold read_data. rewrite Hpos. cbn [data]. apply array_read_insert.
    rewrite component_set_em. by apply slot_inside.
  - unfold read_data. rewrite Hfol. cbn [data]. apply array_read_insert.
    rewrite component_set_em. by apply slot_inside.
Qed.

(** In the opening world the apple (entity 3) is edible; after
    [destroy_entity] its identifier goes to a segment that is not. *)
Lemma reuse_is_clean_witness :
  ∃ w w1 g, opening_game = Some w
            ∧ MECS_HAS_COMPONENT w edible 3 = Some true
            ∧ destroy_entity w 3 = Some w1
            ∧ create_snake_segment w1 (mkPosition 2 5) 2 = Some (3, g)
            ∧ MECS_HAS_COMPONENT g edible 3 = Some false.
Proof.
  eexists.
  match goal with
  | |- ∃ w1 g, opening_game = Some ?w0 ∧ _ =>
      set (w := w0);
      assert (opening_game = Some w) as Hw by (vm_compute; reflexivity);
      assert (world_wf w) as Hwf by eval_world_wf
  end.
  destruct (reuse_is_clean _ 3 (mkPosition 2 5) 2 Hwf) as (w1 & g & Hd & Hc & Hflags & _).
  - reflexivity.
  - reflexivity.
  - exists w1, g. split; [exact Hw|]. split; [vm_compute; reflexivity|].
    split; [exact Hd|]. split; [exact Hc|].
    rewrite Hflags. vm_compute. reflexivity.
Defined.

(** ** The chain of followers: [last_follower] *)

Lemma read_follower_at (w : SnakeWorld) (e : Entity) :
  world_wf w → e < MAX_ENTITIES →
  read_data w follower e = Some (follower_at w e).
Proof.
  intros Hwf He. unfold follower_at.
  by destruct (read_data_inside w follower e Hwf He) as [d ->].
Qed.

Lemma INVALID_ENTITY_outside (e : Entity) : e < MAX_ENTITIES → e ≠ INVALID_ENTITY.
Proof. ranges. unfold INVALID_ENTITY. lia. Qed.

Lemma elem_of_followers (w : SnakeWorld) (l i : Entity) :
  i ∈ followers w l ↔ i < MAX_ENTITIES ∧ follows w l i = true.
Proof.
  unfold followers. rewrite list_elem_of_filter, elem_of_ids_below, Is_true_true. tauto.
Qed.

(** The followers of [l] among the slots below [e + 1]. *)
Lemma followers_upto_succ (w : SnakeWorld) (l e : Entity) :
  filter (λ i, follows w l i) (ids_below (e + 1))
  = filter (λ i, follows w l i) (ids_below e)
    ++ (if follows w l e then [e] else []).
Proof.
  rewrite ids_below_succ, filter_app. f_equal.
  rewrite filter_cons, filter_nil. by destruct (follows w l e).
Qed.

(** [map[l]] is the follower of [l] with the greatest identifier, and
    [INVALID_ENTITY] when [l] has none. *)
Lemma follower_map_spec (w : SnakeWorld) :
  world_wf w →
  ∃ map, follower_map w = Some map
         ∧ length map = N.to_nat MAX_ENTITIES
         ∧ ∀ l, l < MAX_ENTITIES →
                array_read map l = Some (default INVALID_ENTITY (last (followers w l))).
Proof.
  intros Hwf. unfold follower_map.
  pose (I := λ (e : Entity) (map : list Entity),
          length map = N.to_nat MAX_ENTITIES
          ∧ ∀ l, l < MAX_ENTITIES →
                 array_read map l
                 = Some (default INVALID_ENTITY
                           (last (filter (λ i, follows w l i) (ids_below e))))).
  destruct (foreach_do_invariant
              (λ (_ : list Entity) e,
                 and_then (MECS_HAS_COMPONENT w position e)
                          (MECS_HAS_COMPONENT w follower e))
              (λ e map,
                 l ← read_data w follower e;
                 if l <? MAX_ENTITIES then array_write map l e else Some map) I)
    with (s := replicate (N.to_nat MAX_ENTITIES) INVALID_ENTITY)
    as (map & Hmap & Hlen & Hspec).
  - intros e map He [Hlen Hspec].
    exists (present w position e && present w follower e). split.
    { rewrite !has_component_inside by done. by destruct (present w position e). }
    destruct (present w position e && present w follower e) eqn:Hb.
    + rewrite read_follower_at by done. cbn [mbind option_bind].
      destruct (follower_at w e <? MAX_ENTITIES) eqn:Hl.
      * apply N.ltb_lt in Hl.
        rewrite array_write_inside by lia.
        eexists. split; [done|]. split; [by rewrite length_insert|].
        intros l Hlt. rewrite followers_upto_succ.
        assert (follows w l e = (follower_at w e =? l)) as ->
          by (unfold follows; by rewrite Hb).
        destruct (follower_at w e =? l) eqn:Heq.
        -- apply N.eqb_eq in Heq. subst l.
           rewrite last_snoc. simpl. apply array_read_insert. lia.
        -- apply N.eqb_neq in Heq.
           rewrite app_nil_r, array_read_insert_ne by done. by apply Hspec.
      * apply N.ltb_ge in Hl. eexists. split; [done|]. split; [done|].
        intros l Hlt. rewrite followers_upto_succ.
        assert (follows w l e = false) as ->.
        { unfold follows. rewrite Hb. simpl. apply N.eqb_neq. lia. }
        rewrite app_nil_r. by apply Hspec.
    + split; [done|]. intros l Hlt. rewrite followers_upto_succ.
      assert (follows w l e = false) as -> by (unfold follows; by rewrite Hb).
      rewrite app_nil_r. by apply Hspec.
  - split; [by rewrite length_replicate|].
    intros l Hlt. unfold array_read.
    rewrite lookup_replicate_2 by lia. done.
  - exists map. done.
Qed.

(** The walk along a snake ends on its last entity. *)
Lemma walk_chain_snake (w : SnakeWorld) (map : list Entity) (body : list Entity) :
  (∀ l, l < MAX_ENTITIES →
        array_read map l = Some (default INVALID_ENTITY (last (followers w l)))) →
  ∀ fuel lead, lead < MAX_ENTITIES → snake w lead body →
               (length body < fuel)%nat →
               walk_chain fuel map lead = Some (default lead (last body)).
Proof.
  intros Hmap. induction body as [|e body IH]; intros fuel lead Hlead Hsnake Hfuel.
  - destruct fuel as [|fuel]; [simpl in Hfuel; lia|]. simpl in *.
    replace (lead <? MAX_ENTITIES) with true by (symmetry; by apply N.ltb_lt).
    rewrite Hmap by done. rewrite Hsnake. simpl.
    by rewrite N.eqb_refl.
  - destruct fuel as [|fuel]; [simpl in Hfuel; lia|].
    destruct Hsnake as [Hfol Hsnake].
    assert (e < MAX_ENTITIES) as He.
    { apply (elem_of_followers w lead e). rewrite Hfol. by apply list_elem_of_singleton. }
    cbn [walk_chain].
    replace (lead <? MAX_ENTITIES) with true by (symmetry; by apply N.ltb_lt).
    rewrite Hmap by done. rewrite Hfol. simpl.
    replace (e =? INVALID_ENTITY) with false
      by (symmetry; apply N.eqb_neq; by apply INVALID_ENTITY_outside).
    simpl. rewrite IH; [|done|done|simpl in Hfuel; lia].
    f_equal. rewrite last_cons. by destruct (last body).
Qed.

Lemma last_follower_walk (w : SnakeWorld) (lead : Entity) (body : list Entity)
    (fuel : nat) :
  world_wf w → lead < MAX_ENTITIES → snake w lead body →
  (length body < fuel)%nat →
  last_follower fuel w lead = Some (default lead (last body)).
Proof.
  intros Hwf Hlead Hsnake Hfuel.
  destruct (follower_map_spec w Hwf) as (map & Hmap & _ & Hspec).
  unfold last_follower. rewrite Hmap. simpl.
  by apply (walk_chain_snake w).
Qed.

(** X12 (last_follower on a snake): in a well-formed world where [lead]
    and [body] make a snake, [last_follower] returns the last entity of the
    snake ([lead] itself when the body is empty), as soon as the walk is
    given more steps than the body is long. *)
Theorem last_follower_snake (w : SnakeWorld) (lead : Entity) (body : list Entity)
    (fuel : nat) :
  world_wf w → lead < MAX_ENTITIES → snake w lead body →
  (length body < fuel)%nat →
  last_follower fuel w lead = Some (default lead (last body)).
Proof. apply last_follower_walk. Qed.

(** In the opening world the head is followed by entity 1, and 1 by 2. *)
Lemma last_follower_snake_witness :
  ∃ w, opening_game = Some w ∧ last_follower 3 w 0 = Some 2.
Proof.
  eexists.
  match goal with
  | |- opening_game = Some ?w0 ∧ _ =>
      set (w := w0);
      assert (opening_game = Some w) as Hw by (vm_compute; reflexivity);
      assert (world_wf w) as Hwf by eval_world_wf
  end.
  split; [exact Hw|].
  apply (last_follower_snake _ 0 [1; 2] 3 Hwf).
  - reflexivity.
  - cbn [snake]. split; [vm_compute; reflexivity|]. split; vm_compute; reflexivity.
  - cbn [length]. lia.
Defined.

(** X13 (what last_follower returns has no follower): in a well-formed
    world, an entity below [MAX_ENTITIES] that [last_follower] returns is
    followed by no entity; and a [lead] at or above [MAX_ENTITIES] is
    returned as it is. *)
Theorem last_follower_has_no_follower (w : SnakeWorld) (lead : Entity) (fuel : nat) :
  world_wf w →
  (∀ r, last_follower fuel w lead = Some r → r < MAX_ENTITIES → followers w r = [])
  ∧ (MAX_ENTITIES ≤ lead → last_follower (S fuel) w lead = Some lead).
Proof.
  intros Hwf.
  destruct (follower_map_spec w Hwf) as (map & Hmap & _ & Hspec).
  unfold last_follower. rewrite Hmap. cbn [mbind option_bind]. split.
  - revert lead. induction fuel as [|fuel IH]; intros lead r Hwalk Hr; [done|].
    cbn [walk_chain] in Hwalk.
    destruct (lead <? MAX_ENTITIES) eqn:Hlt; simpl in Hwalk.
    + apply N.ltb_lt in Hlt. rewrite Hspec in Hwalk by done. simpl in Hwalk.
      destruct (last (followers w lead)) as [m|] eqn:Hlast; simpl in Hwalk.
      * assert (m ∈ followers w lead) as Hm.
        { apply last_Some in Hlast as [l' ->]. apply elem_of_app. right.
          by apply list_elem_of_singleton. }
        apply elem_of_followers in Hm as [Hm _].
        replace (m =? INVALID_ENTITY) with false in Hwalk
          by (symmetry; apply N.eqb_neq; by apply INVALID_ENTITY_outside).
        simpl in Hwalk. by apply (IH m).
      * rewrite N.eqb_refl in Hwalk. simpl in Hwalk. simplify_eq.
        by apply last_None.
    + apply N.ltb_ge in Hlt. simplify_eq. lia.
  - intros Hlead. cbn [walk_chain].
    by replace (lead <? MAX_ENTITIES) with false by (symmetry; by apply N.ltb_ge).
Qed.

Lemma last_follower_has_no_follower_witness :
  ∃ w, opening_game = Some w
       ∧ last_follower 3 w 0 = Some 2
       ∧ followers w 2 = [].
Proof.
  eexists.
  match goal with
  | |- opening_game = Some ?w0 ∧ _ =>
      set (w := w0);
      assert (opening_game = Some w) as Hw by (vm_compute; reflexivity);
      assert (world_wf w) as Hwf by eval_world_wf;
      assert (last_follower 3 w 0 = Some 2) as Hlast by (vm_compute; reflexivity)
  end.
  split; [exact Hw|]. split; [exact Hlast|].
  apply (proj1 (last_follower_has_no_follower _ 0 3 Hwf) 2 Hlast).
  reflexivity.
Defined.

(** X14 (last_follower has no protection against cycles): in a well-formed
    world, when [lead] belongs to a set of entities each of which has a
    follower and whose greatest follower is in the set again, the walk of
    [last_follower] is still running after any number of steps. *)
Theorem last_follower_cycle (w : SnakeWorld) (P : Entity → Prop) (lead : Entity) :
  world_wf w →
  (∀ c, P c → c < MAX_ENTITIES ∧ ∃ c', last (followers w c) = Some c' ∧ P c') →
  P lead →
  ∀ fuel, last_follower fuel w lead = None.
Proof.
  intros Hwf Hclosed Hlead fuel.
  destruct (follower_map_spec w Hwf) as (map & Hmap & _ & Hspec).
  unfold last_follower. rewrite Hmap. cbn [mbind option_bind].
  revert lead Hlead. induction fuel as [|fuel IH]; intros lead Hlead; [done|].
  destruct (Hclosed lead Hlead) as (Hlt & c' & Hlast & Hc').
  destruct (Hclosed c' Hc') as (Hlt' & _).
  cbn [walk_chain].
  replace (lead <? MAX_ENTITIES) with true by (symmetry; by apply N.ltb_lt).
  rewrite Hspec by done. rewrite Hlast. simpl.
  replace (c' =? INVALID_ENTITY) with false
    by (symmetry; apply N.eqb_neq; by apply INVALID_ENTITY_outside).
  simpl. by apply IH.
Qed.

(** A segment that follows itself. *)
Lemma last_follower_cycle_witness :
  ∃ w, looped_game = Some w ∧ ∀ fuel, last_follower fuel w 0 = None.
Proof.
  eexists.
  match goal with
  | |- looped_game = Some ?w0 ∧ _ =>
      set (w := w0);
      assert (looped_game = Some w) as Hw by (vm_compute; reflexivity);
      assert (world_wf w) as Hwf by eval_world_wf
  end.
  split; [exact Hw|].
  apply (last_follower_cycle _ (λ c, c = 0) 0 Hwf); [|reflexivity].
  intros c ->. split; [reflexivity|].
  exists 0. split; [vm_compute; reflexivity | reflexivity].
Defined.

(** ** [grow] *)

Lemma present_flag_insert (w g : SnakeWorld) (n : Name) (e i : Entity) (b : bool) :
  world_wf w → e < MAX_ENTITIES →
  flag (component n g) = <[N.to_nat e := b]> (flag (component n w)) →
  present g n i = if decide (i = e) then b else present w n i.
Proof.
  intros Hwf He Hf. unfold present, MECS_HAS_COMPONENT. rewrite Hf.
  destruct (decide (i = e)) as [->|Hne].
  - rewrite array_read_insert by (by apply slot_inside).
    destruct b; [by rewrite bool_decide_eq_true_2 | by rewrite bool_decide_eq_false_2].
  - by rewrite array_read_insert_ne.
Qed.

Lemma read_data_insert (w g : SnakeWorld) (n : Name) (e i : Entity) (v : CompType n) :
  world_wf w → e < MAX_ENTITIES →
  data (component n g) = <[N.to_nat e := v]> (data (component n w)) →
  read_data g n i = if decide (i = e) then Some v else read_data w n i.
Proof.
  intros Hwf He Hd. unfold read_data. rewrite Hd.
  destruct (decide (i = e)) as [->|Hne].
  - by rewrite array_read_insert by (by apply slot_inside).
  - by rewrite array_read_insert_ne.
Qed.

Lemma snake_tail_has_no_follower (w : SnakeWorld) (body : list Entity) (lead : Entity) :
  snake w lead body → followers w (default lead (last body)) = [].
Proof.
  revert lead. induction body as [|e body IH]; intros lead Hsnake; [done|].
  destruct Hsnake as [_ Hsnake]. apply IH in Hsnake.
  rewrite last_cons. by destruct (last body).
Qed.

Lemma snake_body_inside (w : SnakeWorld) (body : list Entity) (lead : Entity) :
  snake w lead body →
  ∀ e, e ∈ body → e < MAX_ENTITIES ∧ present w position e = true.
Proof.
  revert lead. induction body as [|c body IH]; intros lead Hsnake e He.
  - by apply elem_of_nil in He.
  - destruct Hsnake as [Hfol Hsnake].
    apply elem_of_cons in He as [->|He]; [|by eapply IH].
    assert (c ∈ followers w lead) as Hc by (rewrite Hfol; by apply list_elem_of_singleton).
    apply elem_of_followers in Hc as [Hc Hf]. split; [done|].
    unfold follows in Hf. by destruct (present w position c).
Qed.

(** A snake in [w] whose tail gets the one follower [e] in [g], all other
    entities keeping their followers, is a snake in [g] with [e] appended. *)
Lemma snake_extend (w g : SnakeWorld) (e : Entity) (body : list Entity) (lead : Entity) :
  snake w lead body →
  (∀ l, l ≠ default lead (last body) → followers g l = followers w l) →
  followers g (default lead (last body)) = [e] →
  followers g e = [] →
  snake g lead (body ++ [e]).
Proof.
  revert lead. induction body as [|c body IH]; intros lead Hsnake Hsame Htail He.
  - simpl in *. done.
  - pose proof (snake_tail_has_no_follower w (c :: body) lead Hsnake) as Hnone.
    destruct Hsnake as [Hfol Hsnake].
    assert (default lead (last (c :: body)) = default c (last body)) as Heq.
    { rewrite last_cons. by destruct (last body). }
    rewrite Heq in *. simpl. split.
    + rewrite Hsame; [done|]. intros ->. rewrite Hfol in Hnone. done.
    + by apply IH.
Qed.

Lemma filter_none (q : Entity → bool) (l : list Entity) :
  (∀ i, i ∈ l → q i = false) → filter (λ i, q i) l = [].
Proof.
  induction l as [|c l IH]; intros Hq; [done|].
  rewrite filter_cons, (Hq c) by (by apply elem_of_cons; left). simpl.
  apply IH. intros i Hi. apply Hq. apply elem_of_cons. by right.
Qed.

Lemma filter_single (q : Entity → bool) (l : list Entity) (e : Entity) :
  NoDup l → e ∈ l → q e = true → (∀ i, i ∈ l → i ≠ e → q i = false) →
  filter (λ i, q i) l = [e].
Proof.
  induction l as [|c l IH]; intros Hnd He Hq Hothers; [by apply elem_of_nil in He|].
  apply NoDup_cons in Hnd as [Hc Hnd]. rewrite filter_cons.
  destruct (decide (c = e)) as [->|Hne].
  - rewrite Hq. simpl. f_equal. apply filter_none.
    intros i Hi. apply Hothers; [apply elem_of_cons; by right|]. by intros ->.
  - rewrite (Hothers c) by (done || by apply elem_of_cons; left). simpl.
    apply IH; [done | | done |].
    + apply elem_of_cons in He as [->|He]; done.
    + intros i Hi. apply Hothers. apply elem_of_cons. by right.
Qed.

Lemma filter_same (q q' : Entity → bool) (l : list Entity) :
  (∀ i, i ∈ l → q i = q' i) → filter (λ i, q i) l = filter (λ i, q' i) l.
Proof.
  induction l as [|c l IH]; intros Hq; [done|].
  rewrite !filter_cons, (Hq c) by (by apply elem_of_cons; left).
  rewrite IH; [done|]. intros i Hi. apply Hq. apply elem_of_cons. by right.
Qed.

(** The followers after a segment [e] following [tail] has been made in a
    slot that had no position. *)
Lemma followers_with_segment (w g : SnakeWorld) (e tail : Entity) (pos : Position) :
  world_wf w → e < MAX_ENTITIES →
  present w position e = false →
  component position g =
    mkComponent (<[N.to_nat e := pos]> (data (component position w)))
                (<[N.to_nat e := true]> (flag (component position w))) →
  component follower g =
    mkComponent (<[N.to_nat e := tail]> (data (component follower w)))
                (<[N.to_nat e := true]> (flag (component follower w))) →
  (∀ l i, follows g l i = if decide (i = e) then tail =? l else follows w l i)
  ∧ (∀ l, l ≠ tail → followers g l = followers w l)
  ∧ (followers w tail = [] → followers g tail = [e]).
Proof.
  intros Hwf He Hfree Hpos Hfol.
  assert (∀ l i, follows g l i = if decide (i = e) then tail =? l else follows w l i)
    as Hfollows.
  { intros l i. unfold follows, follower_at.
    rewrite (present_flag_insert w g position e i true) by (done || by rewrite Hpos).
    rewrite (present_flag_insert w g follower e i true) by (done || by rewrite Hfol).
    rewrite (read_data_insert w g follower e i tail) by (done || by rewrite Hfol).
    by destruct (decide (i = e)). }
  split; [done|]. split.
  - intros l Hl. unfold followers. apply filter_same. intros i _.
    rewrite Hfollows. destruct (decide (i = e)) as [->|]; [|done].
    unfold follows. rewrite Hfree. simpl. apply N.eqb_neq. done.
  - intros Hnone. unfold followers. apply filter_single.
    + apply NoDup_ids_below.
    + by apply elem_of_ids_below.
    + rewrite Hfollows, decide_True by done. apply N.eqb_refl.
    + intros i Hi Hne. rewrite Hfollows, decide_False by done.
      apply elem_of_ids_below in Hi.
      destruct (follows w tail i) eqn:Hf; [|done].
      assert (i ∈ followers w tail) as Hin by (by apply elem_of_followers).
      rewrite Hnone in Hin. by apply elem_of_nil in Hin.
Qed.

Lemma snake_last_inside (w : SnakeWorld) (body : list Entity) (lead : Entity) :
  lead < MAX_ENTITIES → snake w lead body →
  default lead (last body) < MAX_ENTITIES.
Proof.
  intros Hlead Hsnake. destruct (last body) as [t|] eqn:Hlast; [|done].
  simpl. apply (snake_body_inside w body lead Hsnake).
  apply last_Some in Hlast as [l' ->]. apply elem_of_app. right.
  by apply list_elem_of_singleton.
Qed.

(** X15 (grow appends to a snake): in a well-formed world where [lead] and
    [body] make a snake, and where the allocator hands out a slot [e] below
    [MAX_ENTITIES] that has no position, is not [lead] and is followed by
    nobody, [grow] yields a world in which the snake is [body] with [e]
    appended; [e] sits on the position of the former tail, and no other
    position has changed. *)
Theorem grow_extends_snake (w : SnakeWorld) (lead : Entity) (body : list Entity)
    (fuel : nat) (e : Entity) (m : EntityManager) :
  world_wf w → lead < MAX_ENTITIES → snake w lead body →
  (length body < fuel)%nat →
  mecs_entity_create (em w) = Some (e, m) → e < MAX_ENTITIES →
  MECS_HAS_COMPONENT w position e = Some false → e ≠ lead → followers w e = [] →
  ∃ g, grow fuel w lead = Some g
       ∧ world_wf g
       ∧ em g = m
       ∧ snake g lead (body ++ [e])
       ∧ position_at g e = position_at w (default lead (last body))
       ∧ ∀ i, i ≠ e → position_at g i = position_at w i.
Proof.
  intros Hwf Hlead Hsnake Hfuel Hcreate He Hfree Hne Hnone.
  set (tail := default lead (last body)).
  assert (tail < MAX_ENTITIES) as Htail by (by apply (snake_last_inside w)).
  assert (present w position e = false) as Hfree'.
  { unfold present. rewrite Hfree. by apply bool_decide_eq_false_2. }
  assert (e ≠ tail) as Hne'.
  { unfold tail. destruct (last body) as [t|] eqn:Hlast; [|done]. simpl.
    intros ->.
    assert (t ∈ body) as Ht.
    { apply last_Some in Hlast as [l' ->]. apply elem_of_app. right.
      by apply list_elem_of_singleton. }
    destruct (snake_body_inside w body lead Hsnake t Ht) as [_ Hp]. congruence. }
  destruct (create_snake_segment_inside w (position_at w tail) tail e m Hwf Hcreate He)
    as (g & Hg & Hgwf & Hem & _ & Hpos & Hfol & _).
  destruct (followers_with_segment w g e tail (position_at w tail)
              Hwf He Hfree' Hpos Hfol) as (_ & Hsame & Hnew).
  exists g. split.
  { unfold grow. rewrite (last_follower_walk w lead body) by done.
    fold tail. cbn [mbind option_bind].
    rewrite read_position_at by done. cbn [mbind option_bind].
    by rewrite Hg. }
  split; [done|]. split; [done|]. split_and!.
  - apply (snake_extend w); fold tail.
    + done.
    + done.
    + apply Hnew. by apply snake_tail_has_no_follower.
    + rewrite Hsame by done. done.
  - unfold position_at.
    rewrite (read_data_insert w g position e e (position_at w tail))
      by (done || by rewrite Hpos).
    by rewrite decide_True.
  - intros i Hi. unfold position_at.
    rewrite (read_data_insert w g position e i (position_at w tail))
      by (done || by rewrite Hpos).
    by rewrite decide_False.
Qed.

(** In the opening world the snake is the head 0 with the body 1, 2; the
    next identifier is 4. *)
Lemma grow_extends_snake_witness :
  ∃ w g, opening_game = Some w
         ∧ grow 3 w 0 = Some g
         ∧ snake g 0 [1; 2; 4]
         ∧ position_at g 4 = mkPosition 3 5.
Proof.
  eexists.
  match goal with
  | |- ∃ g, opening_game = Some ?w0 ∧ _ =>
      set (w := w0);
      assert (opening_game = Some w) as Hw by (vm_compute; reflexivity);
      assert (world_wf w) as Hwf by eval_world_wf;
      destruct (grow_extends_snake w 0 [1; 2] 3 4
                  {| next_entity := 5; free_list := free_list (em w); free_count := 0 |}
                  Hwf)
        as (g & Hg & _ & _ & Hsnake & Hpos & _)
  end.
  - reflexivity.
  - cbn [snake]. split; [vm_compute; reflexivity|]. split; vm_compute; reflexivity.
  - cbn [length]. lia.
  - vm_compute. reflexivity.
  - reflexivity.
  - vm_compute. reflexivity.
  - discriminate.
  - vm_compute. reflexivity.
  - exists g. split; [exact Hw|]. split; [exact Hg|]. split; [exact Hsnake|].
    rewrite Hpos. vm_compute. reflexivity.
Defined.

(** ** [update_followers_of] *)

(** What holds of the state before the loop and is kept by every body that
    ends, holds after the loop if the loop ends. *)
Lemma foreach_do_preserves {St : Type} (cond : St → Entity → option bool)
    (body : Entity → St → option St) (J : St → Prop) :
  (∀ e s s', J s → body e s = Some s' → J s') →
  ∀ fuel e s s', J s → foreach_do fuel cond body e s = Some s' → J s'.
Proof.
  intros Hbody. induction fuel as [|fuel IH]; intros e s s' HJ Hloop; [done|].
  simpl in Hloop. destruct (e <? MAX_ENTITIES); [|by simplify_eq].
  destruct (cond s e) as [b|]; [|done]. simpl in Hloop.
  destruct b.
  - destruct (body e s) as [s1|] eqn:Hs1; [|done]. simpl in Hloop.
    eapply IH; [|done]. by eapply Hbody.
  - simpl in Hloop. by eapply IH.
Qed.

(** A loop in which some iteration has its body fail, in every state the
    iterations before can have left, yields nothing. *)
Lemma foreach_do_fails {St : Type} (cond : St → Entity → option bool)
    (body : Entity → St → option St) (J : St → Prop) (k : Entity) :
  (∀ e s s', J s → body e s = Some s' → J s') →
  (∀ s, J s → cond s k = Some true ∧ body k s = None) →
  ∀ fuel e s, e ≤ k → k < MAX_ENTITIES → J s → foreach_do fuel cond body e s = None.
Proof.
  intros Hbody Hfail. induction fuel as [|fuel IH]; intros e s He Hk HJ; [done|].
  ranges. simpl.
  replace (e <? MAX_ENTITIES) with true by (symmetry; apply N.ltb_lt; lia).
  destruct (decide (e = k)) as [->|Hne].
  - destruct (Hfail s HJ) as [-> Hnone]. simpl. by rewrite Hnone.
  - destruct (cond s e) as [b|]; [|done]. simpl.
    rewrite uint_wrap_small by lia.
    destruct b.
    + destruct (body e s) as [s1|] eqn:Hs1; [|done]. simpl.
      apply IH; [lia | done | by eapply Hbody].
    + simpl. apply IH; [lia | done | done].
Qed.

Lemma position_only_refl (w : SnakeWorld) : position_only w w.
Proof. by repeat split. Qed.

Lemma position_only_trans (w1 w2 w3 : SnakeWorld) :
  position_only w1 w2 → position_only w2 w3 → position_only w1 w3.
Proof.
  intros (Hem & Hsc & Hoth & Hfl) (Hem' & Hsc' & Hoth' & Hfl').
  split_and!; try congruence. intros n Hn. rewrite Hoth' by done. by apply Hoth.
Qed.

Lemma position_only_present (w w' : SnakeWorld) (n : Name) (e : Entity) :
  position_only w w' → present w' n e = present w n e.
Proof.
  intros (_ & _ & Hoth & Hfl). apply present_same_flags.
  destruct (decide (n = position)) as [->|Hn]; [done|]. by rewrite Hoth.
Qed.

Lemma position_only_follower_at (w w' : SnakeWorld) (e : Entity) :
  position_only w w' → follower_at w' e = follower_at w e.
Proof.
  intros (_ & _ & Hoth & _). unfold follower_at, read_data. by rewrite Hoth.
Qed.

Lemma position_only_follows (w w' : SnakeWorld) (l i : Entity) :
  position_only w w' → follows w' l i = follows w l i.
Proof.
  intros Hpo. unfold follows.
  by rewrite !(position_only_present w w'), (position_only_follower_at w w').
Qed.

Lemma position_only_followers (w w' : SnakeWorld) (l : Entity) :
  position_only w w' → followers w' l = followers w l.
Proof.
  intros Hpo. unfold followers. apply filter_same. intros i _.
  by apply position_only_follows.
Qed.

(** The world with [game->position[e] = p] done. *)
Lemma write_position_at (w : SnakeWorld) (e : Entity) (p : Position) :
  world_wf w → e < MAX_ENTITIES →
  ∃ w', write_data position e p w = Some w'
        ∧ world_wf w'
        ∧ position_only w w'
        ∧ ∀ i, position_at w' i = if decide (i = e) then p else position_at w i.
Proof.
  intros Hwf He.
  eexists. split; [by apply (write_data_inside w position e p)|].
  split_and!.
  - eapply write_data_wf; [done|]. by apply (write_data_inside w position e p).
  - split_and!; try done. intros n Hn. by apply (component_set_component_ne position).
  - intros i. unfold position_at.
    rewrite (read_data_insert w _ position e i p) by done.
    by destruct (decide (i = e)).
Qed.

(** Whenever [update_followers_of] returns, all it has changed is
    positions. *)
Lemma update_followers_frame (fuel : nat) :
  ∀ (w w' : SnakeWorld) (leader : Entity),
    world_wf w → update_followers_of fuel w leader = Some w' →
    world_wf w' ∧ position_only w w'.
Proof.
  induction fuel as [|fuel IH]; intros w w' leader Hwf Hup; [done|].
  cbn [update_followers_of] in Hup.
  apply (foreach_do_preserves _ _ (λ g, world_wf g ∧ position_only w g)) in Hup;
    [done| |by split; [|apply position_only_refl]].
  intros e g g' [Hgwf Hgpo] Hbody.
  destruct (read_data g follower e) as [l|]; [|done]. cbn [mbind option_bind] in Hbody.
  destruct (l =? leader); [|by simplify_eq].
  destruct (update_followers_of fuel g e) as [g1|] eqn:Hg1; [|done].
  cbn [mbind option_bind] in Hbody.
  destruct (IH g g1 e Hgwf Hg1) as [Hg1wf Hg1po].
  destruct (read_data g1 position leader) as [p|]; [|done].
  cbn [mbind option_bind] in Hbody.
  unfold write_data in Hbody.
  destruct (array_write (data (component position g1)) e p) as [d|] eqn:Hd; [|done].
  cbn [mbind option_bind] in Hbody. simplify_eq.
  apply array_write_Some in Hd as [Hin ->].
  assert (e < MAX_ENTITIES) as He.
  { destruct Hg1wf as [_ Hc]. destruct (Hc position) as [Hlen _].
    unfold array_decl in Hlen. lia. }
  destruct (write_position_at g1 e p Hg1wf He) as (g2 & Hg2 & Hg2wf & Hg2po & _).
  rewrite write_data_inside in Hg2 by done. simplify_eq.
  split; [done|].
  eapply position_only_trans; [done|]. by eapply position_only_trans.
Qed.

Lemma snake_unique (w : SnakeWorld) (body body' : list Entity) (lead : Entity) :
  snake w lead body → snake w lead body' → body = body'.
Proof.
  revert lead body'. induction body as [|e body IH]; intros lead body' H H'.
  - destruct body' as [|e' body']; [done|]. simpl in *. destruct H' as [H' _]. congruence.
  - destruct body' as [|e' body']; simpl in *.
    + destruct H as [H _]. congruence.
    + destruct H as [H Hs], H' as [H' Hs']. rewrite H in H'. simplify_eq.
      f_equal. by eapply IH.
Qed.

Lemma snake_suffix (w : SnakeWorld) (b1 b2 : list Entity) (c lead : Entity) :
  snake w lead (b1 ++ c :: b2) → snake w c b2.
Proof.
  revert lead. induction b1 as [|e b1 IH]; intros lead H; simpl in H.
  - by destruct H.
  - destruct H as [_ H]. by eapply IH.
Qed.

(** A snake does not run through its lead again. *)
Lemma snake_lead_not_in_body (w : SnakeWorld) (body : list Entity) (lead : Entity) :
  snake w lead body → lead ∉ body.
Proof.
  intros Hsnake Hin.
  apply list_elem_of_split in Hin as (b1 & b2 & ->).
  pose proof (snake_suffix w b1 b2 lead lead Hsnake) as Hsuffix.
  pose proof (snake_unique w _ _ lead Hsnake Hsuffix) as Heq.
  apply (f_equal length) in Heq. rewrite length_app in Heq. simpl in Heq. lia.
Qed.

Lemma shifted_outside (w : SnakeWorld) (body : list Entity) (lead i : Entity) :
  i ∉ body → shifted w lead body i = position_at w i.
Proof.
  revert lead. induction body as [|e body IH]; intros lead Hi; [done|].
  apply not_elem_of_cons in Hi as [Hne Hi]. simpl.
  rewrite decide_False by done. by apply IH.
Qed.

(** Along a snake, [update_followers_of] moves every entity of the body to
    the position its leader had, and ends as soon as the calls may nest
    deeper than the body is long. *)
Lemma update_followers_snake (body : list Entity) :
  ∀ (w : SnakeWorld) (lead : Entity) (fuel : nat),
    world_wf w → lead < MAX_ENTITIES → snake w lead body →
    (length body < fuel)%nat →
    ∃ w', update_followers_of fuel w lead = Some w'
          ∧ world_wf w'
          ∧ position_only w w'
          ∧ ∀ i, position_at w' i = shifted w lead body i.
Proof.
  induction body as [|e body IH]; intros w lead fuel Hwf Hlead Hsnake Hfuel;
    (destruct fuel as [|fuel]; [simpl in Hfuel; lia|]); cbn [update_followers_of].
  - (* no follower: the loop changes nothing *)
    simpl in Hsnake.
    destruct (foreach_do_invariant
                (λ g e, and_then (MECS_HAS_COMPONENT g position e)
                                 (MECS_HAS_COMPONENT g follower e))
                (λ e g,
                   l ← read_data g follower e;
                   if l =? lead then
                     g ← update_followers_of fuel g e;
                     leader_pos ← read_data g position lead;
                     write_data position e leader_pos g
                   else Some g)
                (λ _ g, g = w)) with (s := w) as (w' & Hw' & ->); [|done|].
    + intros k g Hk ->.
      exists (present w position k && present w follower k). split.
      { rewrite !has_component_inside by done. by destruct (present w position k). }
      destruct (present w position k && present w follower k) eqn:Hb; [|done].
      rewrite read_follower_at by done. cbn [mbind option_bind].
      destruct (follower_at w k =? lead) eqn:Hl; [|by exists w].
      assert (k ∈ followers w lead) as Hin.
      { apply elem_of_followers. split; [done|]. unfold follows. by rewrite Hb, Hl. }
      rewrite Hsnake in Hin. by apply elem_of_nil in Hin.
    + exists w. split; [done|]. split; [done|]. split; [apply position_only_refl|done].
  - (* one follower, [e] *)
    destruct Hsnake as [Hfol Hsnake].
    assert (e < MAX_ENTITIES ∧ follows w lead e = true) as [He Hfe].
    { apply elem_of_followers. rewrite Hfol. by apply list_elem_of_singleton. }
    destruct (IH w e fuel Hwf He Hsnake) as (w1 & Hw1 & Hwf1 & Hpo1 & Hpos1);
      [simpl in Hfuel; lia|].
    destruct (write_position_at w1 e (position_at w1 lead) Hwf1 He)
      as (w2 & Hw2 & Hwf2 & Hpo2 & Hpos2).
    assert (position_only w w2) as Hpo by (by eapply position_only_trans).
    destruct (foreach_do_invariant
                (λ g k, and_then (MECS_HAS_COMPONENT g position k)
                                 (MECS_HAS_COMPONENT g follower k))
                (λ k g,
                   l ← read_data g follower k;
                   if l =? lead then
                     g ← update_followers_of fuel g k;
                     leader_pos ← read_data g position lead;
                     write_data position k leader_pos g
                   else Some g)
                (λ k g, if decide (k ≤ e) then g = w else g = w2)) with (s := w)
      as (w' & Hw' & HI).
    + intros k g Hk HI.
      assert (world_wf g ∧ position_only w g) as [Hgwf Hgpo].
      { destruct (decide (k ≤ e)); subst g; [|done].
        split; [done | apply position_only_refl]. }
      exists (present w position k && present w follower k). split.
      { rewrite !has_component_inside by done.
        rewrite !(position_only_present w g) by done.
        by destruct (present w position k). }
      assert (∀ g', (if decide (k ≤ e) then g' = w else g' = w2) → k ≠ e →
                    if decide (k + 1 ≤ e) then g' = w else g' = w2) as Hnext.
      { intros g' Hg' Hne. destruct (decide (k ≤ e)).
        - rewrite decide_True by lia. done.
        - rewrite decide_False by lia. done. }
      destruct (present w position k && present w follower k) eqn:Hb.
      * rewrite read_follower_at by done. cbn [mbind option_bind].
        rewrite (position_only_follower_at w g) by done.
        destruct (follower_at w k =? lead) eqn:Hl.
        -- assert (k ∈ followers w lead) as Hin.
           { apply elem_of_followers. split; [done|]. unfold follows. by rewrite Hb, Hl. }
           rewrite Hfol in Hin. apply list_elem_of_singleton in Hin. subst k.
           rewrite decide_True in HI by lia. subst g.
           rewrite Hw1. cbn [mbind option_bind].
           rewrite read_position_at by done. cbn [mbind option_bind].
           exists w2. split; [done|]. rewrite decide_False by lia. done.
        -- exists g. split; [done|]. apply Hnext; [done|].
           intros ->. unfold follows in Hfe. rewrite Hb in Hfe. simpl in Hfe. congruence.
      * apply Hnext; [done|].
        intros ->. unfold follows in Hfe. rewrite Hb in Hfe. done.
    + rewrite decide_True by lia. done.
    + rewrite decide_False in HI by lia. subst w'.
      exists w2. split; [done|]. split; [done|]. split; [done|].
      intros i. rewrite Hpos2. simpl.
      destruct (decide (i = e)) as [->|Hne]; [|by rewrite Hpos1].
      rewrite Hpos1. apply shifted_outside.
      assert (lead ∉ e :: body) as Hnot
        by (apply (snake_lead_not_in_body w); by split).
      by apply not_elem_of_cons in Hnot as [_ ?].
Qed.

Lemma snake_NoDup (w : SnakeWorld) (body : list Entity) (lead : Entity) :
  snake w lead body → NoDup (lead :: body).
Proof.
  revert lead. induction body as [|e body IH]; intros lead Hsnake.
  - apply NoDup_singleton.
  - apply NoDup_cons. split; [by apply (snake_lead_not_in_body w)|].
    destruct Hsnake as [_ Hsnake]. by apply IH.
Qed.

(** [shifted] at the [k]-th entity of the body is the position of the entity
    before it. *)
Lemma shifted_lookup (w : SnakeWorld) (body : list Entity) (lead : Entity) (k : nat)
    (e l : Entity) :
  NoDup body → body !! k = Some e → (lead :: body) !! k = Some l →
  shifted w lead body e = position_at w l.
Proof.
  revert lead k l. induction body as [|c body IH]; intros lead k l Hnd He Hl; [done|].
  apply NoDup_cons in Hnd as [Hc Hnd]. simpl.
  destruct k as [|k]; simpl in *.
  - simplify_eq. by rewrite decide_True.
  - assert (e ≠ c) as Hne.
    { intros ->. apply Hc. by eapply list_elem_of_lookup_2. }
    rewrite decide_False by done. by eapply IH.
Qed.

(** X16 (the body follows): in a well-formed world where [lead] and [body]
    make a snake, [update_followers_of] ends once its calls may nest deeper
    than the body is long; it puts every entity of the body on the position
    that the entity before it in [lead :: body] had, leaves every other
    position as it was, and changes nothing but positions. *)
Theorem update_followers_shifts (w : SnakeWorld) (lead : Entity) (body : list Entity)
    (fuel : nat) :
  world_wf w → lead < MAX_ENTITIES → snake w lead body →
  (length body < fuel)%nat →
  ∃ w', update_followers_of fuel w lead = Some w'
        ∧ position_only w w'
        ∧ (∀ k e l, body !! k = Some e → (lead :: body) !! k = Some l →
                    position_at w' e = position_at w l)
        ∧ (∀ i, i ∉ body → position_at w' i = position_at w i).
Proof.
  intros Hwf Hlead Hsnake Hfuel.
  destruct (update_followers_snake body w lead fuel Hwf Hlead Hsnake Hfuel)
    as (w' & Hw' & _ & Hpo & Hpos).
  exists w'. split; [done|]. split; [done|]. split.
  - intros k e l He Hl. rewrite Hpos. eapply shifted_lookup; [|done|done].
    apply snake_NoDup in Hsnake. by apply NoDup_cons in Hsnake as [_ ?].
  - intros i Hi. rewrite Hpos. by apply shifted_outside.
Qed.

(** In the opening world the head is at (5, 5), the segments at (4, 5) and
    (3, 5); the segments move up by one place. *)
Lemma update_followers_shifts_witness :
  ∃ w w', opening_game = Some w
          ∧ update_followers_of 3 w 0 = Some w'
          ∧ position_at w' 1 = mkPosition 5 5
          ∧ position_at w' 2 = mkPosition 4 5.
Proof.
  eexists.
  match goal with
  | |- ∃ w', opening_game = Some ?w0 ∧ _ =>
      set (w := w0);
      assert (opening_game = Some w) as Hw by (vm_compute; reflexivity);
      assert (world_wf w) as Hwf by eval_world_wf;
      destruct (update_followers_shifts w 0 [1; 2] 3 Hwf) as (w' & Hw' & _ & Hbody & _)
  end.
  - reflexivity.
  - cbn [snake]. split; [vm_compute; reflexivity|]. split; vm_compute; reflexivity.
  - cbn [length]. lia.
  - exists w'. split; [exact Hw|]. split; [exact Hw'|]. split.
    + rewrite (Hbody 0%nat 1 0) by reflexivity. vm_compute. reflexivity.
    + rewrite (Hbody 1%nat 2 1) by reflexivity. vm_compute. reflexivity.
Defined.

(** X17 (update_followers_of touches positions only): in a well-formed
    world, whenever [update_followers_of] returns, whatever the chains of
    followers look like, the manager, the score, every flag and every value
    other than a position are as before, and the arrays keep their size. *)
Theorem update_followers_changes_positions_only (fuel : nat) (w w' : SnakeWorld)
    (leader : Entity) :
  world_wf w → update_followers_of fuel w leader = Some w' →
  world_wf w' ∧ position_only w w'.
Proof. apply update_followers_frame. Qed.

Lemma update_followers_changes_positions_only_witness :
  ∃ w w', opening_game = Some w
          ∧ update_followers_of 3 w 0 = Some w'
          ∧ position_only w w'.
Proof.
  eexists. eexists.
  match goal with
  | |- opening_game = Some ?w0 ∧ _ =>
      set (w := w0);
      assert (opening_game = Some w) as Hw by (vm_compute; reflexivity);
      assert (world_wf w) as Hwf by eval_world_wf
  end.
  split; [exact Hw|].
  split; [vm_compute; reflexivity|].
  match goal with
  | |- position_only ?w ?w' =>
      apply (update_followers_changes_positions_only 3 w w' 0 Hwf)
  end.
  vm_compute. reflexivity.
Defined.

Lemma update_followers_cycle_gen (w : SnakeWorld) (P : Entity → Prop) :
  (∀ c, P c → ∃ c', c' ∈ followers w c ∧ P c') →
  ∀ fuel g leader,
    world_wf g → position_only w g → P leader →
    update_followers_of fuel g leader = None.
Proof.
  intros Hclosed. induction fuel as [|fuel IH]; intros g leader Hwf Hpo Hleader; [done|].
  destruct (Hclosed leader Hleader) as (c & Hc & HPc).
  apply elem_of_followers in Hc as [Hc Hfc].
  cbn [update_followers_of].
  apply (foreach_do_fails _ _ (λ g', world_wf g' ∧ position_only w g') c);
    [| |lia|done|done].
  - intros e s s' [Hswf Hspo] Hbody.
    destruct (read_data s follower e) as [l|]; [|done].
    cbn [mbind option_bind] in Hbody.
    destruct (l =? leader); [|by simplify_eq].
    destruct (update_followers_of fuel s e) as [s1|] eqn:Hs1; [|done].
    cbn [mbind option_bind] in Hbody.
    destruct (update_followers_frame fuel s s1 e Hswf Hs1) as [Hs1wf Hs1po].
    destruct (read_data s1 position leader) as [p|]; [|done].
    cbn [mbind option_bind] in Hbody.
    assert (world_wf s') as Hs'wf by (by eapply write_data_wf).
    split; [done|].
    unfold write_data in Hbody.
    destruct (array_write (data (component position s1)) e p) as [d|] eqn:Hd; [|done].
    cbn [mbind option_bind] in Hbody. simplify_eq.
    eapply position_only_trans; [done|]. eapply position_only_trans; [done|].
    split_and!; try done. intros n Hn. by apply (component_set_component_ne position).
  - intros s [Hswf Hspo].
    unfold follows in Hfc.
    apply andb_true_iff in Hfc as [Hflags Hl].
    rewrite !has_component_inside by done.
    rewrite !(position_only_present w s) by done.
    apply andb_true_iff in Hflags as [-> ->]. split; [done|].
    rewrite read_follower_at by done. cbn [mbind option_bind].
    rewrite (position_only_follower_at w s) by done. rewrite Hl.
    by rewrite IH.
Qed.

(** X18 (update_followers_of has no protection against cycles): in a
    well-formed world, when [leader] belongs to a set of entities each of
    which has a follower in the set, the calls of [update_followers_of]
    nest deeper than any bound. *)
Theorem update_followers_cycle (w : SnakeWorld) (P : Entity → Prop) (leader : Entity) :
  world_wf w →
  (∀ c, P c → ∃ c', c' ∈ followers w c ∧ P c') →
  P leader →
  ∀ fuel, update_followers_of fuel w leader = None.
Proof.
  intros Hwf Hclosed Hleader fuel.
  apply (update_followers_cycle_gen w P Hclosed); [done | apply position_only_refl | done].
Qed.

(** A segment that follows itself. *)
Lemma update_followers_cycle_witness :
  ∃ w, looped_game = Some w ∧ ∀ fuel, update_followers_of fuel w 0 = None.
Proof.
  eexists.
  match goal with
  | |- looped_game = Some ?w0 ∧ _ =>
      set (w := w0);
      assert (looped_game = Some w) as Hw by (vm_compute; reflexivity);
      assert (world_wf w) as Hwf by eval_world_wf
  end.
  split; [exact Hw|].
  apply (update_followers_cycle _ (λ c, c = 0) 0 Hwf); [|reflexivity].
  intros c ->. exists 0. split; [|reflexivity].
  apply elem_of_followers. split; [reflexivity | vm_compute; reflexivity].
Defined.

(** ** [update_interactables] *)

Lemma step_position_inside (d : Direction) (p : Position) :
  inside_int p → step_position d p = Some (moved d p).
Proof.
  intros [Hx Hy]. unfold step_position, moved, int_result.
  destruct d;
    match goal with
    | |- context [(?a <=? ?z)%Z && (?z <=? ?b)%Z] =>
        replace ((a <=? z)%Z && (z <=? b)%Z) with true
          by (symmetry; apply andb_true_iff; split; apply Z.leb_le; lia)
    end; done.
Qed.

Lemma position_only_direction_at (w w' : SnakeWorld) (e : Entity) :
  position_only w w' → direction_at w' e = direction_at w e.
Proof.
  intros (_ & _ & Hoth & _). unfold direction_at, read_data. by rewrite Hoth.
Qed.

(** One entity moves, the snake behind it follows. *)
Lemma update_interactables_snake (w : SnakeWorld) (head : Entity) (body : list Entity)
    (fuel : nat) :
  world_wf w → head < MAX_ENTITIES →
  (∀ k, k < MAX_ENTITIES →
        present w position k && present w direction k = true ↔ k = head) →
  snake w head body → (length body < fuel)%nat →
  inside_int (position_at w head) →
  ∃ w', update_interactables fuel w = Some w'
        ∧ world_wf w'
        ∧ position_only w w'
        ∧ ∀ i, position_at w' i
               = if decide (i = head)
                 then moved (direction_at w head) (position_at w head)
                 else shifted w head body i.
Proof.
  intros Hwf Hhead Honly Hsnake Hfuel Hint.
  destruct (update_followers_snake body w head fuel Hwf Hhead Hsnake Hfuel)
    as (w1 & Hw1 & Hwf1 & Hpo1 & Hpos1).
  assert (position_at w1 head = position_at w head) as Hhead1.
  { rewrite Hpos1. apply shifted_outside. by apply (snake_lead_not_in_body w). }
  destruct (write_position_at w1 head (moved (direction_at w head) (position_at w head))
              Hwf1 Hhead) as (w2 & Hw2 & Hwf2 & Hpo2 & Hpos2).
  assert (position_only w w2) as Hpo by (by eapply position_only_trans).
  unfold update_interactables.
  destruct (foreach_do_invariant
              (λ g e, and_then (MECS_HAS_COMPONENT g position e)
                               (MECS_HAS_COMPONENT g direction e))
              (λ e g,
                 d ← read_data g direction e;
                 g ← update_followers_of fuel g e;
                 p ← read_data g position e;
                 p' ← step_position d p;
                 write_data position e p' g)
              (λ k g, if decide (k ≤ head) then g = w else g = w2)) with (s := w)
    as (w' & Hw' & HI).
  - intros k g Hk HI.
    assert (world_wf g ∧ position_only w g) as [Hgwf Hgpo].
    { destruct (decide (k ≤ head)); subst g; [|done].
      split; [done | apply position_only_refl]. }
    exists (present w position k && present w direction k). split.
    { rewrite !has_component_inside by done.
      rewrite !(position_only_present w g) by done.
      by destruct (present w position k). }
    destruct (present w position k && present w direction k) eqn:Hb.
    + apply Honly in Hb; [|done]. subst k.
      rewrite decide_True in HI by lia. subst g.
      rewrite read_direction_at by done. cbn [mbind option_bind].
      rewrite Hw1. cbn [mbind option_bind].
      rewrite read_position_at by done. cbn [mbind option_bind].
      rewrite Hhead1, step_position_inside by done. cbn [mbind option_bind].
      exists w2. split; [done|]. by rewrite decide_False by lia.
    + assert (k ≠ head) as Hne.
      { intros ->. apply not_true_iff_false in Hb. apply Hb. by apply Honly. }
      destruct (decide (k ≤ head)).
      * by rewrite decide_True by lia.
      * by rewrite decide_False by lia.
  - by rewrite decide_True by lia.
  - rewrite decide_False in HI by lia. subst w'.
    exists w2. split; [done|]. split; [done|]. split; [done|].
    intros i. rewrite Hpos2. destruct (decide (i = head)); [done|]. apply Hpos1.
Qed.

(** X19 (the snake moves): in a well-formed world where [head] is the one
    entity with a position and a direction, where [head] and [body] make a
    snake, and where the coordinates of [head] are not at the ends of the
    range of [int], [update_interactables] moves [head] to the neighbouring
    cell in its direction, puts every entity of the body on the position
    that the entity before it in [head :: body] had, leaves every other
    position as it was, and changes nothing but positions. *)
Theorem update_interactables_moves (w : SnakeWorld) (head : Entity) (body : list Entity)
    (fuel : nat) :
  world_wf w → head < MAX_ENTITIES →
  (∀ k, k < MAX_ENTITIES →
        present w position k && present w direction k = true ↔ k = head) →
  snake w head body → (length body < fuel)%nat →
  inside_int (position_at w head) →
  ∃ w', update_interactables fuel w = Some w'
        ∧ position_only w w'
        ∧ position_at w' head = moved (direction_at w head) (position_at w head)
        ∧ (∀ k e l, body !! k = Some e → (head :: body) !! k = Some l →
                    position_at w' e = position_at w l)
        ∧ (∀ i, i ∉ head :: body → position_at w' i = position_at w i).
Proof.
  intros Hwf Hhead Honly Hsnake Hfuel Hint.
  destruct (update_interactables_snake w head body fuel Hwf Hhead Honly Hsnake Hfuel Hint)
    as (w' & Hw' & _ & Hpo & Hpos).
  pose proof (snake_NoDup w body head Hsnake) as Hnd.
  apply NoDup_cons in Hnd as [Hnot Hnd].
  exists w'. split; [done|]. split; [done|]. split_and!.
  - by rewrite Hpos, decide_True.
  - intros k e l He Hl. rewrite Hpos.
    rewrite decide_False by (intros ->; apply Hnot; by eapply list_elem_of_lookup_2).
    by eapply shifted_lookup.
  - intros i Hi. apply not_elem_of_cons in Hi as [Hne Hi].
    rewrite Hpos, decide_False by done. by apply shifted_outside.
Qed.

(** A property of every slot below [n], decided by running through them. *)
Lemma forallb_ids_below (q : Entity → bool) (n : N) :
  forallb q (ids_below n) = true → ∀ k, k < n → q k = true.
Proof.
  intros Hall k Hk. rewrite forallb_forall in Hall. apply Hall.
  apply list_elem_of_In. by apply elem_of_ids_below.
Qed.

Lemma only_slot_by_eval (q : Entity → bool) (e : Entity) :
  forallb (λ k, Bool.eqb (q k) (k =? e)) (ids_below MAX_ENTITIES) = true →
  ∀ k, k < MAX_ENTITIES → q k = true ↔ k = e.
Proof.
  intros Hall k Hk.
  pose proof (forallb_ids_below _ _ Hall k Hk) as Hq. simpl in Hq.
  apply Bool.eqb_prop in Hq. rewrite Hq. apply N.eqb_eq.
Qed.

(** In the opening world the head is at (5, 5) and heads right. *)
Lemma update_interactables_moves_witness :
  ∃ w w', opening_game = Some w
          ∧ update_interactables 3 w = Some w'
          ∧ position_at w' 0 = mkPosition 6 5
          ∧ position_at w' 1 = mkPosition 5 5
          ∧ position_at w' 2 = mkPosition 4 5
          ∧ position_at w' 3 = mkPosition 0 0.
Proof.
  eexists.
  match goal with
  | |- ∃ w', opening_game = Some ?w0 ∧ _ =>
      set (w := w0);
      assert (opening_game = Some w) as Hw by (vm_compute; reflexivity);
      assert (world_wf w) as Hwf by eval_world_wf;
      destruct (update_interactables_moves w 0 [1; 2] 3 Hwf)
        as (w' & Hw' & _ & Hhead & Hbody & Hrest)
  end.
  - reflexivity.
  - apply (only_slot_by_eval (λ k, present _ position k && present _ direction k)).
    vm_compute. reflexivity.
  - cbn [snake]. split; [vm_compute; reflexivity|]. split; vm_compute; reflexivity.
  - cbn [length]. lia.
  - vm_compute. repeat split.
  - exists w'. split; [exact Hw|]. split; [exact Hw'|]. split_and!.
    + rewrite Hhead. vm_compute. reflexivity.
    + rewrite (Hbody 0%nat 1 0) by reflexivity. vm_compute. reflexivity.
    + rewrite (Hbody 1%nat 2 1) by reflexivity. vm_compute. reflexivity.
    + rewrite Hrest; [vm_compute; reflexivity|].
      intros Hin. repeat (apply elem_of_cons in Hin as [Hin|Hin]; [discriminate|]).
      by apply elem_of_nil in Hin.
Defined.

(** ** The grid of [render] *)

Lemma grid_read_write (grid : list (list Z)) (px py : Z) (c : Z) :
  grid_shaped grid → on_board (mkPosition px py) →
  ∃ grid', grid_write grid px py c = Some grid'
           ∧ grid_shaped grid'
           ∧ ∀ qx qy, on_board (mkPosition qx qy) →
                      grid_read grid' qx qy
                      = if decide (qx = px ∧ qy = py) then Some c
                        else grid_read grid qx qy.
Proof.
  intros [Hlen Hrows] [Hx Hy]. simpl in Hx, Hy.
  unfold grid_write, index_of_int.
  replace (py <? 0)%Z with false by (symmetry; apply Z.ltb_ge; lia).
  replace (px <? 0)%Z with false by (symmetry; apply Z.ltb_ge; lia).
  cbn [mbind option_bind].
  destruct (array_read_inside grid (Z.to_N py)) as [row Hrow]; [lia|].
  rewrite Hrow. cbn [mbind option_bind].
  assert (length row = Z.to_nat WIDTH) as Hrlen.
  { apply Hrows. by eapply list_elem_of_lookup_2. }
  rewrite array_write_inside by lia. cbn [mbind option_bind].
  rewrite array_write_inside by lia.
  eexists. split; [done|]. split.
  - split; [by rewrite length_insert|].
    intros r Hr. apply list_elem_of_lookup in Hr as [i Hr].
    destruct (decide (i = N.to_nat (Z.to_N py))) as [->|Hne].
    + rewrite list_lookup_insert_eq in Hr by lia. simplify_eq.
      by rewrite length_insert.
    + rewrite list_lookup_insert_ne in Hr by done.
      apply Hrows. by eapply list_elem_of_lookup_2.
  - intros qx qy [Hqx Hqy]. simpl in Hqx, Hqy.
    unfold grid_read, index_of_int.
    replace (qy <? 0)%Z with false by (symmetry; apply Z.ltb_ge; lia).
    replace (qx <? 0)%Z with false by (symmetry; apply Z.ltb_ge; lia).
    cbn [mbind option_bind].
    destruct (decide (qy = py)) as [->|Hney].
    + rewrite array_read_insert by lia. cbn [mbind option_bind].
      rewrite Hrow. cbn [mbind option_bind].
      destruct (decide (qx = px)) as [->|Hnex].
      * rewrite decide_True by done. apply array_read_insert. lia.
      * rewrite decide_False by tauto. apply array_read_insert_ne. lia.
    + rewrite decide_False by tauto.
      rewrite array_read_insert_ne by lia. done.
Qed.

Lemma to_unsigned_guard (z bound : Z) :
  (INT_MIN ≤ z ≤ INT_MAX)%Z → (0 < bound ≤ INT_MAX)%Z →
  (to_unsigned z <? bound)%Z = true ↔ (0 ≤ z < bound)%Z.
Proof.
  unfold to_unsigned, INT_MIN, INT_MAX. intros Hz Hb. rewrite Z.ltb_lt.
  destruct (decide (0 ≤ z)%Z).
  - rewrite Z.mod_small by lia. lia.
  - replace z with (z + 2 ^ 32 - 1 * 2 ^ 32)%Z by lia.
    rewrite Zminus_mod, Z_mod_mult, Z.sub_0_r, Zmod_mod.
    rewrite Z.mod_small by lia. lia.
Qed.

Lemma board_guard (p : Position) :
  (INT_MIN ≤ x p ≤ INT_MAX)%Z → (INT_MIN ≤ y p ≤ INT_MAX)%Z →
  ((to_unsigned (x p) <? WIDTH) && (to_unsigned (y p) <? HEIGHT))%Z = true
  ↔ on_board p.
Proof.
  intros Hx Hy. rewrite andb_true_iff.
  rewrite (to_unsigned_guard (x p) WIDTH), (to_unsigned_guard (y p) HEIGHT);
    [done | done | by vm_compute | done | by vm_compute].
Qed.

Lemma read_drawable_at (w : SnakeWorld) (e : Entity) :
  world_wf w → e < MAX_ENTITIES →
  read_data w drawable e = Some (drawable_at w e).
Proof.
  intros Hwf He. unfold drawable_at.
  by destruct (read_data_inside w drawable e Hwf He) as [d ->].
Qed.

Lemma cell_upto_succ (w : SnakeWorld) (k : Entity) (px py : Z) :
  cell_upto w (k + 1) px py
  = if drawn_at w px py k then symbol (drawable_at w k) else cell_upto w k px py.
Proof.
  unfold cell_upto. rewrite ids_below_succ, filter_app, filter_cons, filter_nil.
  destruct (drawn_at w px py k); simpl.
  - by rewrite last_snoc.
  - by rewrite app_nil_r.
Qed.

(** X20 (the grid of render): in a well-formed world whose positions are
    values of [int], the grid is built without a write outside it, has
    [HEIGHT] rows of [WIDTH] characters, and every cell of the board holds
    the symbol of the drawable entity with the greatest identifier among
    those positioned on it, or '.' when there is none.  Entities off the
    board leave no trace. *)
Theorem render_grid_spec (w : SnakeWorld) :
  world_wf w → positions_are_ints w →
  ∃ grid, render_grid w = Some grid
          ∧ grid_shaped grid
          ∧ ∀ px py, on_board (mkPosition px py) →
                     grid_read grid px py = Some (cell_upto w MAX_ENTITIES px py).
Proof.
  intros Hwf Hints. unfold render_grid.
  pose (I := λ (k : Entity) (grid : list (list Z)),
          grid_shaped grid
          ∧ ∀ px py, on_board (mkPosition px py) →
                     grid_read grid px py = Some (cell_upto w k px py)).
  destruct (foreach_do_invariant
              (λ (_ : list (list Z)) e,
                 and_then (MECS_HAS_COMPONENT w drawable e)
                          (MECS_HAS_COMPONENT w position e))
              (λ e grid,
                 p ← read_data w position e;
                 if ((to_unsigned (x p) <? WIDTH) && (to_unsigned (y p) <? HEIGHT))%Z then
                   d ← read_data w drawable e;
                   grid_write grid (x p) (y p) (symbol d)
                 else Some grid) I)
    with (s := replicate (Z.to_nat HEIGHT) (replicate (Z.to_nat WIDTH) 46%Z))
    as (grid & Hgrid & HI).
  - intros k grid Hk [Hshape Hcells].
    exists (present w drawable k && present w position k). split.
    { rewrite !has_component_inside by done. by destruct (present w drawable k). }
    destruct (Hints k Hk) as [Hx Hy].
    destruct (present w drawable k && present w position k) eqn:Hb.
    + rewrite read_position_at by done. cbn [mbind option_bind].
      destruct ((to_unsigned (x (position_at w k)) <? WIDTH)
                && (to_unsigned (y (position_at w k)) <? HEIGHT))%Z eqn:Hguard.
      * apply board_guard in Hguard; [|done|done].
        rewrite read_drawable_at by done. cbn [mbind option_bind].
        destruct (grid_read_write grid (x (position_at w k)) (y (position_at w k))
                    (symbol (drawable_at w k)) Hshape)
          as (grid' & Hgrid' & Hshape' & Hread); [by destruct (position_at w k)|].
        exists grid'. split; [done|]. split; [done|].
        intros px py Hcell. rewrite Hread, cell_upto_succ by done.
        unfold drawn_at. rewrite Hb. simpl.
        destruct (decide (px = x (position_at w k) ∧ py = y (position_at w k)))
          as [[-> ->]|Hne].
        -- replace (positions_equal _ _) with true; [done|].
           symmetry. apply positions_equal_eq. by destruct (position_at w k).
        -- replace (positions_equal _ _) with false; [by apply Hcells|].
           symmetry. apply not_true_iff_false. intros Heq.
           apply positions_equal_eq in Heq. apply Hne. by rewrite Heq.
      * exists grid. split; [done|]. split; [done|].
        intros px py Hcell. rewrite cell_upto_succ.
        unfold drawn_at. rewrite Hb. simpl.
        replace (positions_equal _ _) with false; [by apply Hcells|].
        symmetry. apply not_true_iff_false. intros Heq.
        apply positions_equal_eq in Heq.
        apply not_true_iff_false in Hguard. apply Hguard.
        apply board_guard; [done|done|]. by rewrite Heq.
    + split; [done|]. intros px py Hcell. rewrite cell_upto_succ.
      unfold drawn_at. rewrite Hb. simpl. by apply Hcells.
  - split.
    + split; [by rewrite length_replicate|].
      intros row Hrow. apply elem_of_replicate in Hrow as [-> _].
      by rewrite length_replicate.
    + intros px py [Hx Hy]. simpl in Hx, Hy.
      unfold grid_read, index_of_int, array_read.
      replace (py <? 0)%Z with false by (symmetry; apply Z.ltb_ge; lia).
      replace (px <? 0)%Z with false by (symmetry; apply Z.ltb_ge; lia).
      cbn [mbind option_bind].
      rewrite lookup_replicate_2 by lia. cbn [mbind option_bind].
      rewrite lookup_replicate_2 by lia. done.
  - exists grid. split; [done|]. done.
Qed.

Lemma positions_are_ints_by_eval (w : SnakeWorld) :
  forallb (λ e, ((INT_MIN <=? x (position_at w e)) && (x (position_at w e) <=? INT_MAX)
                 && (INT_MIN <=? y (position_at w e)) && (y (position_at w e) <=? INT_MAX))%Z)
    (ids_below MAX_ENTITIES) = true →
  positions_are_ints w.
Proof.
  intros Hall e He. apply (forallb_ids_below _ _ Hall) in He.
  rewrite !andb_true_iff, !Z.leb_le in He. lia.
Qed.

(** The opening world: the head 'O' at (5, 5), a segment 'o' at (4, 5), the
    apple '@' at (0, 0), nothing at (7, 7). *)
Lemma render_grid_spec_witness :
  ∃ w grid, opening_game = Some w
            ∧ render_grid w = Some grid
            ∧ grid_read grid 5 5 = Some 79%Z
            ∧ grid_read grid 4 5 = Some 111%Z
            ∧ grid_read grid 0 0 = Some 64%Z
            ∧ grid_read grid 7 7 = Some 46%Z.
Proof.
  eexists.
  match goal with
  | |- ∃ grid, opening_game = Some ?w0 ∧ _ =>
      set (w := w0);
      assert (opening_game = Some w) as Hw by (vm_compute; reflexivity);
      assert (world_wf w) as Hwf by eval_world_wf;
      destruct (render_grid_spec w Hwf) as (grid & Hgrid & _ & Hcells)
  end.
  - apply positions_are_ints_by_eval. vm_compute. reflexivity.
  - exists grid. split; [exact Hw|]. split; [exact Hgrid|].
    rewrite !Hcells by (vm_compute; repeat split; discriminate).
    vm_compute. repeat split.
Defined.

(** ** [place_edible] *)

Lemma is_occupied_defined (w : SnakeWorld) (pos : Position) :
  world_wf w → is_Some (is_occupied w pos).
Proof.
  intros Hwf. unfold is_occupied.
  rewrite (foreach_any_all _ _ (present w position)
             (λ e, positions_equal (position_at w e) pos)).
  - by eexists.
  - intros e He. by apply has_component_inside.
  - intros e He _. by rewrite read_position_at.
Qed.

Lemma rem_on_board (rx ry : Z) :
  (0 ≤ rx)%Z → (0 ≤ ry)%Z → on_board (mkPosition (Z.rem rx WIDTH) (Z.rem ry HEIGHT)).
Proof.
  intros Hx Hy. unfold on_board, WIDTH, HEIGHT. simpl.
  pose proof (Z.rem_bound_pos rx 20). pose proof (Z.rem_bound_pos ry 10). lia.
Qed.

(** The draws of [place_edible]. *)
Lemma place_edible_draw_spec (w : SnakeWorld) (rands : list Z) :
  world_wf w → Forall (λ r, (0 ≤ r)%Z) rands →
  (∀ pos rest, place_edible_draw rands w = Some (pos, rest) →
               on_board pos ∧ is_occupied w pos = Some false
               ∧ ∃ used, rands = used ++ rest)
  ∧ (finds_free_cell rands w → is_Some (place_edible_draw rands w)).
Proof.
  intros Hwf.
  induction rands as [rands IH] using (induction_ltof1 _ (@length Z)).
  unfold ltof in IH. intros Hpos.
  destruct rands as [|rx [|ry rest]]; simpl; [by split | by split |].
  apply Forall_cons in Hpos as [Hrx Hpos]. apply Forall_cons in Hpos as [Hry Hpos].
  destruct (IH rest) as [IHa IHb]; [simpl; lia | done |].
  destruct (is_occupied_defined w (mkPosition (Z.rem rx WIDTH) (Z.rem ry HEIGHT)) Hwf)
    as [occ Hocc].
  rewrite Hocc. cbn [mbind option_bind]. destruct occ; split.
  - intros pos rest' Hdraw. destruct (IHa pos rest' Hdraw) as (Hb & Hfree & used & ->).
    split; [done|]. split; [done|]. by exists (rx :: ry :: used).
  - intros [Hfree|Hlater]; [done|]. by apply IHb.
  - intros pos rest' [= <- <-]. split; [by apply rem_on_board|]. split; [done|].
    by exists [rx; ry].
  - intros _. by eexists.
Qed.

Lemma place_edible_inside (w : SnakeWorld) (rands : list Z) (edible : Entity) :
  world_wf w → edible < MAX_ENTITIES → Forall (λ r, (0 ≤ r)%Z) rands →
  (finds_free_cell rands w → is_Some (place_edible rands w edible))
  ∧ ∀ g rest,
      place_edible rands w edible = Some (g, rest) →
      MECS_HAS_COMPONENT g position edible = Some true
      ∧ on_board (position_at g edible)
      ∧ is_occupied w (position_at g edible) = Some false
      ∧ (∀ i, i ≠ edible →
              position_at g i = position_at w i
              ∧ MECS_HAS_COMPONENT g position i = MECS_HAS_COMPONENT w position i)
      ∧ (∀ n, n ≠ position → component n g = component n w)
      ∧ em g = em w ∧ score g = score w
      ∧ ∃ used, rands = used ++ rest.
Proof.
  intros Hwf He Hpos.
  destruct (place_edible_draw_spec w rands Hwf Hpos) as [Hdraw Hends].
  destruct (slot_inside w position edible Hwf He) as [Hd Hf].
  unfold place_edible. split.
  - intros Hfree. destruct (Hends Hfree) as [[pos rest] ->]. cbn [mbind option_bind].
    rewrite set_component_inside by done. by eexists.
  - intros g rest Hplace.
    destruct (place_edible_draw rands w) as [[pos rest']|]; [|done].
    cbn [mbind option_bind] in Hplace.
    rewrite set_component_inside in Hplace by done.
    cbn [mbind option_bind] in Hplace. injection Hplace as Hg Hrest. subst rest'.
    destruct (Hdraw pos rest eq_refl) as (Hboard & Hfree & Hused).
    assert (position_at g edible = pos) as Hat.
    { rewrite <- Hg. unfold position_at, read_data. simpl.
      by rewrite array_read_insert. }
    rewrite Hat. split_and!; try done.
    + rewrite <- Hg. unfold MECS_HAS_COMPONENT. simpl. by apply array_read_insert.
    + intros i Hi. rewrite <- Hg. split.
      * unfold position_at, read_data. simpl. by rewrite array_read_insert_ne.
      * unfold MECS_HAS_COMPONENT. simpl. by rewrite array_read_insert_ne.
    + intros n Hn. rewrite <- Hg. by destruct n.
    + by rewrite <- Hg.
    + by rewrite <- Hg.
Qed.

(** The loop of [place_edible] ends at the first pair of draws that names a
    free cell, with that cell. *)
Lemma place_edible_draw_first (w : SnakeWorld) (tried : list Z) (rx ry : Z)
    (rest : list Z) :
  all_occupied tried w →
  is_occupied w (mkPosition (Z.rem rx WIDTH) (Z.rem ry HEIGHT)) = Some false →
  place_edible_draw (tried ++ rx :: ry :: rest) w
  = Some (mkPosition (Z.rem rx WIDTH) (Z.rem ry HEIGHT), rest).
Proof.
  intros Htried Hfree.
  induction tried as [tried IH] using (induction_ltof1 _ (@length Z)).
  unfold ltof in IH.
  destruct tried as [|tx [|ty tried']]; [| done |].
  - cbn [app place_edible_draw]. by rewrite Hfree.
  - destruct Htried as [Hocc Htried].
    change ((tx :: ty :: tried') ++ rx :: ry :: rest)
      with (tx :: ty :: (tried' ++ rx :: ry :: rest)).
    cbn [place_edible_draw]. rewrite Hocc. cbn [mbind option_bind].
    apply IH; [simpl; lia | done].
Qed.

(** Where the loop of [place_edible] has ended, every pair of draws before
    the last one used named an occupied cell. *)
Lemma place_edible_draw_stops (w : SnakeWorld) (rands : list Z) (pos : Position)
    (rest : list Z) :
  place_edible_draw rands w = Some (pos, rest) →
  ∃ tried rx ry,
    rands = tried ++ rx :: ry :: rest
    ∧ all_occupied tried w
    ∧ pos = mkPosition (Z.rem rx WIDTH) (Z.rem ry HEIGHT)
    ∧ is_occupied w pos = Some false.
Proof.
  induction rands as [rands IH] using (induction_ltof1 _ (@length Z)).
  unfold ltof in IH. intros Hdraw.
  destruct rands as [|rx [|ry rands']]; [done | done |].
  cbn [place_edible_draw] in Hdraw.
  destruct (is_occupied w (mkPosition (Z.rem rx WIDTH) (Z.rem ry HEIGHT)))
    as [[|]|] eqn:Hocc; cbn [mbind option_bind] in Hdraw; [| |done].
  - destruct (IH rands') as (tried & qx & qy & -> & Htried & Hpos & Hfree);
      [simpl; lia | done |].
    exists (rx :: ry :: tried), qx, qy. split; [done|]. split; [|done].
    cbn [all_occupied]. by split.
  - injection Hdraw as <- <-. exists [], rx, ry. by split_and!.
Qed.

(** X21 (place_edible): in a well-formed world, for an edible below
    [MAX_ENTITIES] and values of [rand] that are not negative,
    [place_edible] ends if some pair of draws names a free cell.  It ends
    at the first such pair: when the draws before the pair [rx], [ry] all
    name occupied cells and this pair names a free one, the edible is put
    on the cell [(rx % WIDTH, ry % HEIGHT)] and the draws after the pair
    are left.  Whenever it ends, the draws split in this way, the edible has
    a position, on the board and on a cell that no entity with a position
    occupied before, while no other position, no other component, neither
    manager nor score has changed. *)
Theorem place_edible_spec (w : SnakeWorld) (rands : list Z) (edible : Entity) :
  world_wf w → edible < MAX_ENTITIES → Forall (λ r, (0 ≤ r)%Z) rands →
  (finds_free_cell rands w → is_Some (place_edible rands w edible))
  ∧ (∀ tried rx ry rest,
       rands = tried ++ rx :: ry :: rest →
       all_occupied tried w →
       is_occupied w (mkPosition (Z.rem rx WIDTH) (Z.rem ry HEIGHT)) = Some false →
       ∃ g, place_edible rands w edible = Some (g, rest)
            ∧ position_at g edible = mkPosition (Z.rem rx WIDTH) (Z.rem ry HEIGHT))
  ∧ ∀ g rest,
      place_edible rands w edible = Some (g, rest) →
      MECS_HAS_COMPONENT g position edible = Some true
      ∧ on_board (position_at g edible)
      ∧ is_occupied w (position_at g edible) = Some false
      ∧ (∀ i, i ≠ edible →
              position_at g i = position_at w i
              ∧ MECS_HAS_COMPONENT g position i = MECS_HAS_COMPONENT w position i)
      ∧ (∀ n, n ≠ position → component n g = component n w)
      ∧ em g = em w ∧ score g = score w
      ∧ ∃ tried rx ry,
          rands = tried ++ rx :: ry :: rest
          ∧ all_occupied tried w
          ∧ position_at g edible = mkPosition (Z.rem rx WIDTH) (Z.rem ry HEIGHT).
Proof.
  intros Hwf He Hpos.
  destruct (place_edible_inside w rands edible Hwf He Hpos) as [Hends Hplaced].
  destruct (slot_inside w position edible Hwf He) as [Hd Hf].
  assert (∀ pos rest g,
            place_edible_draw rands w = Some (pos, rest) →
            place_edible rands w edible = Some (g, rest) →
            position_at g edible = pos) as Hat.
  { intros pos rest g Hdraw Hplace. unfold place_edible in Hplace.
    rewrite Hdraw in Hplace. cbn [mbind option_bind] in Hplace.
    rewrite set_component_inside in Hplace by done.
    cbn [mbind option_bind] in Hplace. injection Hplace as <-.
    unfold position_at, read_data. simpl. by rewrite array_read_insert. }
  split; [done|]. split.
  - intros tried rx ry rest -> Htried Hfree.
    pose proof (place_edible_draw_first w tried rx ry rest Htried Hfree) as Hdraw.
    assert (∃ g, place_edible (tried ++ rx :: ry :: rest) w edible = Some (g, rest))
      as [g Hg].
    { unfold place_edible. rewrite Hdraw. cbn [mbind option_bind].
      rewrite set_component_inside by done. by eexists. }
    exists g. split; [done|]. by eapply Hat.
  - intros g rest Hplace.
    destruct (Hplaced g rest Hplace)
      as (Hflag & Hboard & Hfree & Hothers & Hcomps & Hem & Hscore & _).
    split_and!; try done.
    destruct (place_edible_draw rands w) as [[pos rest']|] eqn:Hdraw;
      [|by unfold place_edible in Hplace; rewrite Hdraw in Hplace].
    assert (rest' = rest) as ->.
    { unfold place_edible in Hplace. rewrite Hdraw in Hplace.
      cbn [mbind option_bind] in Hplace.
      rewrite set_component_inside in Hplace by done.
      cbn [mbind option_bind] in Hplace. by injection Hplace. }
    destruct (place_edible_draw_stops w rands pos rest Hdraw)
      as (tried & rx & ry & Hsplit & Htried & Hpos' & _).
    exists tried, rx, ry. split; [done|]. split; [done|].
    rewrite <- Hpos'. by eapply Hat.
Qed.

(** In the opening world the cell (5, 5) holds the head, (7, 3) and (8, 4)
    are free: the draws 25, 5 are rejected, the draws 7, 13 accepted, the
    draws 8, 14 left. *)
Lemma place_edible_spec_witness :
  ∃ w g, opening_game = Some w
         ∧ place_edible [25; 5; 7; 13; 8; 14]%Z w 3 = Some (g, [8; 14]%Z)
         ∧ position_at g 3 = mkPosition 7 3
         ∧ on_board (position_at g 3)
         ∧ is_occupied w (position_at g 3) = Some false.
Proof.
  eexists.
  match goal with
  | |- ∃ g, opening_game = Some ?w0 ∧ _ =>
      set (w := w0);
      assert (opening_game = Some w) as Hw by (vm_compute; reflexivity);
      assert (world_wf w) as Hwf by eval_world_wf;
      destruct (place_edible_spec w [25; 5; 7; 13; 8; 14]%Z 3 Hwf)
        as (_ & Hfirst & Hspec)
  end.
  - reflexivity.
  - repeat (apply Forall_cons; split; [discriminate|]). apply Forall_nil_2.
  - destruct (Hfirst [25; 5]%Z 7%Z 13%Z [8; 14]%Z) as (g & Hplace & Hat).
    + reflexivity.
    + cbn [all_occupied]. split; [vm_compute; reflexivity | exact I].
    + vm_compute. reflexivity.
    + destruct (Hspec g [8; 14]%Z Hplace) as (_ & Hboard & Hfree & _).
      exists g. split; [exact Hw|]. split; [exact Hplace|].
      split; [rewrite Hat; vm_compute; reflexivity|].
      split; [exact Hboard | exact Hfree].
Defined.

(** ** [update_edibles] *)

(** Without a meal every turn of both loops of [update_edibles] leaves the
    state as it was. *)
Lemma update_edibles_idle (fuel : nat) (w : SnakeWorld) (rands : list Z) :
  world_wf w →
  (∀ mouth food, mouth < MAX_ENTITIES → food < MAX_ENTITIES →
                 meal w mouth food = false) →
  update_edibles fuel (w, rands) = Some (w, rands).
Proof.
  intros Hwf Hnone. unfold update_edibles.
  destruct (foreach_do_invariant
              (λ (st : Play) mouth,
                 and_then (MECS_HAS_COMPONENT (fst st) position mouth)
                          (MECS_HAS_COMPONENT (fst st) consumer mouth))
              (λ mouth st,
                 foreach_do foreach_fuel
                   (λ st food, and_then (MECS_HAS_COMPONENT (fst st) position food)
                                        (MECS_HAS_COMPONENT (fst st) edible food))
                   (λ food st, eat fuel mouth food st)
                   0 st)
              (λ _ st, st = (w, rands))) with (s := (w, rands))
    as (st' & Hst' & ->); [|done|done].
  intros mouth st Hmouth ->. simpl fst.
  exists (present w position mouth && present w consumer mouth). split.
  { rewrite !has_component_inside by done. by destruct (present w position mouth). }
  destruct (present w position mouth && present w consumer mouth) eqn:Hm; [|done].
  destruct (foreach_do_invariant
              (λ (st : Play) food,
                 and_then (MECS_HAS_COMPONENT (fst st) position food)
                          (MECS_HAS_COMPONENT (fst st) edible food))
              (λ food st, eat fuel mouth food st)
              (λ _ st, st = (w, rands))) with (s := (w, rands))
    as (st' & Hst' & ->); [|done|by exists (w, rands)].
  intros food st Hfood ->. simpl fst.
  exists (present w position food && present w edible food). split.
  { rewrite !has_component_inside by done. by destruct (present w position food). }
  destruct (present w position food && present w edible food) eqn:Hf; [|done].
  exists (w, rands). split; [|done].
  unfold eat. rewrite !read_position_at by done. cbn [mbind option_bind].
  specialize (Hnone mouth food Hmouth Hfood). unfold meal in Hnone.
  rewrite Hm, Hf in Hnone. simpl in Hnone. by rewrite Hnone.
Qed.

(** X22 (nothing to eat): in a well-formed world in which no entity that
    has a position and the consumer tag shares its cell with an entity that
    has a position and the edible component, [update_edibles] returns the
    world as it was and draws no random number. *)
Theorem update_edibles_without_meal (fuel : nat) (w : SnakeWorld) (rands : list Z) :
  world_wf w →
  (∀ mouth food, mouth < MAX_ENTITIES → food < MAX_ENTITIES →
                 meal w mouth food = false) →
  update_edibles fuel (w, rands) = Some (w, rands).
Proof. apply update_edibles_idle. Qed.

(** In the opening world the head is at (5, 5) and the apple at (0, 0). *)
Lemma update_edibles_without_meal_witness :
  ∃ w, opening_game = Some w ∧ update_edibles 3 (w, [4; 2]%Z) = Some (w, [4; 2]%Z).
Proof.
  eexists.
  match goal with
  | |- opening_game = Some ?w0 ∧ _ =>
      set (w := w0);
      assert (opening_game = Some w) as Hw by (vm_compute; reflexivity);
      assert (world_wf w) as Hwf by eval_world_wf
  end.
  split; [exact Hw|].
  apply (update_edibles_without_meal 3 w [4; 2]%Z Hwf).
  intros mouth food Hmouth Hfood.
  apply (forallb_ids_below
           (λ mouth, if present w position mouth && present w consumer mouth
                     then forallb (λ food, negb (meal w mouth food))
                            (ids_below MAX_ENTITIES)
                     else true))
    in Hmouth; [|vm_compute; reflexivity].
  unfold meal.
  destruct (present w position mouth && present w consumer mouth) eqn:Hflags;
    [|reflexivity].
  apply (forallb_ids_below _ _ Hmouth) in Hfood. apply negb_true_iff in Hfood.
  unfold meal in Hfood. rewrite Hflags in Hfood. exact Hfood.
Defined.

(** ** A meal *)

Lemma read_edible_at (w : SnakeWorld) (e : Entity) :
  world_wf w → e < MAX_ENTITIES →
  read_data w edible e = Some (edible_at w e).
Proof.
  intros Hwf He. unfold edible_at.
  by destruct (read_data_inside w edible e Hwf He) as [d ->].
Qed.

Lemma is_occupied_true (w : SnakeWorld) (pos : Position) :
  world_wf w →
  is_occupied w pos
  = Some (existsb (λ e, present w position e && positions_equal (position_at w e) pos)
            (ids_below MAX_ENTITIES)).
Proof.
  intros Hwf. unfold is_occupied. apply foreach_any_all.
  - intros e He. by apply has_component_inside.
  - intros e He _. by rewrite read_position_at.
Qed.

(** A world that differs from [w] in the score only. *)
Lemma set_score_wf (s : Z) (w : SnakeWorld) : world_wf w → world_wf (set_score s w).
Proof. intros [Hm Hc]. split; [done|]. intros n. specialize (Hc n). by destruct n. Qed.

Lemma component_set_score (n : Name) (s : Z) (w : SnakeWorld) :
  component n (set_score s w) = component n w.
Proof. by destruct n. Qed.

(** Worlds with the same components have the same followers. *)
Lemma followers_same_components (w g : SnakeWorld) (l : Entity) :
  (∀ n, component n g = component n w) → followers g l = followers w l.
Proof.
  intros Hsame. unfold followers. apply filter_same. intros i _.
  unfold follows, follower_at, present, MECS_HAS_COMPONENT, read_data.
  by rewrite !Hsame.
Qed.

Lemma snake_same_followers (w g : SnakeWorld) (body : list Entity) (lead : Entity) :
  (∀ l, followers g l = followers w l) → snake w lead body → snake g lead body.
Proof.
  intros Hsame. revert lead. induction body as [|e body IH]; intros lead Hsnake; simpl in *.
  - by rewrite Hsame.
  - destruct Hsnake as [Hfol Hsnake]. split; [by rewrite Hsame | by apply IH].
Qed.

(** [grow] on a snake, with what it leaves of every component. *)
Lemma grow_inside (w : SnakeWorld) (lead : Entity) (body : list Entity)
    (fuel : nat) (e : Entity) (m : EntityManager) :
  world_wf w → lead < MAX_ENTITIES → snake w lead body →
  (length body < fuel)%nat →
  mecs_entity_create (em w) = Some (e, m) → e < MAX_ENTITIES →
  let tail := default lead (last body) in
  ∃ g, grow fuel w lead = Some g
       ∧ world_wf g
       ∧ em g = m ∧ score g = score w
       ∧ component position g =
           mkComponent (<[N.to_nat e := position_at w tail]> (data (component position w)))
                       (<[N.to_nat e := true]> (flag (component position w)))
       ∧ component follower g =
           mkComponent (<[N.to_nat e := tail]> (data (component follower w)))
                       (<[N.to_nat e := true]> (flag (component follower w)))
       ∧ component consumer g = component consumer w
       ∧ component edible g = component edible w.
Proof.
  intros Hwf Hlead Hsnake Hfuel Hcreate He tail.
  assert (tail < MAX_ENTITIES) as Htail.
  { unfold tail. destruct (last body) as [t|] eqn:Hlast; [|done]. simpl.
    apply (snake_body_inside w body lead Hsnake).
    apply last_Some in Hlast as [l' ->]. apply elem_of_app. right.
    by apply list_elem_of_singleton. }
  destruct (create_snake_segment_inside w (position_at w tail) tail e m Hwf Hcreate He)
    as (g & Hg & Hgwf & Hem & Hsc & Hpos & Hfol & _ & _ & Hcons & _ & Hed & _).
  exists g. split; [|done].
  unfold grow. rewrite (last_follower_walk w lead body) by done.
  fold tail. cbn [mbind option_bind].
  rewrite read_position_at by done. cbn [mbind option_bind].
  by rewrite Hg.
Qed.

Lemma finds_free_cell_same (w g : SnakeWorld) (rands : list Z) :
  (∀ pos, is_occupied g pos = is_occupied w pos) →
  finds_free_cell rands w → finds_free_cell rands g.
Proof.
  intros Hsame.
  induction rands as [rands IH] using (induction_ltof1 _ (@length Z)).
  unfold ltof in IH.
  destruct rands as [|rx [|ry rest]]; simpl; [done | done |].
  intros [Hfree|Hlater]; [left; by rewrite Hsame | right; apply IH; [simpl; lia | done]].
Qed.

(** A segment made on a cell that is occupied already leaves the occupied
    cells as they were. *)
Lemma is_occupied_with_segment (w g : SnakeWorld) (e tail : Entity) (pos : Position) :
  world_wf w → world_wf g → e < MAX_ENTITIES → tail < MAX_ENTITIES →
  present w position tail = true →
  component position g =
    mkComponent (<[N.to_nat e := position_at w tail]> (data (component position w)))
                (<[N.to_nat e := true]> (flag (component position w))) →
  present w position e = false →
  is_occupied g pos = is_occupied w pos.
Proof.
  intros Hwf Hgwf He Htail Hptail Hpos Hfree.
  rewrite !is_occupied_true by done. f_equal.
  assert (∀ k, present g position k = if decide (k = e) then true else present w position k)
    as Hflag.
  { intros k. apply present_flag_insert; [done | done | by rewrite Hpos]. }
  assert (∀ k, position_at g k
               = if decide (k = e) then position_at w tail else position_at w k) as Hat.
  { intros k. unfold position_at.
    rewrite (read_data_insert w g position e k (position_at w tail))
      by (done || by rewrite Hpos).
    by destruct (decide (k = e)). }
  apply eq_true_iff_eq. rewrite !existsb_ids_below. split.
  - intros (k & Hk & Hq). rewrite Hflag, Hat in Hq.
    destruct (decide (k = e)) as [->|Hne].
    + exists tail. split; [done|]. by rewrite Hptail.
    + by exists k.
  - intros (k & Hk & Hq). exists k. split; [done|]. rewrite Hflag, Hat.
    destruct (decide (k = e)) as [->|Hne]; [|done].
    by rewrite Hfree in Hq.
Qed.

Section meal.
Variables (w : SnakeWorld) (head apple e : Entity) (body : list Entity).
Variables (fuel : nat) (m : EntityManager) (rands : list Z).
Hypothesis Hwf : world_wf w.
Hypothesis Hhead : head < MAX_ENTITIES.
Hypothesis Happle : apple < MAX_ENTITIES.
Hypothesis Hmouths :
  ∀ k, k < MAX_ENTITIES →
       present w position k && present w consumer k = true ↔ k = head.
Hypothesis Hfoods :
  ∀ k, k < MAX_ENTITIES →
       present w position k && present w edible k = true ↔ k = apple.
Hypothesis Hcell : position_at w head = position_at w apple.
Hypothesis Hgrows : grows (edible_at w apple) = true.
Hypothesis Hresets : resets (edible_at w apple) = true.
Hypothesis Hscore :
  (INT_MIN ≤ score w + points (edible_at w apple) ≤ INT_MAX)%Z.
Hypothesis Hsnake : snake w head body.
Hypothesis Hfuel : (length body < fuel)%nat.
Hypothesis Hcreate : mecs_entity_create (em w) = Some (e, m).
Hypothesis He : e < MAX_ENTITIES.
Hypothesis Hclean : ∀ n, MECS_HAS_COMPONENT w n e = Some false.
Hypothesis Hnofol : followers w e = [].
Hypothesis Hrands : Forall (λ r, (0 ≤ r)%Z) rands.
Hypothesis Hfree : finds_free_cell rands w.

Lemma meal_clean_slot (n : Name) : present w n e = false.
Proof. unfold present. rewrite Hclean. by apply bool_decide_eq_false_2. Qed.

Lemma meal_head_positioned : present w position head = true.
Proof.
  assert (present w position head && present w consumer head = true) as H
    by (by apply Hmouths).
  by apply andb_true_iff in H as [? _].
Qed.

Lemma meal_apple_positioned : present w position apple = true.
Proof.
  assert (present w position apple && present w edible apple = true) as H
    by (by apply Hfoods).
  by apply andb_true_iff in H as [? _].
Qed.

Lemma meal_fresh_slot : e ≠ head ∧ e ≠ apple.
Proof.
  split; intros Heq.
  - pose proof meal_head_positioned as H. rewrite <- Heq in H.
    by rewrite meal_clean_slot in H.
  - pose proof meal_apple_positioned as H. rewrite <- Heq in H.
    by rewrite meal_clean_slot in H.
Qed.

Lemma meal_tail_positioned :
  default head (last body) < MAX_ENTITIES
  ∧ present w position (default head (last body)) = true.
Proof.
  destruct (last body) as [t|] eqn:Hlast; simpl.
  - apply (snake_body_inside w body head Hsnake).
    apply last_Some in Hlast as [l' ->]. apply elem_of_app. right.
    by apply list_elem_of_singleton.
  - split; [done | apply meal_head_positioned].
Qed.

(** The body of the loops at the mouth and the food that meet. *)
Lemma eat_apple :
  ∃ g rest,
    eat fuel head apple (w, rands) = Some (g, rest)
    ∧ world_wf g
    ∧ score g = (score w + points (edible_at w apple))%Z
    ∧ em g = m
    ∧ snake g head (body ++ [e])
    ∧ position_at g e = position_at w (default head (last body))
    ∧ on_board (position_at g apple)
    ∧ is_occupied w (position_at g apple) = Some false
    ∧ (∀ i, i ≠ e → i ≠ apple → position_at g i = position_at w i)
    ∧ (∀ k, present g position k = if decide (k = e) then true else present w position k)
    ∧ component consumer g = component consumer w
    ∧ component edible g = component edible w
    ∧ ∃ used, rands = used ++ rest.
Proof.
  destruct meal_fresh_slot as [Hne_head Hne_apple].
  destruct meal_tail_positioned as [Htail Hptail].
  set (tail := default head (last body)) in Htail, Hptail |- *.
  set (s := (score w + points (edible_at w apple))%Z).
  set (g1 := set_score s w).
  assert (world_wf g1) as Hwf1 by (by apply set_score_wf).
  assert (∀ n, component n g1 = component n w) as Hcomp1
    by (intros n; apply component_set_score).
  assert (snake g1 head body) as Hsnake1.
  { apply (snake_same_followers w); [|done].
    intros l. by apply followers_same_components. }
  assert (position_at g1 tail = position_at w tail) as Htail1.
  { unfold position_at, read_data. by rewrite Hcomp1. }
  destruct (grow_inside g1 head body fuel e m Hwf1 Hhead Hsnake1 Hfuel Hcreate He)
    as (g2 & Hg2 & Hwf2 & Hem2 & Hsc2 & Hpos2 & Hfol2 & Hcons2 & Hed2).
  fold tail in Hpos2, Hfol2. rewrite Htail1, !Hcomp1 in Hpos2.
  rewrite !Hcomp1 in Hfol2. rewrite Hcomp1 in Hcons2, Hed2.
  assert (present w position e = false) as Hfree_e by apply meal_clean_slot.
  destruct (followers_with_segment w g2 e tail (position_at w tail)
              Hwf He Hfree_e Hpos2 Hfol2) as (_ & Hsame2 & Hnew2).
  assert (e ≠ tail) as Hne_tail.
  { intros Heq. rewrite Heq in Hfree_e. by rewrite Hptail in Hfree_e. }
  assert (snake g2 head (body ++ [e])) as Hsnake2.
  { apply (snake_extend w); fold tail.
    - done.
    - done.
    - apply Hnew2. by apply snake_tail_has_no_follower.
    - by rewrite Hsame2. }
  assert (∀ pos, is_occupied g2 pos = is_occupied w pos) as Hocc2.
  { intros pos. by apply (is_occupied_with_segment w g2 e tail). }
  destruct (place_edible_inside g2 rands apple Hwf2 Happle Hrands) as [Hends Hplaced].
  destruct (Hends (finds_free_cell_same w g2 rands Hocc2 Hfree)) as [[g3 rest] Hg3].
  destruct (Hplaced g3 rest Hg3)
    as (Hflag3 & Hboard3 & Hfree3 & Hrest3 & Hoth3 & Hem3 & Hsc3 & Hused3).
  assert (∀ k, present g2 position k = if decide (k = e) then true else present w position k)
    as Hpres2.
  { intros k. apply present_flag_insert; [done | done | by rewrite Hpos2]. }
  assert (∀ k, present g3 position k = present g2 position k) as Hpres3.
  { intros k. unfold present. destruct (decide (k = apple)) as [->|Hk].
    - rewrite Hflag3. fold (present g2 position apple). rewrite Hpres2.
      rewrite decide_False by done. by rewrite meal_apple_positioned.
    - by destruct (Hrest3 k Hk) as [_ ->]. }
  assert (world_wf g3) as Hwf3.
  { unfold place_edible in Hg3.
    destruct (place_edible_draw rands g2) as [[pos rest']|]; [|done].
    cbn [mbind option_bind] in Hg3.
    destruct (MECS_SET_COMPONENT g2 position apple pos) as [g3'|] eqn:Hset; [|done].
    cbn [mbind option_bind] in Hg3. simplify_eq.
    by eapply set_component_macro_wf. }
  exists g3, rest. split_and!.
  - unfold eat. rewrite !read_position_at by done. cbn [mbind option_bind].
    rewrite Hcell. replace (positions_equal _ _) with true
      by (symmetry; by apply positions_equal_eq).
    rewrite read_edible_at by done. cbn [mbind option_bind].
    unfold int_result. fold s.
    replace ((INT_MIN <=? s)%Z && (s <=? INT_MAX)%Z) with true
      by (symmetry; apply andb_true_iff; split; apply Z.leb_le; lia).
    cbn [mbind option_bind]. fold g1.
    assert (read_data g1 edible apple = Some (edible_at w apple)) as ->.
    { unfold read_data. rewrite Hcomp1. by apply read_edible_at. }
    cbn [mbind option_bind]. rewrite Hgrows, Hg2. cbn [mbind option_bind].
    assert (read_data g2 edible apple = Some (edible_at w apple)) as ->.
    { unfold read_data. rewrite Hed2. by apply read_edible_at. }
    cbn [mbind option_bind]. by rewrite Hresets.
  - done.
  - by rewrite Hsc3, Hsc2.
  - by rewrite Hem3.
  - apply (snake_same_followers g2); [|done].
    intros l. unfold followers. apply filter_same. intros i _.
    unfold follows. rewrite Hpres3. unfold follower_at, present, MECS_HAS_COMPONENT, read_data.
    by rewrite !(Hoth3 follower).
  - destruct (Hrest3 e Hne_apple) as [-> _]. unfold position_at.
    rewrite (read_data_insert w g2 position e e (position_at w tail))
      by (done || by rewrite Hpos2).
    by rewrite decide_True.
  - done.
  - by rewrite <- Hocc2.
  - intros i Hie Hia. destruct (Hrest3 i Hia) as [-> _]. unfold position_at.
    rewrite (read_data_insert w g2 position e i (position_at w tail))
      by (done || by rewrite Hpos2).
    by rewrite decide_False.
  - intros k. by rewrite Hpres3.
  - by rewrite (Hoth3 consumer).
  - by rewrite (Hoth3 edible).
  - done.
Qed.
(** The two loops around that body. *)
Lemma update_edibles_meal_loops :
  ∃ g rest,
    update_edibles fuel (w, rands) = Some (g, rest)
    ∧ score g = (score w + points (edible_at w apple))%Z
    ∧ em g = m
    ∧ snake g head (body ++ [e])
    ∧ position_at g e = position_at w (default head (last body))
    ∧ on_board (position_at g apple)
    ∧ is_occupied w (position_at g apple) = Some false
    ∧ (∀ i, i ≠ e → i ≠ apple → position_at g i = position_at w i)
    ∧ ∃ used, rands = used ++ rest.
Proof.
  destruct eat_apple
    as (g3 & rest & Heat & Hwf3 & Hsc & Hem & Hsnake3 & Hpe & Hboard & Hocc & Hrest
        & Hpres3 & Hcons3 & Hed3 & Hused).
  exists g3, rest. split; [|done].
  assert (∀ k, k < MAX_ENTITIES → k ≠ head →
               present w position k && present w consumer k = false) as Hmouth0.
  { intros k Hk Hne. apply not_true_iff_false. intros Hb. by apply Hmouths in Hb. }
  assert (∀ k, k < MAX_ENTITIES → k ≠ apple →
               present w position k && present w edible k = false) as Hfood0.
  { intros k Hk Hne. apply not_true_iff_false. intros Hb. by apply Hfoods in Hb. }
  assert (∀ k, k < MAX_ENTITIES → k ≠ head →
               present g3 position k && present g3 consumer k = false) as Hmouth3.
  { intros k Hk Hne. rewrite Hpres3.
    rewrite (present_same_flags w g3 consumer) by (by rewrite Hcons3).
    destruct (decide (k = e)) as [Heq|_]; [|by apply Hmouth0].
    rewrite Heq. by rewrite meal_clean_slot. }
  assert (∀ k, k < MAX_ENTITIES → k ≠ apple →
               present g3 position k && present g3 edible k = false) as Hfood3.
  { intros k Hk Hne. rewrite Hpres3.
    rewrite (present_same_flags w g3 edible) by (by rewrite Hed3).
    destruct (decide (k = e)) as [Heq|_]; [|by apply Hfood0].
    rewrite Heq. by rewrite meal_clean_slot. }
  assert (foreach_do foreach_fuel
            (λ (st : Play) food,
               and_then (MECS_HAS_COMPONENT (fst st) position food)
                        (MECS_HAS_COMPONENT (fst st) edible food))
            (λ food st, eat fuel head food st)
            0 (w, rands) = Some (g3, rest)) as Hinner.
  { destruct (foreach_do_invariant
                (λ (st : Play) food,
                   and_then (MECS_HAS_COMPONENT (fst st) position food)
                            (MECS_HAS_COMPONENT (fst st) edible food))
                (λ food st, eat fuel head food st)
                (λ k st, if decide (k ≤ apple) then st = (w, rands) else st = (g3, rest)))
      with (s := (w, rands)) as (st' & Hst' & HI).
    - intros k st Hk HI. destruct (decide (k ≤ apple)) as [Hle|Hgt].
      + rewrite HI. simpl fst.
        exists (present w position k && present w edible k). split.
        { rewrite !has_component_inside by done. by destruct (present w position k). }
        destruct (decide (k = apple)) as [Heq|Hne].
        * rewrite Heq. replace (present w position apple && present w edible apple)
            with true by (symmetry; by apply Hfoods).
          exists (g3, rest). split; [done|]. by rewrite decide_False by lia.
        * rewrite Hfood0 by done. by rewrite decide_True by lia.
      + rewrite HI. simpl fst. exists false. split.
        { rewrite !has_component_inside by done.
          rewrite <- (Hfood3 k) by (done || lia). by destruct (present g3 position k). }
        by rewrite decide_False by lia.
    - by rewrite decide_True by lia.
    - rewrite decide_False in HI by lia. by rewrite Hst', HI. }
  unfold update_edibles.
  destruct (foreach_do_invariant
              (λ (st : Play) mouth,
                 and_then (MECS_HAS_COMPONENT (fst st) position mouth)
                          (MECS_HAS_COMPONENT (fst st) consumer mouth))
              (λ mouth st,
                 foreach_do foreach_fuel
                   (λ st food, and_then (MECS_HAS_COMPONENT (fst st) position food)
                                        (MECS_HAS_COMPONENT (fst st) edible food))
                   (λ food st, eat fuel mouth food st)
                   0 st)
              (λ k st, if decide (k ≤ head) then st = (w, rands) else st = (g3, rest)))
    with (s := (w, rands)) as (st' & Hst' & HI).
  - intros k st Hk HI. destruct (decide (k ≤ head)) as [Hle|Hgt].
    + rewrite HI. simpl fst.
      exists (present w position k && present w consumer k). split.
      { rewrite !has_component_inside by done. by destruct (present w position k). }
      destruct (decide (k = head)) as [Heq|Hne].
      * rewrite Heq. replace (present w position head && present w consumer head)
          with true by (symmetry; by apply Hmouths).
        exists (g3, rest). split; [done|]. by rewrite decide_False by lia.
      * rewrite Hmouth0 by done. by rewrite decide_True by lia.
    + rewrite HI. simpl fst. exists false. split.
      { rewrite !has_component_inside by done.
        rewrite <- (Hmouth3 k) by (done || lia). by destruct (present g3 position k). }
      by rewrite decide_False by lia.
  - by rewrite decide_True by lia.
  - rewrite decide_False in HI by lia. rewrite HI in Hst'. exact Hst'.
Qed.
End meal.

(** X23 (a meal): take a well-formed world with one eater [head] and one
    edible entity [apple], different and on the same cell; the apple grows
    and resets, and its points do not take the score out of the range of
    [int]; [head] and [body] make a snake; the allocator hands out a slot
    [e] below [MAX_ENTITIES] without any component and without follower;
    the values of [rand] are not negative and some pair of them names a
    free cell.  Then [update_edibles] adds the points to the score, appends
    [e] to the snake on the cell of its former tail, and moves the apple to
    a cell of the board that nothing occupied; no other position changes. *)
Theorem update_edibles_meal (w : SnakeWorld) (head apple e : Entity)
    (body : list Entity) (fuel : nat) (m : EntityManager) (rands : list Z) :
  world_wf w → head < MAX_ENTITIES → apple < MAX_ENTITIES →
  (∀ k, k < MAX_ENTITIES →
        present w position k && present w consumer k = true ↔ k = head) →
  (∀ k, k < MAX_ENTITIES →
        present w position k && present w edible k = true ↔ k = apple) →
  position_at w head = position_at w apple →
  grows (edible_at w apple) = true →
  resets (edible_at w apple) = true →
  (INT_MIN ≤ score w + points (edible_at w apple) ≤ INT_MAX)%Z →
  snake w head body → (length body < fuel)%nat →
  mecs_entity_create (em w) = Some (e, m) → e < MAX_ENTITIES →
  (∀ n, MECS_HAS_COMPONENT w n e = Some false) →
  followers w e = [] →
  Forall (λ r, (0 ≤ r)%Z) rands → finds_free_cell rands w →
  ∃ g rest,
    update_edibles fuel (w, rands) = Some (g, rest)
    ∧ score g = (score w + points (edible_at w apple))%Z
    ∧ em g = m
    ∧ snake g head (body ++ [e])
    ∧ position_at g e = position_at w (default head (last body))
    ∧ on_board (position_at g apple)
    ∧ is_occupied w (position_at g apple) = Some false
    ∧ (∀ i, i ≠ e → i ≠ apple → position_at g i = position_at w i)
    ∧ ∃ used, rands = used ++ rest.
Proof. intros. by apply update_edibles_meal_loops. Qed.

(** The opening world with the apple under the head: the snake 0, 1, 2
    becomes 0, 1, 2, 4 and the score 1. *)
Lemma update_edibles_meal_witness :
  ∃ w g rest, meal_game = Some w
              ∧ update_edibles 3 (w, [7; 3; 9]%Z) = Some (g, rest)
              ∧ score g = 1%Z
              ∧ snake g 0 [1; 2; 4].
Proof.
  eexists.
  match goal with
  | |- ∃ g rest, meal_game = Some ?w0 ∧ _ =>
      set (w := w0);
      assert (meal_game = Some w) as Hw by (vm_compute; reflexivity);
      assert (world_wf w) as Hwf by eval_world_wf;
      destruct (update_edibles_meal w 0 3 4 [1; 2] 3
                  {| next_entity := 5; free_list := free_list (em w); free_count := 0 |}
                  [7; 3; 9]%Z Hwf)
        as (g & rest & Hg & Hscore & _ & Hsnake & _)
  end.
  - reflexivity.
  - reflexivity.
  - apply (only_slot_by_eval (λ k, present w position k && present w consumer k)).
    vm_compute. reflexivity.
  - apply (only_slot_by_eval (λ k, present w position k && present w edible k)).
    vm_compute. reflexivity.
  - vm_compute. reflexivity.
  - vm_compute. reflexivity.
  - vm_compute. reflexivity.
  - vm_compute. split; discriminate.
  - cbn [snake]. split; [vm_compute; reflexivity|]. split; vm_compute; reflexivity.
  - cbn [length]. lia.
  - vm_compute. reflexivity.
  - reflexivity.
  - intros []; vm_compute; reflexivity.
  - vm_compute. reflexivity.
  - repeat (apply Forall_cons; split; [discriminate|]). apply Forall_nil_2.
  - cbn [finds_free_cell]. left. vm_compute. reflexivity.
  - exists g, rest. split; [exact Hw|]. split; [exact Hg|].
    split; [|exact Hsnake]. rewrite Hscore. vm_compute. reflexivity.
Defined.

(** ** [init_snake] *)

Lemma present_new_game (n : Name) (k : Entity) :
  k < MAX_ENTITIES → present new_game n k = false.
Proof.
  intros Hk. unfold present, MECS_HAS_COMPONENT, array_read.
  apply bool_decide_eq_false_2.
  destruct n; simpl; unfold zero_array; rewrite lookup_replicate_2 by lia; done.
Qed.

Lemma snake_built_start : snake_built 0 new_game.
Proof.
  split_and!.
  - apply new_game_wf.
  - done.
  - intros k Hk. rewrite !present_new_game by done.
    split_and!; try done; symmetry; apply bool_decide_eq_false_2; lia.
  - intros k Hk. lia.
  - intros k Hk. lia.
  - lia.
Qed.

Lemma snake_built_create (i : nat) (g : SnakeWorld) :
  snake_built i g → N.of_nat i < MAX_ENTITIES →
  mecs_entity_create (em g)
  = Some (N.of_nat i,
          {| next_entity := N.of_nat (S i); free_list := zero_array 0; free_count := 0 |}).
Proof.
  intros (Hwf & Hem & _) Hi. rewrite create_fresh by (by rewrite Hem).
  rewrite Hem. simpl. ranges. rewrite uint_wrap_small by lia.
  do 3 f_equal. lia.
Qed.

(** Settles a flag after an insertion at [e] against its description. *)
Ltac settle_flag e :=
  match goal with
  | |- (if decide (?k = e) then _ else _) = _ =>
      destruct (decide (k = e));
        [ symmetry; first [ apply bool_decide_eq_true_2; lia
                          | apply bool_decide_eq_false_2; lia ]
        | first [ apply bool_decide_ext; lia
                | symmetry; apply bool_decide_eq_false_2; lia
                | done ] ]
  | |- bool_decide _ = bool_decide _ => apply bool_decide_ext; lia
  | |- _ => done
  end.

(** The first turn of the loop: the head. *)
Lemma snake_built_head (g : SnakeWorld) :
  snake_built 0 g →
  ∃ g', create_snake_head g (mkPosition 5 5) RIGHT = Some (0, g') ∧ snake_built 1 g'.
Proof.
  intros Hbuilt. ranges.
  pose proof (snake_built_create 0 g Hbuilt) as Hcreate. simpl in Hcreate.
  destruct Hbuilt as (Hwf & Hem & Hflags & Hpos & Hfol & Hdir).
  destruct (create_snake_head_inside g (mkPosition 5 5) RIGHT 0 _ Hwf (Hcreate ltac:(lia)))
    as (g' & Hg' & Hwf' & Hem' & _ & _ & Hcdir & Hccons & _ & Hcpos & _ & Hced & Hcfol);
    [lia|].
  exists g'. split; [done|]. split_and!.
  - done.
  - done.
  - intros k Hk. destruct (Hflags k Hk) as (Hp & Hf & Hd & Hc & He).
    rewrite (present_flag_insert g g' position 0 k true) by (done || by rewrite Hcpos).
    rewrite (present_flag_insert g g' direction 0 k true) by (done || by rewrite Hcdir).
    rewrite (present_flag_insert g g' consumer 0 k true) by (done || by rewrite Hccons).
    rewrite (present_same_flags g g' follower) by (by rewrite Hcfol).
    rewrite (present_same_flags g g' edible) by (by rewrite Hced).
    rewrite Hp, Hf, Hd, Hc, He.
    split_and!; settle_flag 0.
  - intros k Hk. assert (k = 0) as -> by lia. unfold position_at.
    rewrite (read_data_insert g g' position 0 0 (mkPosition 5 5))
      by (done || by rewrite Hcpos).
    by rewrite decide_True.
  - intros k Hk. lia.
  - intros _. unfold direction_at.
    rewrite (read_data_insert g g' direction 0 0 RIGHT) by (done || by rewrite Hcdir).
    by rewrite decide_True.
Qed.

(** A later turn: a segment that follows the entity made before. *)
Lemma snake_built_segment (i : nat) (g : SnakeWorld) :
  snake_built (S i) g → N.of_nat (S i) < MAX_ENTITIES →
  ∃ g', create_snake_segment g (mkPosition (5 - Z.of_nat (S i)) 5) (N.of_nat i)
        = Some (N.of_nat (S i), g')
        ∧ snake_built (S (S i)) g'.
Proof.
  intros Hbuilt Hi. ranges.
  pose proof (snake_built_create (S i) g Hbuilt Hi) as Hcreate.
  destruct Hbuilt as (Hwf & Hem & Hflags & Hpos & Hfol & Hdir).
  set (e := N.of_nat (S i)) in *.
  destruct (create_snake_segment_inside g (mkPosition (5 - Z.of_nat (S i)) 5)
              (N.of_nat i) e _ Hwf Hcreate Hi)
    as (g' & Hg' & Hwf' & Hem' & _ & Hcpos & Hcfol & _ & _ & Hccons & Hcdir & Hced & _).
  exists g'. split; [done|]. split_and!.
  - done.
  - done.
  - intros k Hk. destruct (Hflags k Hk) as (Hp & Hf & Hd & Hc & He).
    rewrite (present_flag_insert g g' position e k true) by (done || by rewrite Hcpos).
    rewrite (present_flag_insert g g' follower e k true) by (done || by rewrite Hcfol).
    rewrite (present_same_flags g g' direction) by (by rewrite Hcdir).
    rewrite (present_same_flags g g' consumer) by (by rewrite Hccons).
    rewrite (present_same_flags g g' edible) by (by rewrite Hced).
    rewrite Hp, Hf, Hd, Hc, He. unfold e.
    split_and!; settle_flag (N.of_nat (S i)).
  - intros k Hk. unfold position_at.
    rewrite (read_data_insert g g' position e k (mkPosition (5 - Z.of_nat (S i)) 5))
      by (done || by rewrite Hcpos).
    destruct (decide (k = e)) as [->|Hne].
    + simpl. f_equal; unfold e; lia.
    + apply Hpos. unfold e in Hne. lia.
  - intros k Hk. unfold follower_at.
    rewrite (read_data_insert g g' follower e k (N.of_nat i))
      by (done || by rewrite Hcfol).
    destruct (decide (k = e)) as [->|Hne].
    + simpl. unfold e. lia.
    + apply Hfol. unfold e in Hne. lia.
  - intros _. unfold direction_at, read_data. rewrite Hcdir. apply Hdir. lia.
Qed.

Lemma MAX_ENTITIES_int : (Z.of_N MAX_ENTITIES < INT_MAX)%Z.
Proof. by vm_compute. Qed.

Lemma int_result_inside (z : Z) :
  (INT_MIN ≤ z ≤ INT_MAX)%Z → int_result z = Some z.
Proof.
  intros Hz. unfold int_result.
  by replace ((INT_MIN <=? z)%Z && (z <=? INT_MAX)%Z) with true
    by (symmetry; apply andb_true_iff; split; apply Z.leb_le; lia).
Qed.

Lemma index_of_int_nat (k : nat) : index_of_int (Z.of_nat k) = Some (N.of_nat k).
Proof.
  unfold index_of_int.
  replace (Z.of_nat k <? 0)%Z with false by (symmetry; apply Z.ltb_ge; lia).
  f_equal. lia.
Qed.

(** The loop of [init_snake] on the world of [new_game], from turn [i] on. *)
Lemma init_snake_loop_builds (n : nat) :
  N.of_nat n ≤ MAX_ENTITIES →
  ∀ fuel i g (s : list (option Entity)),
    snake_built i g → (i ≤ n)%nat → (n - i < fuel)%nat →
    length s = n →
    (∀ k, (k < i)%nat → s !! k = Some (Some (N.of_nat k))) →
    ∃ g', init_snake_loop fuel (Z.of_nat n) (Z.of_nat i) g s = Some g'
          ∧ snake_built n g'.
Proof.
  intros Hn. pose proof MAX_ENTITIES_int as Hmax.
  assert (INT_MIN = - 2 ^ 31)%Z as Hmin by done.
  assert (INT_MAX = 2 ^ 31 - 1)%Z as Hmaxv by done.
  induction fuel as [|fuel IH]; intros i g s Hbuilt Hi Hfuel Hlen Hs; [lia|].
  cbn [init_snake_loop].
  destruct (Z.of_nat i <? Z.of_nat n)%Z eqn:Hlt.
  - apply Z.ltb_lt in Hlt.
    rewrite (int_result_inside (5 - Z.of_nat i)) by lia.
    rewrite (int_result_inside (Z.of_nat i + 1)) by lia.
    cbn [mbind option_bind]. cbv zeta.
    assert (∃ g', (if (Z.of_nat i =? 0)%Z
                   then create_snake_head g (mkPosition (5 - Z.of_nat i) 5) RIGHT
                   else
                     idx ← index_of_int (Z.of_nat i - 1);
                     entry ← array_read s idx;
                     follows ← entry;
                     create_snake_segment g (mkPosition (5 - Z.of_nat i) 5) follows)
                  = Some (N.of_nat i, g')
                  ∧ snake_built (S i) g') as (g' & -> & Hbuilt').
    { destruct i as [|j].
      - simpl. by apply snake_built_head.
      - replace (Z.of_nat (S j) =? 0)%Z with false by (symmetry; apply Z.eqb_neq; lia).
        replace (Z.of_nat (S j) - 1)%Z with (Z.of_nat j) by lia.
        rewrite index_of_int_nat. cbn [mbind option_bind].
        unfold array_read. rewrite Nat2N.id, Hs by lia. cbn [mbind option_bind].
        apply snake_built_segment; [done | lia]. }
    cbn [mbind option_bind].
    rewrite index_of_int_nat. cbn [mbind option_bind].
    rewrite array_write_inside by lia. cbn [mbind option_bind].
    replace (Z.of_nat i + 1)%Z with (Z.of_nat (S i)) by lia.
    apply IH; [done | lia | lia | by rewrite length_insert |].
    intros k Hk. rewrite Nat2N.id. destruct (decide (k = i)) as [->|Hne].
    + by rewrite list_lookup_insert_eq by lia.
    + rewrite list_lookup_insert_ne by done. apply Hs. lia.
  - apply Z.ltb_ge in Hlt. assert (i = n) as -> by lia. by exists g.
Qed.

(** Who follows whom in the world that the loop has built. *)
Lemma followers_built (n : nat) (g : SnakeWorld) (l : Entity) :
  snake_built n g → N.of_nat n ≤ MAX_ENTITIES →
  followers g l = if decide (l + 1 < N.of_nat n) then [l + 1] else [].
Proof.
  intros (Hwf & _ & Hflags & _ & Hfol & _) Hn.
  assert (∀ k, k < MAX_ENTITIES →
               follows g l k = bool_decide (k = l + 1 ∧ l + 1 < N.of_nat n)) as Hfollows.
  { intros k Hk. destruct (Hflags k Hk) as (Hp & Hf & _).
    unfold follows. rewrite Hp, Hf.
    destruct (decide (0 < k < N.of_nat n)) as [Hin|Hout].
    - rewrite !bool_decide_eq_true_2 by lia. rewrite Hfol by done. simpl.
      destruct (k - 1 =? l) eqn:Heq.
      + apply N.eqb_eq in Heq. symmetry. apply bool_decide_eq_true_2. lia.
      + apply N.eqb_neq in Heq. symmetry. apply bool_decide_eq_false_2. lia.
    - rewrite (bool_decide_eq_false_2 (0 < k < N.of_nat n)) by done.
      rewrite andb_false_r. simpl. symmetry. apply bool_decide_eq_false_2. lia. }
  unfold followers. destruct (decide (l + 1 < N.of_nat n)) as [Hlt|Hge].
  - apply filter_single.
    + apply NoDup_ids_below.
    + apply elem_of_ids_below. lia.
    + rewrite Hfollows by lia. by apply bool_decide_eq_true_2.
    + intros k Hk Hne. apply elem_of_ids_below in Hk.
      rewrite Hfollows by done. apply bool_decide_eq_false_2. lia.
  - apply filter_none. intros k Hk. apply elem_of_ids_below in Hk.
    rewrite Hfollows by done. apply bool_decide_eq_false_2. lia.
Qed.

Lemma snake_of_built (n : nat) (g : SnakeWorld) :
  snake_built n g → N.of_nat n ≤ MAX_ENTITIES →
  ∀ c l, (l + c + 1 = n)%nat → snake g (N.of_nat l) (N.of_nat <$> seq (S l) c).
Proof.
  intros Hbuilt Hn. induction c as [|c IH]; intros l Hl; simpl.
  - rewrite (followers_built n g) by done. by rewrite decide_False by lia.
  - split.
    + rewrite (followers_built n g) by done. rewrite decide_True by lia.
      f_equal. lia.
    + apply IH. lia.
Qed.

(** X24 (init_snake builds a snake): on the world of [new_game] and for a
    length between 1 and [MAX_ENTITIES], [init_snake] ends without leaving
    an array; it makes the entities [0 .. length-1], entity [k] at
    (5 - k, 5); entity 0 with the rest as its body is a snake, and it is
    the only entity that has a direction, which is [RIGHT], and the only one
    that eats; the allocator has handed out [length] identifiers and holds
    none back. *)
Theorem init_snake_builds (length : Z) :
  (0 < length ≤ Z.of_N MAX_ENTITIES)%Z →
  ∃ g, init_snake new_game length = Some g
       ∧ snake g 0 (N.of_nat <$> seq 1 (Z.to_nat length - 1))
       ∧ (∀ k, (Z.of_N k < length)%Z →
               MECS_HAS_COMPONENT g position k = Some true
               ∧ position_at g k = mkPosition (5 - Z.of_N k) 5)
       ∧ direction_at g 0 = RIGHT
       ∧ (∀ k, k < MAX_ENTITIES →
               present g position k && present g direction k = true ↔ k = 0)
       ∧ (∀ k, k < MAX_ENTITIES →
               present g position k && present g consumer k = true ↔ k = 0)
       ∧ next_entity (em g) = Z.to_N length
       ∧ free_count (em g) = 0.
Proof.
  intros Hlen. set (n := Z.to_nat length).
  assert (N.of_nat n ≤ MAX_ENTITIES) as Hn by lia.
  destruct (init_snake_loop_builds n Hn (S n) 0%nat new_game (replicate n None))
    as (g & Hg & Hbuilt).
  { apply snake_built_start. }
  { lia. }
  { lia. }
  { apply length_replicate. }
  { intros k Hk. lia. }
  exists g. split.
  { unfold init_snake.
    replace (length <=? 0)%Z with false by (symmetry; apply Z.leb_gt; lia).
    fold n. by replace length with (Z.of_nat n) by lia. }
  assert (0 + (n - 1) + 1 = n)%nat as Hsum by lia.
  pose proof (snake_of_built n g Hbuilt Hn (n - 1)%nat 0%nat Hsum) as Hsnake.
  destruct Hbuilt as (Hwf & Hem & Hflags & Hpos & Hfol & Hdir).
  split_and!.
  - done.
  - intros k Hk. assert (k < MAX_ENTITIES) as Hk' by lia.
    destruct (Hflags k Hk') as (Hp & _). split.
    + apply present_true. rewrite Hp. apply bool_decide_eq_true_2. lia.
    + apply Hpos. lia.
  - apply Hdir. lia.
  - intros k Hk. destruct (Hflags k Hk) as (Hp & _ & Hd & _). rewrite Hp, Hd.
    rewrite andb_true_iff, !bool_decide_eq_true. lia.
  - intros k Hk. destruct (Hflags k Hk) as (Hp & _ & _ & Hc & _). rewrite Hp, Hc.
    rewrite andb_true_iff, !bool_decide_eq_true. lia.
  - rewrite Hem. simpl. lia.
  - by rewrite Hem.
Qed.

(** [init_snake(game, 3)], as [main] calls it. *)
Lemma init_snake_builds_witness :
  ∃ g, init_snake new_game 3 = Some g
       ∧ snake g 0 [1; 2]
       ∧ position_at g 2 = mkPosition 3 5.
Proof.
  destruct (init_snake_builds 3) as (g & Hg & Hsnake & Hpos & _).
  - vm_compute. split; [reflexivity | discriminate].
  - exists g. split; [exact Hg|]. split; [exact Hsnake|].
    apply (Hpos 2). reflexivity.
Defined.

Lemma create_snake_segment_outside (g : SnakeWorld) (pos : Position) (follows : Entity) :
  world_wf g → free_count (em g) = 0 → MAX_ENTITIES ≤ next_entity (em g) →
  create_snake_segment g pos follows = None.
Proof.
  intros [_ Hc] Hfc Hnext. destruct (Hc position) as [Hlen _].
  unfold create_snake_segment. rewrite create_fresh by done.
  cbn [mbind option_bind]. unfold MECS_SET_COMPONENT, write_data.
  rewrite component_set_em. unfold array_decl in Hlen.
  by rewrite array_write_outside by lia.
Qed.

(** The loop of [init_snake] asked for more entities than there are slots:
    from any turn on, with any number of turns allowed, it yields no world. *)
Lemma init_snake_loop_overflows (length : Z) :
  (Z.of_N MAX_ENTITIES < length)%Z →
  ∀ fuel i g (s : list (option Entity)),
    snake_built i g → N.of_nat i ≤ MAX_ENTITIES →
    List.length s = Z.to_nat length →
    (∀ k, (k < i)%nat → s !! k = Some (Some (N.of_nat k))) →
    init_snake_loop fuel length (Z.of_nat i) g s = None.
Proof.
  intros Hlen. pose proof MAX_ENTITIES_int as Hmax. ranges.
  assert (INT_MIN = - 2 ^ 31)%Z as Hmin by done.
  assert (INT_MAX = 2 ^ 31 - 1)%Z as Hmaxv by done.
  induction fuel as [|fuel IH]; intros i g s Hbuilt Hi Hs Hprefix; [done|].
  cbn [init_snake_loop].
  replace (Z.of_nat i <? length)%Z with true by (symmetry; apply Z.ltb_lt; lia).
  rewrite (int_result_inside (5 - Z.of_nat i)) by lia.
  rewrite (int_result_inside (Z.of_nat i + 1)) by lia.
  cbn [mbind option_bind]. cbv zeta.
  destruct (decide (N.of_nat i = MAX_ENTITIES)) as [Hfull|Hroom].
  - (* no slot left: the segment is written outside the arrays *)
    destruct i as [|j]; [lia|].
    replace (Z.of_nat (S j) =? 0)%Z with false by (symmetry; apply Z.eqb_neq; lia).
    replace (Z.of_nat (S j) - 1)%Z with (Z.of_nat j) by lia.
    rewrite (index_of_int_nat j). cbn [mbind option_bind].
    unfold array_read. rewrite Nat2N.id, Hprefix by lia. cbn [mbind option_bind].
    destruct Hbuilt as (Hwf & Hem & _).
    rewrite create_snake_segment_outside; [done | done | by rewrite Hem |].
    rewrite Hem. simpl. lia.
  - assert (∃ g', (if (Z.of_nat i =? 0)%Z
                   then create_snake_head g (mkPosition (5 - Z.of_nat i) 5) RIGHT
                   else
                     idx ← index_of_int (Z.of_nat i - 1);
                     entry ← array_read s idx;
                     follows ← entry;
                     create_snake_segment g (mkPosition (5 - Z.of_nat i) 5) follows)
                  = Some (N.of_nat i, g')
                  ∧ snake_built (S i) g') as (g' & -> & Hbuilt').
    { destruct i as [|j].
      - simpl. by apply snake_built_head.
      - replace (Z.of_nat (S j) =? 0)%Z with false by (symmetry; apply Z.eqb_neq; lia).
        replace (Z.of_nat (S j) - 1)%Z with (Z.of_nat j) by lia.
        rewrite index_of_int_nat. cbn [mbind option_bind].
        unfold array_read. rewrite Nat2N.id, Hprefix by lia. cbn [mbind option_bind].
        apply snake_built_segment; [done | lia]. }
    cbn [mbind option_bind].
    rewrite index_of_int_nat. cbn [mbind option_bind].
    rewrite array_write_inside by lia. cbn [mbind option_bind].
    replace (Z.of_nat i + 1)%Z with (Z.of_nat (S i)) by lia.
    apply IH; [done | lia | by rewrite length_insert |].
    intros k Hk. rewrite Nat2N.id. destruct (decide (k = i)) as [->|Hne].
    + by rewrite list_lookup_insert_eq by lia.
    + rewrite list_lookup_insert_ne by done. apply Hprefix. lia.
Qed.

(** X25 (init_snake beyond the capacity): on the world of [new_game] and
    for a length above [MAX_ENTITIES], the loop of [init_snake] uses up
    every slot and then makes a segment whose identifier lies outside the
    component arrays: however many turns it is allowed, it yields no
    world; nor does it for a length that is zero or negative, which is no
    size for the array [snake]. *)
Theorem init_snake_out_of_range (length : Z) :
  (length ≤ 0 ∨ Z.of_N MAX_ENTITIES < length)%Z →
  init_snake new_game length = None
  ∧ ((0 < length)%Z →
     ∀ fuel, init_snake_loop fuel length 0 new_game (replicate (Z.to_nat length) None)
             = None).
Proof.
  intros [Hneg|Hbig].
  - split; [|lia]. unfold init_snake.
    by replace (length <=? 0)%Z with true by (symmetry; apply Z.leb_le; lia).
  - assert (∀ fuel, init_snake_loop fuel length 0 new_game
                      (replicate (Z.to_nat length) None) = None) as Hloop.
    { intros fuel.
      apply (init_snake_loop_overflows length Hbig fuel 0%nat).
      - apply snake_built_start.
      - lia.
      - apply length_replicate.
      - intros k Hk. lia. }
    split; [|done]. unfold init_snake.
    replace (length <=? 0)%Z with false by (symmetry; apply Z.leb_gt; lia).
    apply Hloop.
Qed.

Lemma init_snake_out_of_range_witness :
  init_snake new_game 1025 = None ∧ init_snake new_game 0 = None.
Proof.
  split.
  - refine (proj1 (init_snake_out_of_range 1025 _)). right. vm_compute. reflexivity.
  - refine (proj1 (init_snake_out_of_range 0 _)). left. lia.
Defined.

(** ** [update_state] *)

(** X26 (a turn without a meal): in a well-formed world where [head] is the
    one entity with a position and a direction and the one entity with a
    position and the consumer tag, where [head] and [body] make a snake,
    where the coordinates of [head] are not at the ends of the range of
    [int], and where every entity with a position and the edible component
    is outside the snake and not on the cell next to [head] in its
    direction, [update_state] moves the snake as [update_interactables]
    does, changes nothing but positions and draws no random number: what
    is eaten is decided on the positions after the move. *)
Theorem update_state_moves (w : SnakeWorld) (head : Entity) (body : list Entity)
    (fuel : nat) (rands : list Z) :
  world_wf w → head < MAX_ENTITIES →
  (∀ k, k < MAX_ENTITIES →
        present w position k && present w direction k = true ↔ k = head) →
  (∀ k, k < MAX_ENTITIES →
        present w position k && present w consumer k = true → k = head) →
  snake w head body → (length body < fuel)%nat →
  inside_int (position_at w head) →
  (∀ food, food < MAX_ENTITIES →
           present w position food && present w edible food = true →
           (food ∉ head :: body)
           ∧ position_at w food ≠ moved (direction_at w head) (position_at w head)) →
  ∃ w', update_state fuel (w, rands) = Some (w', rands)
        ∧ position_only w w'
        ∧ position_at w' head = moved (direction_at w head) (position_at w head)
        ∧ (∀ k e l, body !! k = Some e → (head :: body) !! k = Some l →
                    position_at w' e = position_at w l)
        ∧ (∀ i, i ∉ head :: body → position_at w' i = position_at w i).
Proof.
  intros Hwf Hhead Honly Hmouth Hsnake Hfuel Hint Hfood.
  destruct (update_interactables_snake w head body fuel Hwf Hhead Honly Hsnake Hfuel Hint)
    as (w' & Hw' & Hwf' & Hpo & Hpos).
  pose proof (snake_NoDup w body head Hsnake) as Hnd.
  apply NoDup_cons in Hnd as [Hnot Hnd].
  exists w'. split.
  { unfold update_state. cbn [fst snd]. rewrite Hw'. cbn [mbind option_bind].
    apply update_edibles_idle; [done|].
    intros mouth food Hm Hf. unfold meal.
    rewrite !(position_only_present w w') by done.
    destruct (present w position mouth && present w consumer mouth) eqn:Hmc; [|done].
    destruct (present w position food && present w edible food) eqn:Hfe; [|done].
    apply Hmouth in Hmc; [|done]. subst mouth.
    destruct (Hfood food Hf Hfe) as [Hout Hcell].
    cbn [andb]. apply not_true_is_false. intros Heq.
    apply positions_equal_eq in Heq. apply Hcell.
    rewrite !Hpos in Heq. rewrite decide_True in Heq by done.
    apply not_elem_of_cons in Hout as [Hne Hout].
    rewrite decide_False in Heq by done.
    by rewrite shifted_outside in Heq. }
  split; [done|]. split_and!.
  - by rewrite Hpos, decide_True.
  - intros k e l He Hl. rewrite Hpos.
    rewrite decide_False by (intros ->; apply Hnot; by eapply list_elem_of_lookup_2).
    by eapply shifted_lookup.
  - intros i Hi. apply not_elem_of_cons in Hi as [Hne Hi].
    rewrite Hpos, decide_False by done. by apply shifted_outside.
Qed.

(** In the opening world the head at (5, 5) heads right, the apple lies at
    (0, 0). *)
Lemma update_state_moves_witness :
  ∃ w w', opening_game = Some w
          ∧ update_state 3 (w, [4; 2]%Z) = Some (w', [4; 2]%Z)
          ∧ position_at w' 0 = mkPosition 6 5
          ∧ position_at w' 1 = mkPosition 5 5
          ∧ score w' = score w.
Proof.
  eexists.
  match goal with
  | |- ∃ w', opening_game = Some ?w0 ∧ _ =>
      set (w := w0);
      assert (opening_game = Some w) as Hw by (vm_compute; reflexivity);
      assert (world_wf w) as Hwf by eval_world_wf;
      destruct (update_state_moves w 0 [1; 2] 3 [4; 2]%Z Hwf)
        as (w' & Hw' & Hpo & Hhead & Hbody & _)
  end.
  - reflexivity.
  - apply (only_slot_by_eval (λ k, present _ position k && present _ direction k)).
    vm_compute. reflexivity.
  - intros k Hk.
    apply (only_slot_by_eval (λ k, present w position k && present w consumer k) 0);
      [vm_compute; reflexivity | exact Hk].
  - cbn [snake]. split; [vm_compute; reflexivity|]. split; vm_compute; reflexivity.
  - cbn [length]. lia.
  - vm_compute. repeat split.
  - intros food Hfood Hflags.
    apply (only_slot_by_eval (λ k, present w position k && present w edible k) 3) in Hflags;
      [|vm_compute; reflexivity | exact Hfood].
    subst food. split.
    + intros Hin. repeat (apply elem_of_cons in Hin as [Hin|Hin]; [discriminate|]).
      by apply elem_of_nil in Hin.
    + vm_compute. discriminate.
  - exists w'. split; [exact Hw|]. split; [exact Hw'|]. split_and!.
    + rewrite Hhead. vm_compute. reflexivity.
    + rewrite (Hbody 0%nat 1 0) by reflexivity. vm_compute. reflexivity.
    + destruct Hpo as (_ & Hscore & _). exact Hscore.
Defined.

(** ** [sleep_ms] *)

(** X27 (the time slept): for every [int], [sleep_ms] computes its
    [timespec] without leaving the range of [int] or of a 32 bit [long],
    and the two fields together stand for just that many milliseconds.
    For a number that is not negative the [timespec] is one [nanosleep]
    accepts: no field is negative and [tv_nsec] is below 1000000000.  For a
    negative number one of the fields is negative. *)
Theorem sleep_ms_exact (milliseconds : Z) :
  (INT_MIN ≤ milliseconds ≤ INT_MAX)%Z →
  ∃ ts, sleep_ms milliseconds = Some ts
        ∧ (tv_sec ts * 1000000000 + tv_nsec ts = milliseconds * 1000000)%Z
        ∧ ((0 ≤ milliseconds)%Z → (0 ≤ tv_sec ts)%Z ∧ (0 ≤ tv_nsec ts < 1000000000)%Z)
        ∧ ((milliseconds < 0)%Z → (tv_sec ts < 0)%Z ∨ (tv_nsec ts < 0)%Z).
Proof.
  intros Hint.
  assert (INT_MIN = - 2 ^ 31)%Z as Hmin by done.
  assert (INT_MAX = 2 ^ 31 - 1)%Z as Hmax by done.
  pose proof (Z.quot_rem' milliseconds 1000) as Hqr.
  assert (- 1000 < Z.rem milliseconds 1000 < 1000)%Z as Hrem.
  { pose proof (Z.rem_bound_abs milliseconds 1000). lia. }
  assert (0 ≤ milliseconds → 0 ≤ Z.rem milliseconds 1000)%Z as Hpos.
  { intros Hm. apply Z.rem_nonneg; lia. }
  assert (milliseconds ≤ 0 → Z.rem milliseconds 1000 ≤ 0)%Z as Hneg.
  { intros Hm. apply Z.rem_nonpos; lia. }
  unfold sleep_ms.
  rewrite (int_result_inside (Z.quot milliseconds 1000)) by lia.
  rewrite (int_result_inside (Z.rem milliseconds 1000)) by lia.
  cbn [mbind option_bind]. unfold long_result.
  replace ((- 2 ^ 31 <=? Z.rem milliseconds 1000 * 1000000)
           && (Z.rem milliseconds 1000 * 1000000 <=? 2 ^ 31 - 1))%Z with true
    by (symmetry; apply andb_true_iff; split; apply Z.leb_le; lia).
  cbn [mbind option_bind]. eexists. split; [done|]. cbn [tv_sec tv_nsec].
  split; [lia|]. split; intros Hm; lia.
Qed.

Lemma sleep_ms_exact_witness :
  ∃ ts, sleep_ms 200 = Some ts
        ∧ (tv_sec ts * 1000000000 + tv_nsec ts = 200 * 1000000)%Z
        ∧ (0 ≤ tv_nsec ts < 1000000000)%Z.
Proof.
  destruct (sleep_ms_exact 200) as (ts & Hts & Hsum & Hpos & _).
  - vm_compute. split; discriminate.
  - exists ts. split; [exact Hts|]. split; [exact Hsum|]. apply Hpos. lia.
Defined.
